(** * GRIT: element discovery and transcript quantification

    A shallow embedding of the parts of [grit/find_elements.py],
    [grit/build_transcripts.py] and [file_types/fast_gtf_parser/gtf.py]
    that the specification's claims are about, with the claims stated and
    settled as theorems over these definitions.

    Conventions used throughout:
    - Python integers are [Z]; genomic coordinates are 0-based and closed.
    - Python and numpy floats are IEEE 754 doubles. Where the code does
      arithmetic on them whose rounding matters ([calc_fpkm] and the
      values the worker hands on) they are Rocq's binary64 [float], with
      the same operations and the same rounding. Where the code only
      compares them, takes minima and maxima, or the claim is about the
      shape of a formula, they are read as the rationals [Q] they denote,
      and a computation without a finite value (a division by zero) is
      [None].
    - A Python exception raised by a function is a [None] (or an explicit
      error value) of the modelled function. *)

From Stdlib Require Import ZArith QArith Qround Bool Lia Sorting Permutation.
From Stdlib Require Import Ascii String DecimalString.
From Stdlib Require Import Floats.
From stdpp Require Import gmap strings list fin_maps sorting.

Open Scope Z_scope.

(** A decimal float literal denotes the nearest double, as in Python. *)
Set Warnings "-inexact-float".

(** ** Genomic intervals *)

(** A [(start, stop)] tuple. *)
Abbreviation interval := (Z * Z)%type.

(** [a] lies inside [b]. *)
Definition contained (a b : interval) : Prop :=
  fst b <= fst a /\ snd a <= snd b.

(** ** [merge_adjacent_intervals] (find_elements.py) *)

Module IntervalOrder <: Orders.TotalLeBool.
Definition t := interval.
(** Python's tuple comparison: lexicographic on (start, stop). *)
Definition leb (a b : t) : bool :=
  (fst a <? fst b) || ((fst a =? fst b) && (snd a <=? snd b)).
Lemma leb_total : forall a b, leb a b = true \/ leb b a = true.
Proof.
  intros [a1 a2] [b1 b2]; unfold leb; simpl.
  destruct (Z.ltb_spec a1 b1), (Z.ltb_spec b1 a1),
    (Z.eqb_spec a1 b1), (Z.eqb_spec b1 a1),
    (Z.leb_spec a2 b2), (Z.leb_spec b2 a2); simpl; auto; lia.
Qed.
End IntervalOrder.

Module IntervalSort := Sort IntervalOrder.

(** [intervals.sort()] *)
Definition sort_intervals (l : list interval) : list interval :=
  IntervalSort.sort l.

(** [merged_intervals[-1][1] = stop] *)
Definition set_last_stop (merged : list interval) (stop : Z) : list interval :=
  match reverse merged with
  | [] => []
  | (s, _) :: before => reverse ((s, stop) :: before)
  end.

(** The body of the [for start, stop in intervals[1:]] loop, threading
    [merged_intervals] and [prev_stop]. *)
Fixpoint merge_loop (d : Z) (rest merged : list interval) (prev_stop : Z)
  : list interval :=
  match rest with
  | [] => merged
  | (start, stop) :: rest' =>
      if start - d - 1 <=? prev_stop
      then merge_loop d rest' (set_last_stop merged stop) stop
      else merge_loop d rest' (merged ++ [(start, stop)]) stop
  end.

(** [max_merge_distance] defaults to [None]; subtracting [None] from an
    integer raises [TypeError], which happens as soon as the loop body runs. *)
Definition merge_adjacent_intervals
  (intervals : list interval) (max_merge_distance : option Z)
  : option (list interval) :=
  match sort_intervals intervals with
  | [] => Some []
  | first :: rest =>
      match rest, max_merge_distance with
      | [], _ => Some [first]
      | _ :: _, None => None
      | _ :: _, Some d => Some (merge_loop d rest [first] (snd first))
      end
  end.

(** Output shape: starts are in non-decreasing order ... *)
Definition sorted_by_start (l : list interval) : Prop :=
  Sorted (fun a b => fst a <= fst b) l.

(** ... and each interval stops strictly before the next one starts. *)
Definition non_overlapping (l : list interval) : Prop :=
  Sorted (fun a b => snd a < fst b) l.

(** Every input interval lies inside some returned interval. *)
Definition covers (out ins : list interval) : Prop :=
  forall i, In i ins -> exists o, In o out /\ contained i o.

(** No input interval reaches past the stop of one that starts later. *)
Definition no_nesting (l : list interval) : Prop :=
  forall a b, In a l -> In b l -> fst a < fst b -> snd a <= snd b.

(** ** [find_empty_regions] and [find_transcribed_regions]
       (find_elements.py) *)

(** One entry of [numpy.asarray(cov >= thresh, dtype=int)]. *)
Definition at_least (thresh c : Q) : Z :=
  if Qle_bool thresh c then 1 else 0.

(** [numpy.diff]: differences of consecutive entries. *)
Fixpoint np_diff (a : list Z) : list Z :=
  match a with
  | u :: ((v :: _) as tl) => (v - u) :: np_diff tl
  | _ => []
  end.

(** [numpy.nonzero(x == v)[0]], counting positions from [i]. *)
Fixpoint nonzero_eq_from (i : Z) (v : Z) (x : list Z) : list Z :=
  match x with
  | [] => []
  | u :: x' =>
      if u =? v then i :: nonzero_eq_from (i + 1) v x'
      else nonzero_eq_from (i + 1) v x'
  end.

Definition nonzero_eq (v : Z) (x : list Z) : list Z := nonzero_eq_from 0 v x.

(** [find_empty_regions(cov, thresh, min_length)]. [None] is the
    [IndexError] of [cov[-1]] on an empty array, or a failed [assert]. *)
Definition find_empty_regions (cov : list Q) (thresh : Q) (min_length : Z)
  : option (list interval) :=
  let x := np_diff (map (at_least thresh) cov) in
  let stops := nonzero_eq 1 x in
  match last cov, head cov with
  | Some cov_last, Some cov_first =>
      let stops :=
        if Qle_bool thresh cov_last then stops
        else stops ++ [Z.of_nat (length x)] in
      let starts := map (fun i => i + 1) (nonzero_eq (-1) x) in
      let starts :=
        if Qle_bool thresh cov_first then starts else 0 :: starts in
      if (length starts =? length stops)%nat
      then Some (List.filter (fun r => min_length <=? snd r - fst r + 1)
                   (zip starts stops))
      else None
  | _, _ => None
  end.

(** [transcribed_regions[-1].append(x)] *)
Definition append_to_last (regions : list (list Z)) (x : Z)
  : list (list Z) :=
  match reverse regions with
  | [] => []
  | r :: before => reverse ((r ++ [x]) :: before)
  end.

(** [find_transcribed_regions(cov, thresh)]. A region is the Python list
    [[start]] while it is open and [[start, stop]] once closed. *)
Definition find_transcribed_regions (cov : list Q) (thresh : Q)
  : option (list (list Z)) :=
  match find_empty_regions cov thresh 0 with
  | None => None
  | Some [] => Some [[0; Z.of_nat (length cov) - 1]]
  | Some (((start0, stop0) :: others) as empty_regions) =>
      let '(transcribed_regions, empty_regions) :=
        if start0 =? 0 then ([[stop0 + 1]], others)
        else ([[0]], empty_regions) in
      let transcribed_regions :=
        fold_left
          (fun trs '(start, stop) =>
             append_to_last trs (start - 1) ++ [[stop + 1]])
          empty_regions transcribed_regions in
      match last transcribed_regions with
      | Some (first :: _) =>
          if first =? Z.of_nat (length cov)
          then Some (removelast transcribed_regions)
          else Some (append_to_last transcribed_regions
                       (Z.of_nat (length cov) - 1))
      | _ => None
      end
  end.

(** ** Python's [min] and [max] on floats *)

(** [min(xs)]: the first smallest element; [ValueError] on an empty
    sequence. *)
Definition py_min (xs : list Q) : option Q :=
  match xs with
  | [] => None
  | x :: xs' =>
      Some (fold_left
              (fun best y => if Qle_bool best y then best else y) xs' x)
  end.

(** [max(xs)]: the first largest element; [ValueError] on an empty
    sequence. *)
Definition py_max (xs : list Q) : option Q :=
  match xs with
  | [] => None
  | x :: xs' =>
      Some (fold_left
              (fun best y => if Qle_bool y best then best else y) xs' x)
  end.

(** [x < y] on floats. *)
Definition Qlt_bool (x y : Q) : bool := negb (Qle_bool y x).

(** [l[i:j]] for [0 <= i]. *)
Definition slice {A} (i j : nat) (l : list A) : list A :=
  take (j - i) (drop i l).

(** ** Exon segments and exons (find_elements.py) *)

(** [SegmentBin]: the constructor stores the labels sorted. *)
Record SegmentBin := {
  seg_start : Z;
  seg_stop : Z;
  left_labels : list string;
  right_labels : list string;
  seg_type : option string;
  fpkm_lb : Q;
  fpkm : Q;
  fpkm_ub : Q
}.

Record TranscriptElement := {
  te_start : Z;
  te_stop : Z;
  te_type : string;
  te_fpkm : Q
}.

(** [TranscriptElement.__init__]: [assert stop - start >= 0]. *)
Definition new_TranscriptElement (start stop : Z) (type : string) (fpkm : Q)
  : option TranscriptElement :=
  if 0 <=? stop - start
  then Some {| te_start := start; te_stop := stop;
               te_type := type; te_fpkm := fpkm |}
  else None.

Definition EXON_START_LABELS : list string := ["TSS"; "R_JN"]%string.
Definition EXON_STOP_LABELS : list string := ["TES"; "D_JN"]%string.

(** [label in labels] *)
Definition label_in (label : string) (labels : list string) : bool :=
  existsb (String.eqb label) labels.

(** [determine_exon_type]; [None] is a failed [assert]. *)
Definition determine_exon_type (left_label right_label : string)
  : option string :=
  if String.eqb left_label "TSS" then
    if String.eqb right_label "TES" then Some "SE_GENE"%string
    else if String.eqb right_label "D_JN" then Some "TSS_EXON"%string
         else None
  else if String.eqb right_label "TES" then
    if negb (String.eqb left_label "TES") && String.eqb left_label "R_JN"
    then Some "TES_EXON"%string else None
  else if String.eqb left_label "R_JN" && String.eqb right_label "D_JN"
       then Some "EXON"%string else None.

(** The [for stop_label in stop_segment.right_labels] loop for the run
    [i..j]. *)
Definition exons_of_run (exon_segments : list SegmentBin) (i j : nat)
  (start_segment : SegmentBin) (start_label : string)
  (stop_segment : SegmentBin) : option (list TranscriptElement) :=
  mapM (fun stop_label =>
          fpkm ← py_min (map fpkm (slice i (j + 1) exon_segments));
          type ← determine_exon_type start_label stop_label;
          new_TranscriptElement (seg_start start_segment)
            (seg_stop stop_segment) type fpkm)
       (List.filter (fun l => label_in l EXON_STOP_LABELS)
          (right_labels stop_segment)).

(** The [for j in xrange(i, len(exon_segments))] loop, with its two
    [break]s; [rest] is [exon_segments[j:]]. *)
Fixpoint exons_from (MIN_EXON_FPKM MAX_EXPRESISON_RATIO max_min_ee : Q)
  (exon_segments : list SegmentBin) (i : nat) (start_segment : SegmentBin)
  (start_label : string) (j : nat) (rest : list SegmentBin)
  : option (list TranscriptElement) :=
  match rest with
  | [] => Some []
  | stop_segment :: rest' =>
      if Qlt_bool (fpkm_ub stop_segment) MIN_EXON_FPKM then Some []
      else if Qlt_bool (fpkm_ub stop_segment * MAX_EXPRESISON_RATIO)%Q
                max_min_ee
      then Some []
      else
        here ← exons_of_run exon_segments i j start_segment start_label
                  stop_segment;
        later ← exons_from MIN_EXON_FPKM MAX_EXPRESISON_RATIO max_min_ee
                   exon_segments i start_segment start_label (S j) rest';
        Some (here ++ later)
  end.

(** The [for i in xrange(len(exon_segments))] loop; [rest] is
    [exon_segments[i:]]. *)
Fixpoint exons_starting (MIN_EXON_FPKM MAX_EXPRESISON_RATIO max_min_ee : Q)
  (exon_segments : list SegmentBin) (i : nat) (rest : list SegmentBin)
  : option (list TranscriptElement) :=
  match rest with
  | [] => Some []
  | start_segment :: rest' =>
      here ← mapM (fun start_label =>
                     exons_from MIN_EXON_FPKM MAX_EXPRESISON_RATIO
                       max_min_ee exon_segments i start_segment
                       start_label i rest)
                  (List.filter (fun l => label_in l EXON_START_LABELS)
                     (left_labels start_segment));
      later ← exons_starting MIN_EXON_FPKM MAX_EXPRESISON_RATIO max_min_ee
                 exon_segments (S i) rest';
      Some (concat here ++ later)
  end.

(** [build_exons_from_exon_segments]; the two thresholds come from the
    [config] module. *)
Definition build_exons_from_exon_segments
  (MIN_EXON_FPKM MAX_EXPRESISON_RATIO : Q) (exon_segments : list SegmentBin)
  : option (list TranscriptElement) :=
  max_min_ee ← py_max (map fpkm_lb exon_segments);
  _ ← py_max (map fpkm exon_segments);
  exons_starting MIN_EXON_FPKM MAX_EXPRESISON_RATIO max_min_ee
    exon_segments 0 exon_segments.

(** [e] is an exon assembled from the run of segments [i..j]: it starts
    where segment [i] starts, stops where segment [j] stops, and records
    the smallest [fpkm] of the run. *)
Definition run_exon (exon_segments : list SegmentBin) (i j : nat)
  (e : TranscriptElement) : Prop :=
  exists seg_i seg_j,
    exon_segments !! i = Some seg_i /\ exon_segments !! j = Some seg_j
    /\ (i <= j)%nat
    /\ te_start e = seg_start seg_i /\ te_stop e = seg_stop seg_j
    /\ py_min (map fpkm (slice i (j + 1) exon_segments)) = Some (te_fpkm e).

(** [m] is the smallest [fpkm] among the segments [i] through [j]: no
    segment of the run has less, and one of them has exactly [m]. *)
Definition minimum_of_run (exon_segments : list SegmentBin) (i j : nat)
  (m : Q) : Prop :=
  (forall k seg_k, (i <= k <= j)%nat -> exon_segments !! k = Some seg_k ->
     (m <= fpkm seg_k)%Q)
  /\ exists k seg_k, (i <= k <= j)%nat /\ exon_segments !! k = Some seg_k
       /\ fpkm seg_k = m.

(** ** The splice graph of a gene (find_elements.py,
       [find_exon_segments_and_introns_in_gene]) *)

(** [xrange(a, b)] *)
Definition xrange (a b : Z) : list Z := seqZ a (b - a).

(** [sorted(s)] for a set of integers. *)
Definition sorted_elements (s : gset Z) : list Z :=
  merge_sort Z.le (elements s).

(** [segment_bnds]: the gene's two boundaries, [start] and [stop+1] of
    every junction, and one boundary per TSS and TES region, sorted. *)
Definition segment_bnds (gene_strand : string) (gene_start gene_stop : Z)
  (jns tss_regions tes_regions : list interval) : list Z :=
  let bnds : gset Z := {[gene_start; gene_stop + 1]} in
  let bnds :=
    fold_left (fun bnds '(start, stop) => bnds ∪ {[start]} ∪ {[stop + 1]})
      jns bnds in
  let bnds :=
    fold_left
      (fun bnds '(bin_start, bin_stop) =>
         let tss_start :=
           if String.eqb gene_strand "+" then bin_start else bin_stop + 1
         in bnds ∪ {[tss_start]})
      tss_regions bnds in
  let bnds :=
    fold_left
      (fun bnds '(bin_start, bin_stop) =>
         let tes_start :=
           if String.eqb gene_strand "+" then bin_stop + 1 else bin_start
         in bnds ∪ {[tes_start]})
      tes_regions bnds in
  sorted_elements bnds.

(** [a.searchsorted(v)] (side [left]) on a sorted array: the number of
    leading entries smaller than [v]. *)
Fixpoint searchsorted (a : list Z) (v : Z) : Z :=
  match a with
  | [] => 0
  | x :: a' => if x <? v then 1 + searchsorted a' v else 0
  end.

(** [networkx.DiGraph]: adding an edge also adds its end points. *)
Record DiGraph := { nodes : gset Z; edges : gset (Z * Z) }.

Definition nx_DiGraph : DiGraph := {| nodes := ∅; edges := ∅ |}.

Definition add_nodes_from (g : DiGraph) (ns : list Z) : DiGraph :=
  {| nodes := nodes g ∪ list_to_set ns; edges := edges g |}.

Definition add_edge (g : DiGraph) (u v : Z) : DiGraph :=
  {| nodes := nodes g ∪ {[u; v]}; edges := edges g ∪ {[(u, v)]} |}.

Definition add_edges_from (g : DiGraph) (es : list (Z * Z)) : DiGraph :=
  fold_left (fun g '(u, v) => add_edge g u v) es g.

(** The connectivity graph over the segments cut out by [segment_bnds]. *)
Definition build_splice_graph (segment_bnds : list Z) (jns : list interval)
  : DiGraph :=
  let len := Z.of_nat (length segment_bnds) in
  let splice_graph := nx_DiGraph in
  let splice_graph := add_nodes_from splice_graph (xrange 0 (len - 1)) in
  let splice_graph :=
    add_edges_from splice_graph
      (zip (xrange 0 (len - 1 - 1)) (xrange 1 (len - 1))) in
  fold_left
    (fun g '(start, stop) =>
       let start_i := searchsorted segment_bnds start - 1 in
       let stop_i := searchsorted segment_bnds (stop + 1) - 1 + 1 in
       add_edge g start_i stop_i)
    jns splice_graph.

(** Segment [i]: [segment_bnds[i], segment_bnds[i+1]-1]. *)
Definition segment (segment_bnds : list Z) (i : Z) : option interval :=
  if 0 <=? i then
    start ← segment_bnds !! Z.to_nat i;
    next ← segment_bnds !! Z.to_nat (i + 1);
    Some (start, next - 1)
  else None.

(** The default edge from a segment to its immediate successor, among [n]
    segments. *)
Definition adjacency_edge (n a b : Z) : Prop :=
  0 <= a /\ b = a + 1 /\ b < n.

(** An edge for some junction [(start, stop)]: from the segment that ends
    where the junction starts to the segment that begins at [stop + 1]. *)
Definition junction_edge (segment_bnds : list Z) (jns : list interval)
  (a b : Z) : Prop :=
  exists start stop seg_a seg_b,
    (start, stop) ∈ jns
    /\ segment segment_bnds a = Some seg_a /\ snd seg_a + 1 = start
    /\ segment segment_bnds b = Some seg_b /\ fst seg_b = stop + 1.

(** ** Transcripts and genes *)

(** The [Transcript] and [Gene] classes live in modules that are not part
    of these sources; the records below carry the attributes the code under
    study reads and writes. *)
Record Transcript := {
  trans_id : string;
  t_chrm : string;
  t_strand : string;
  exons : list interval;
  cds_region : option interval;
  t_gene_id : string;
  score : option Z;
  t_start : Z;
  t_stop : Z
}.

Record Gene := {
  gene_id : string;
  chrm : string;
  g_strand : string;
  g_min : Z;
  g_max : Z;
  transcripts : list Transcript
}.

(** [transcript.score = s] *)
Definition set_score (t : Transcript) (s : Z) : Transcript :=
  {| trans_id := trans_id t; t_chrm := t_chrm t; t_strand := t_strand t;
     exons := exons t; cds_region := cds_region t; t_gene_id := t_gene_id t;
     score := Some s; t_start := t_start t; t_stop := t_stop t |}.

(** The constructor. The class itself is not in these sources: [start]
    and [stop] are taken to be the start of the first exon and the stop of
    the last one. *)
Definition new_Transcript (id chrm strand : string) (exons : list interval)
  (cds_region : option interval) (gene_id : string) (score : option Z)
  : Transcript :=
  {| trans_id := id; t_chrm := chrm; t_strand := strand; exons := exons;
     cds_region := cds_region; t_gene_id := gene_id; score := score;
     t_start := default 0 (fst <$> head exons);
     t_stop := default 0 (snd <$> last exons) |}.

(** ** Floats read as rationals *)

(** [x / y]; no finite value when [y] is zero. *)
Definition fdiv (x y : Q) : option Q :=
  if Qeq_bool y 0 then None else Some (x / y)%Q.


(** [int(x)]: truncation toward zero. *)
Definition py_int (x : Q) : Z := Z.quot (Qnum x) (Z.pos (Qden x)).


(** ** Doubles *)

(** The conversion of a Python integer to a float, which [z * x] and
    [z / x] apply to [z] when [x] is a float: the nearest double, ties to
    even (integers beyond the largest double, for which Python raises
    [OverflowError], become infinities). *)
Definition float_of_Z (z : Z) : float :=
  SF2Prim (binary_normalize prec emax z 0 false).

(** The rational a finite double denotes. *)
Definition exact (x : float) : option Q :=
  match Prim2SF x with
  | S754_zero _ => Some 0%Q
  | S754_finite s m e =>
      let v := if 0 <=? e then inject_Z (Z.pos m * 2 ^ e)
               else (Z.pos m # Pos.shiftl 1 (Z.to_N (- e)))%Q in
      Some (if s then (- v)%Q else v)
  | _ => None
  end.


(** ** [calc_fpkm] (build_transcripts.py) *)

(** [sum(e[1] - e[0] + 1 for e in t.exons)] *)
Definition t_len (t : Transcript) : Z :=
  fold_left (fun acc e => acc + (snd e - fst e + 1)) (exons t) 0.

(** [calc_fpkm]; [beta_ppf q a b] stands for [scipy.stats.beta.ppf(q, a, b)]
    and [bound_alpha] defaults to 0.5 in the source. The read count of the
    gene is the sum of a numpy array, a float; the number of reads in the
    file is an integer. The quantile is a [numpy.float64], so that every
    product and quotient below is one of doubles and a division by zero
    gives an infinity or a NaN instead of raising. The fragment-length
    argument is not used by the function. *)
Definition calc_fpkm (beta_ppf : float -> float -> float -> float)
  (gene : Gene) (freqs : list float) (num_reads_in_bam : Z)
  (num_reads_in_gene : float) (bound_alpha : float) : list float :=
  let corrected_num_reads_in_gene :=
    (float_of_Z num_reads_in_bam
     * beta_ppf bound_alpha (num_reads_in_gene + 1)
         (float_of_Z (num_reads_in_bam + 1)))%float in
  fold_left
    (fun fpkms '(t, freq) =>
       let num_reads_in_t := (corrected_num_reads_in_gene * freq)%float in
       let fpk := (num_reads_in_t / (float_of_Z (t_len t) / 1000))%float in
       let fpkm := (fpk / (float_of_Z num_reads_in_bam / 1000000))%float in
       fpkms ++ [fpkm])
    (zip (transcripts gene) freqs) [].

(** The value the specification gives for one transcript,
    [1e6 * f / (L / 1000)] with [f = beta.ppf(bound_alpha, n+1, N+1) * freq],
    computed in doubles as it is written ... *)
Definition fpkm_formula (beta_ppf : float -> float -> float -> float)
  (bound_alpha n : float) (N : Z) (freq : float) (L : Z) : float :=
  let f := (beta_ppf bound_alpha (n + 1) (float_of_Z (N + 1)) * freq)%float in
  (1000000 * f / (float_of_Z L / 1000))%float.


(** ** [write_gene_to_gtf] (build_transcripts.py) *)

(** What is handed to [transcript.build_gtf_lines] for one written
    transcript: the transcript, with its score assigned, and the
    [meta_data] entries (each value is rendered with ["%.2e"]). *)
Record gtf_record := {
  rec_transcript : Transcript;
  meta_data : list (string * Q)
}.

(** [max(1, min(1000, int(1000. * ub / (1e-8 + max(lbs)))))] *)
Definition gtf_score (ub : Q) (lbs : list Q) : option Z :=
  max_lb ← py_max lbs;
  ratio ← fdiv (1000 * ub)%Q ((1 # 100000000) + max_lb)%Q;
  Some (Z.max 1 (Z.min 1000 (py_int ratio))).


(** One optional [meta_data] entry: [xs[k]] under [key] when the list is
    supplied; [None] is the [IndexError]. *)
Definition meta_entry (key : string) (xs : option (list Q)) (k : nat)
  : option (list (string * Q)) :=
  match xs with
  | None => Some []
  | Some xs => x ← xs !! k; Some [(key, x)]
  end.

(** The body of the loop for a transcript that is not skipped; [k] is
    [index - n_skipped_ts]. *)
Definition gtf_record_for (mles lbs ubs fpkms : option (list Q))
  (transcript : Transcript) (k : nat) : option gtf_record :=
  frac ← meta_entry "frac" mles k;
  conf_lo ← meta_entry "conf_lo" lbs k;
  conf_hi ← meta_entry "conf_hi" ubs k;
  FPKM ← meta_entry "FPKM" fpkms k;
  transcript ←
    match lbs, ubs with
    | Some lbs, Some ubs =>
        ub ← ubs !! k; s ← gtf_score ub lbs; Some (set_score transcript s)
    | _, _ => Some transcript
    end;
  Some {| rec_transcript := transcript;
          meta_data := frac ++ conf_lo ++ conf_hi ++ FPKM |}.

(** [for index, transcript in enumerate(gene.transcripts)], skipping the
    unobservable indices; [ts] is [gene.transcripts[index:]]. *)
Fixpoint observable_loop {A} (body : Transcript -> nat -> option A)
  (unobservable_transcripts : gset nat) (index n_skipped_ts : nat)
  (ts : list Transcript) : option (list A) :=
  match ts with
  | [] => Some []
  | transcript :: ts' =>
      if decide (index ∈ unobservable_transcripts)
      then observable_loop body unobservable_transcripts
             (S index) (S n_skipped_ts) ts'
      else
        here ← body transcript (index - n_skipped_ts)%nat;
        later ← observable_loop body unobservable_transcripts
                   (S index) n_skipped_ts ts';
        Some (here :: later)
  end.

(** [write_gene_to_gtf]: the records written, in order; [None] is an
    exception (the [assert], an [IndexError], [max] of an empty list). *)
Definition write_gene_to_gtf (gene : Gene) (mles lbs ubs fpkms : option (list Q))
  (unobservable_transcripts : gset nat) : option (list gtf_record) :=
  let ok :=
    match mles with
    | Some mles =>
        bool_decide (length (transcripts gene)
                     = (length mles + size unobservable_transcripts)%nat)
    | None => true
    end in
  if ok
  then observable_loop (gtf_record_for mles lbs ubs fpkms)
         unobservable_transcripts 0 0 (transcripts gene)
  else None.

(** The transcripts that are written: those of [gene.transcripts[index:]]
    whose index is not flagged. *)
Fixpoint retained_from (unobservable_transcripts : gset nat) (index : nat)
  (ts : list Transcript) : list Transcript :=
  match ts with
  | [] => []
  | transcript :: ts' =>
      if decide (index ∈ unobservable_transcripts)
      then retained_from unobservable_transcripts (S index) ts'
      else transcript :: retained_from unobservable_transcripts (S index) ts'
  end.

Definition observable_transcripts (unobservable_transcripts : gset nat)
  (ts : list Transcript) : list Transcript :=
  retained_from unobservable_transcripts 0 ts.

(** ** [write_gene_to_fpkm_tracking] (build_transcripts.py) *)

Definition tab : string := String "009"%char "".
Definition newline : string := String "010"%char "".

(** [str(z)] and ["%i" % z] for an integer. *)
Definition str_int (z : Z) : string := NilZero.string_of_int (Z.to_int z).

(** The header written by [parse_arguments]. *)
Definition tracking_columns : list string :=
  [ "tracking_id"; "class_code"; "nearest_ref_id"; "gene_id";
    "gene_short_name"; "tss_id"; "locus"; "length"; "coverageFPKM";
    "FPKM_conf_lo"; "FPKM_conf_hi"; "FPKM_status" ]%string.

Definition tracking_header : string :=
  (String.concat tab tracking_columns ++ newline)%string.

(** [line[i] = "%.2e" % xs[k]] when [xs] is supplied; [None] is the
    [IndexError]. *)
Definition set_formatted (fmt_2e : Q -> string) (i : nat)
  (xs : option (list Q)) (k : nat) (line : list string)
  : option (list string) :=
  match xs with
  | None => Some line
  | Some xs => x ← xs !! k; Some (<[i := fmt_2e x]> line)
  end.

(** The fields of the line for one retained transcript; [k] is
    [index - n_skipped_ts]. [fmt_2e] renders ["%.2e"], and [calc_length]
    is the transcript's method of that name. *)
Definition tracking_line_for (fmt_2e : Q -> string)
  (calc_length : Transcript -> Z) (gene : Gene)
  (lbs ubs fpkms : option (list Q)) (transcript : Transcript) (k : nat)
  : option (list string) :=
  let line := replicate 12 "-"%string in
  let line := <[0%nat := gene_id gene]> line in
  let line := <[5%nat := trans_id transcript]> line in
  let line :=
    <[6%nat := (chrm gene ++ ":" ++ str_int (t_start transcript) ++ "-"
                ++ str_int (t_stop transcript))%string]> line in
  let line := <[7%nat := str_int (calc_length transcript)]> line in
  let line := <[11%nat := "OK"%string]> line in
  line ← set_formatted fmt_2e 8 fpkms k line;
  line ← set_formatted fmt_2e 9 lbs k line;
  set_formatted fmt_2e 10 ubs k line.

(** The lines collected by the loop, as lists of fields. *)
Definition tracking_lines (fmt_2e : Q -> string)
  (calc_length : Transcript -> Z) (gene : Gene)
  (lbs ubs fpkms : option (list Q)) (unobservable_transcripts : gset nat)
  : option (list (list string)) :=
  observable_loop (tracking_line_for fmt_2e calc_length gene lbs ubs fpkms)
    unobservable_transcripts 0 0 (transcripts gene).

(** [write_gene_to_fpkm_tracking]: the text written to the file. *)
Definition write_gene_to_fpkm_tracking (fmt_2e : Q -> string)
  (calc_length : Transcript -> Z) (gene : Gene)
  (lbs ubs fpkms : option (list Q)) (unobservable_transcripts : gset nat)
  : option string :=
  lines ← tracking_lines fmt_2e calc_length gene lbs ubs fpkms
             unobservable_transcripts;
  Some (String.concat newline (map (String.concat tab) lines)
        ++ newline)%string.

(** The field of a line that sits under the header column [name]. *)
Definition cell_under (name : string) (line : list string) : option string :=
  i ← list_find (String.eqb name) tracking_columns;
  line !! (fst i).

(** ** Building [Gene] objects *)

(** [min(xs)] and [max(xs)] on integers; [ValueError] on an empty
    sequence. *)
Definition min_Z (xs : list Z) : option Z :=
  match xs with
  | [] => None
  | x :: xs' => Some (fold_left Z.min xs' x)
  end.




(** The structures filled in by the C parser (fast_gtf_parser/gtf.py). *)
Record c_exon_t := { c_start : Z; c_stop : Z }.

Record c_transcript_t := {
  c_trans_id : string;
  cds_start : Z;
  cds_stop : Z;
  c_exons : list c_exon_t;
  c_score : Z
}.

Record c_gene_t := {
  c_gene_id : string;
  c_chrm : string;
  c_strand : string;
  min_loc : Z;
  max_loc : Z;
  c_transcripts : list c_transcript_t
}.

(** [flatten(exons)]: the exon boundaries in one list. *)
Definition exon_bnds (t : Transcript) : list Z :=
  flat_map (fun e => [fst e; snd e]) (exons t).

(** The body of the inner loop of [load_gtf]; [None] is the failed
    [assert] on the CDS bounds. *)
Definition load_transcript (chrm strand gene_id : string)
  (ct : c_transcript_t) : option Transcript :=
  let score := if c_score ct =? -1 then None else Some (c_score ct) in
  cds_region ←
    (if (cds_start ct =? -1) || (cds_stop ct =? -1)
     then if (cds_start ct =? -1) && (cds_stop ct =? -1)
          then Some None else None
     else Some (Some (cds_start ct, cds_stop ct)));
  let exons := map (fun x => (c_start x, c_stop x)) (c_exons ct) in
  Some (new_Transcript (c_trans_id ct) chrm strand exons cds_region
          gene_id score).

(** The body of the outer loop of [load_gtf] for one parsed gene: the
    minimum is recomputed from the exon boundaries, the maximum is the
    parser's [max_loc]. *)
Definition load_gene (g : c_gene_t) : option Gene :=
  let chrm :=
    if String.prefix "chr" (c_chrm g)
    then String.substring 3 (String.length (c_chrm g) - 3) (c_chrm g)
    else c_chrm g in
  transcripts ← mapM (load_transcript chrm (c_strand g) (c_gene_id g))
                  (c_transcripts g);
  mins ← mapM (fun t => min_Z (exon_bnds t)) transcripts;
  min_loc ← min_Z mins;
  Some {| gene_id := c_gene_id g; chrm := chrm; g_strand := c_strand g;
          g_min := min_loc; g_max := max_loc g;
          transcripts := transcripts |}.






(** ** The gene-expression worker (build_transcripts.py) *)

(** Exceptions. [SystemExit] and [KeyboardInterrupt] derive from
    [BaseException] only; the others, and those [OtherError] stands for
    ([TypeError], [IndexError], [AssertionError], [IOError], ...), from
    [Exception]. *)
Inductive exn :=
| ValueError (msg : string)
| MemoryError (msg : string)
| SystemError (msg : string)
| KeyError (msg : string)
| OtherError (msg : string)
| SystemExit (msg : string)
| KeyboardInterrupt (msg : string).

(** [isinstance(e, Exception)]: what [except Exception] catches. *)
Definition is_Exception (e : exn) : bool :=
  match e with
  | SystemExit _ | KeyboardInterrupt _ => false
  | _ => true
  end.

(** [str(inst)] *)
Definition exn_msg (e : exn) : string :=
  match e with
  | ValueError m | MemoryError m | SystemError m | KeyError m
  | OtherError m | SystemExit m | KeyboardInterrupt m => m
  end.

(** The third component of a work unit: [None], one index, or a list of
    indices. *)
Inductive trans_index_t :=
| NoIndex
| OneIndex (i : nat)
| Indices (l : list nat).

(** The payload of a work unit: [(gene_id, sample_id, trans_index)], or
    [((gene_id, trans_index), msg)] for an ['ERROR'] unit. *)
Inductive work_data :=
| Task (gene_id : Z) (trans_index : trans_index_t)
| Failure (gene_id : Z) (trans_index : trans_index_t) (msg : string).

(** A work unit: [(work_type, work_data)]. *)
Definition work : Type := string * work_data.

(** What the shared result store holds under a key [(gene_id, field)]. *)
Inductive value :=
| VNone
| VData (name : string)
| VGene (gene : Gene)
| VDesign (observed_sum : float) (n_transcripts : nat)
| VFreqs (xs : list float)
| VBounds (bnds : gmap nat float)
| VFpkms (xs : list float)
| VNones (n : nat).

(** The objects shared between the scheduler and the workers: the work
    queue, the result store, and the two locks (held or free). *)
Record shared := {
  input_queue : list work;
  output : gmap (Z * string) value;
  op_lock : bool;
  input_queue_lock : bool
}.

(** How a call ends: it returns, it raises, or it never returns because
    it waits for a lock that nobody will release. *)
Inductive outcome (A : Type) :=
| Returned (a : A)
| Raised (e : exn)
| Blocked.
Arguments Returned {A} a.
Arguments Raised {A} e.
Arguments Blocked {A}.

(** Code that runs on the shared objects. *)
Definition M (A : Type) : Type := shared -> outcome A * shared.

Definition ret {A} (a : A) : M A := fun s => (Returned a, s).

Definition bind {A B} (m : M A) (k : A -> M B) : M B :=
  fun s =>
    match m s with
    | (Returned a, s') => k a s'
    | (Raised e, s') => (Raised e, s')
    | (Blocked, s') => (Blocked, s')
    end.

#[global] Instance M_ret : MRet M := @ret.
#[global] Instance M_bind : MBind M := fun A B k m => bind m k.

(** [raise e] *)
Definition raise {A} (e : exn) : M A := fun s => (Raised e, s).

(** [try: m except ...]: the exception that [m] raises, if any, as a
    value; the handler that follows re-raises what its [except] clause
    does not name. *)
Definition attempt {A} (m : M A) : M (exn + A) :=
  fun s =>
    match m s with
    | (Returned a, s') => (Returned (inr a), s')
    | (Raised e, s') => (Returned (inl e), s')
    | (Blocked, s') => (Blocked, s')
    end.

(** The result of an external computation. *)
Definition call {A} (r : exn + A) : M A :=
  match r with inl e => raise e | inr a => ret a end.

Definition set_op_lock (b : bool) (s : shared) : shared :=
  {| input_queue := input_queue s; output := output s;
     op_lock := b; input_queue_lock := input_queue_lock s |}.

Definition set_input_queue_lock (b : bool) (s : shared) : shared :=
  {| input_queue := input_queue s; output := output s;
     op_lock := op_lock s; input_queue_lock := b |}.

(** [lock.acquire()]: waits while the lock is held. *)
Definition op_lock_acquire : M unit :=
  fun s => if op_lock s then (Blocked, s)
           else (Returned tt, set_op_lock true s).

(** [lock.release()]: releasing a free lock is an error. *)
Definition op_lock_release : M unit :=
  fun s => if op_lock s then (Returned tt, set_op_lock false s)
           else (Raised (ValueError "semaphore or lock released too many times"), s).

Definition input_queue_lock_acquire : M unit :=
  fun s => if input_queue_lock s then (Blocked, s)
           else (Returned tt, set_input_queue_lock true s).

Definition input_queue_lock_release : M unit :=
  fun s => if input_queue_lock s
           then (Returned tt, set_input_queue_lock false s)
           else (Raised (ValueError "semaphore or lock released too many times"), s).

(** [input_queue.append(w)]. The queue is a proxy to a list that the
    manager process keeps; [queue_fault] tells which appends fail, and
    how. *)
Definition queue_append (queue_fault : work -> option exn) (w : work)
  : M unit :=
  fun s => match queue_fault w with
           | Some e => (Raised e, s)
           | None =>
               (Returned tt,
                {| input_queue := input_queue s ++ [w]; output := output s;
                   op_lock := op_lock s;
                   input_queue_lock := input_queue_lock s |})
           end.

(** [output[(gene_id, field)]]: [KeyError] when the key is absent. *)
Definition store_get (gene_id : Z) (field : string) : M value :=
  fun s => match output s !! (gene_id, field) with
           | Some v => (Returned v, s)
           | None => (Raised (KeyError field), s)
           end.

(** [output[(gene_id, field)] = v]. The store is a proxy to another
    process; [store_fault] tells which writes fail, and how. *)
Definition store_set (store_fault : Z * string -> option exn)
  (gene_id : Z) (field : string) (v : value) : M unit :=
  fun s => match store_fault (gene_id, field) with
           | Some e => (Raised e, s)
           | None =>
               (Returned tt,
                {| input_queue := input_queue s;
                   output := <[(gene_id, field) := v]> (output s);
                   op_lock := op_lock s;
                   input_queue_lock := input_queue_lock s |})
           end.

(** What the worker uses from outside the function: module globals, and
    the computations of other modules, each given by its result (a value
    or the exception it raises). *)
Record externals := {
  ONLY_BUILD_CANDIDATE_TRANSCRIPTS : bool;
  NUMBER_OF_READS_IN_BAM : Z;
  beta_ppf : float -> float -> float -> float;
  pid : Z;
  store_fault : Z * string -> option exn;
  queue_fault : work -> option exn;
  (** [build_transcripts], the [Transcript] and [Gene] constructors and
      [find_cds_for_gene], for the gene with this identifier *)
  assemble_gene : Z -> exn + Gene;
  (** opening the read files named in the store *)
  open_reads : Z -> exn + unit;
  build_design_matrices : Gene -> exn + (float * nat);
  estimate_transcript_frequencies : Z -> exn + list float;
  calc_lhd : Z -> exn + unit;
  estimate_confidence_bound : Z -> string -> nat -> exn + float;
  format_exc : exn -> string
}.

(** ["%i: Skipping %s: %s" % (os.getpid(), gene_id, inst)] *)
Definition skipping_msg (ext : externals) (gene_id : Z) (inst : exn)
  : string :=
  (str_int (pid ext) ++ ": Skipping " ++ str_int gene_id ++ ": "
   ++ exn_msg inst)%string.

(** Appending an ['ERROR'] unit under the queue lock. *)
Definition report_error (queue_fault : work -> option exn) (gene_id : Z)
  (trans_index : trans_index_t) (msg : string) : M unit :=
  input_queue_lock_acquire;;
  queue_append queue_fault
    ("ERROR"%string, Failure gene_id trans_index msg);;
  input_queue_lock_release.

(** Appending one unit under the queue lock. *)
Definition enqueue (queue_fault : work -> option exn) (work_type : string)
  (gene_id : Z) (trans_index : trans_index_t) : M unit :=
  input_queue_lock_acquire;;
  queue_append queue_fault (work_type, Task gene_id trans_index);;
  input_queue_lock_release.

Definition as_gene (v : value) : M Gene :=
  match v with VGene g => ret g | _ => raise (OtherError "TypeError") end.

Definition as_design (v : value) : M (float * nat) :=
  match v with
  | VDesign observed_sum n => ret (observed_sum, n)
  | _ => raise (OtherError "TypeError")
  end.

Definition as_freqs (v : value) : M (list float) :=
  match v with VFreqs xs => ret xs | _ => raise (OtherError "TypeError") end.

Definition as_bounds (v : value) : M (gmap nat float) :=
  match v with VBounds m => ret m | _ => raise (OtherError "TypeError") end.

(** [for x in xs: body(x)] *)
Fixpoint for_each {A} (xs : list A) (body : A -> M unit) : M unit :=
  match xs with
  | [] => ret tt
  | x :: xs' => body x;; for_each xs' body
  end.

(** [[f(x) for x in xs]] *)
Fixpoint collect {A B} (xs : list A) (f : A -> M B) : M (list B) :=
  match xs with
  | [] => ret []
  | x :: xs' => y ← f x; ys ← collect xs' f; ret (y :: ys)
  end.

(** The indices [0 .. n-1] in groups of [NUM_TRANS_IN_GRP = 50]. *)
Definition grouped_indices (n : nat) : list (list nat) :=
  fold_left
    (fun groups i =>
       let groups := if (i mod 50 =? 0)%nat then groups ++ [[]] else groups in
       match reverse groups with
       | [] => []
       | g :: before => reverse ((g ++ [i]) :: before)
       end)
    (seq 0 n) [].

(** The ['gene'] stage. *)
Definition gene_stage (ext : externals) (gene_id : Z) : M unit :=
  op_lock_acquire;;
  _ ← store_get gene_id "contig";
  _ ← store_get gene_id "strand";
  _ ← store_get gene_id "tss_exons";
  _ ← store_get gene_id "internal_exons";
  _ ← store_get gene_id "tes_exons";
  _ ← store_get gene_id "se_transcripts";
  _ ← store_get gene_id "introns";
  _ ← store_get gene_id "promoters";
  _ ← store_get gene_id "polyas";
  _ ← store_get gene_id "fasta_fn";
  op_lock_release;;
  gene ← call (assemble_gene ext gene_id);
  op_lock_acquire;;
  store_set (store_fault ext) gene_id "gene" (VGene gene);;
  op_lock_release;;
  if ONLY_BUILD_CANDIDATE_TRANSCRIPTS ext
  then queue_append (queue_fault ext)
         ("FINISHED"%string, Task gene_id NoIndex)
  else if (0 <? length (transcripts gene))%nat
       then enqueue (queue_fault ext) "design_matrices" gene_id NoIndex
       else ret tt.

(** The ['design_matrices'] stage. *)
Definition design_matrices_stage (ext : externals) (gene_id : Z)
  (trans_index : trans_index_t) : M unit :=
  op_lock_acquire;;
  gene ← store_get gene_id "gene";
  _ ← store_get gene_id "fl_dists";
  _ ← store_get gene_id "promoter_reads";
  _ ← store_get gene_id "rnaseq_reads";
  _ ← store_get gene_id "polya_reads";
  op_lock_release;;
  call (open_reads ext gene_id);;
  gene ← as_gene gene;
  built ← attempt (call (build_design_matrices ext gene));
  match built with
  | inl (ValueError _ as inst) | inl (MemoryError _ as inst) =>
      report_error (queue_fault ext) gene_id trans_index
        (skipping_msg ext gene_id inst)
  | inl inst => raise inst
  | inr (observed_sum, n) =>
      op_lock_acquire;;
      written ← attempt (store_set (store_fault ext) gene_id
                             "design_matrices" (VDesign observed_sum n));
      match written with
      | inl (SystemError _ as inst) =>
          op_lock_release;;
          report_error (queue_fault ext) gene_id trans_index
            ("SYSTEM ERROR: " ++ skipping_msg ext gene_id inst)%string
      | inl inst => raise inst
      | inr _ =>
          op_lock_release;;
          enqueue (queue_fault ext) "mle" gene_id NoIndex
      end
  end.

(** The ['mle'] stage. *)
Definition mle_stage (ext : externals) (gene_id : Z)
  (trans_index : trans_index_t) (estimate_confidence_bounds : bool)
  : M unit :=
  op_lock_acquire;;
  design ← store_get gene_id "design_matrices";
  '(observed_sum, n) ← as_design design;
  gene ← store_get gene_id "gene";
  _ ← store_get gene_id "fl_dists";
  _ ← store_get gene_id "promoter_reads";
  _ ← store_get gene_id "rnaseq_reads";
  op_lock_release;;
  call (open_reads ext gene_id);;
  estimated ←
    attempt (mle ← call (estimate_transcript_frequencies ext gene_id);
             gene ← as_gene gene;
             ret (mle, calc_fpkm (beta_ppf ext) gene mle
                         (NUMBER_OF_READS_IN_BAM ext) observed_sum 0.5));
  match estimated with
  | inl (ValueError _ as inst) =>
      report_error (queue_fault ext) gene_id trans_index
        ("Skipping " ++ str_int gene_id ++ ": " ++ exn_msg inst)%string
  | inl inst => raise inst
  | inr (mle, fpkms) =>
      call (calc_lhd ext gene_id);;
      op_lock_acquire;;
      store_set (store_fault ext) gene_id "mle" (VFreqs mle);;
      store_set (store_fault ext) gene_id "fpkm" (VFpkms fpkms);;
      op_lock_release;;
      if estimate_confidence_bounds then
        op_lock_acquire;;
        store_set (store_fault ext) gene_id "ub" (VNones (length mle));;
        store_set (store_fault ext) gene_id "lb" (VNones (length mle));;
        op_lock_release;;
        input_queue_lock_acquire;;
        for_each (grouped_indices n)
          (fun indices =>
             queue_append (queue_fault ext)
               ("lb"%string, Task gene_id (Indices indices));;
             queue_append (queue_fault ext)
               ("ub"%string, Task gene_id (Indices indices)));;
        input_queue_lock_release
      else enqueue (queue_fault ext) "FINISHED" gene_id NoIndex
  end.

(** The ['lb'] and ['ub'] stages; [cb_alpha] defaults to 0.1. Both
    their loops rebind [trans_index], which the handler of the worker
    reports: each part of the stage below is paired with the value that
    variable has when the part raises. *)

(** Up to the first loop: [trans_index] is still the one of the unit. *)
Definition bound_prologue (gene_id : Z) (trans_index : trans_index_t)
  : M (float * list nat) :=
  op_lock_acquire;;
  design ← store_get gene_id "design_matrices";
  '(observed_sum, _) ← as_design design;
  _ ← store_get gene_id "mle";
  op_lock_release;;
  trans_indices ←
    match trans_index with
    | OneIndex i => ret [i]
    | Indices l => ret l
    | NoIndex => raise (OtherError "AssertionError")
    end;
  (if decide (trans_indices = [])
   then raise (OtherError "IndexError") else ret tt);;
  ret (observed_sum, trans_indices).

(** [for trans_index in trans_indices: ... res.append((trans_index, bnd))]:
    the pairs collected, or the exception together with the index at
    which it is raised. *)
Fixpoint estimate_bounds (ext : externals) (gene_id : Z) (bnd_type : string)
  (trans_indices : list nat) : M (exn * nat + list (nat * float)) :=
  match trans_indices with
  | [] => ret (inr [])
  | trans_index :: rest =>
      estimated ← attempt (call (estimate_confidence_bound ext gene_id
                                    bnd_type trans_index));
      match estimated with
      | inl inst => ret (inl (inst, trans_index))
      | inr bnd =>
          later ← estimate_bounds ext gene_id bnd_type rest;
          ret (match later with
               | inl failure => inl failure
               | inr res => inr ((trans_index, bnd) :: res)
               end)
      end
  end.

(** [for trans_index, bnd in res: bnds[trans_index] = bnd]: item
    assignment is a [TypeError] unless [bnds] is a dictionary. *)
Fixpoint set_bounds (bnds : value) (res : list (nat * float))
  : exn * nat + value :=
  match res with
  | [] => inr bnds
  | (trans_index, bnd) :: rest =>
      match bnds with
      | VBounds m => set_bounds (VBounds (<[trans_index := bnd]> m)) rest
      | _ => inl (OtherError "TypeError", trans_index)
      end
  end.

(** After the second loop: [trans_index] is the last index. *)
Definition bound_epilogue (ext : externals) (work_type : string)
  (gene_id : Z) (observed_sum : float) (bnds : value) (cb_alpha : float)
  : M unit :=
  store_set (store_fault ext) gene_id (work_type ++ "s") bnds;;
  ubs ← store_get gene_id "ubs"; ubs ← as_bounds ubs;
  lbs ← store_get gene_id "lbs"; lbs ← as_bounds lbs;
  mle ← store_get gene_id "mle"; mle ← as_freqs mle;
  (if decide (size ubs = size lbs /\ size lbs = length mle) then
     gene ← store_get gene_id "gene"; gene ← as_gene gene;
     _ ← store_get gene_id "fl_dists";
     let lookup_all (m : gmap nat float) :=
       collect (seq 0 (length mle))
         (fun i => match m !! i with
                   | Some x => ret x
                   | None => raise (KeyError (str_int (Z.of_nat i)))
                   end) in
     ub_list ← lookup_all ubs;
     store_set (store_fault ext) gene_id "ubs"
       (VFpkms (calc_fpkm (beta_ppf ext) gene ub_list
                  (NUMBER_OF_READS_IN_BAM ext) observed_sum
                  (1 - cb_alpha)%float));;
     lb_list ← lookup_all lbs;
     store_set (store_fault ext) gene_id "lbs"
       (VFpkms (calc_fpkm (beta_ppf ext) gene lb_list
                  (NUMBER_OF_READS_IN_BAM ext) observed_sum cb_alpha));;
     enqueue (queue_fault ext) "FINISHED" gene_id NoIndex
   else ret tt);;
  op_lock_release.

(** The stage: [None] when it completes, otherwise the exception and
    the value of [trans_index] at that point. *)
Definition bound_stage (ext : externals) (work_type : string) (gene_id : Z)
  (trans_index : trans_index_t) (cb_alpha : float)
  : M (option (exn * trans_index_t)) :=
  started ← attempt (bound_prologue gene_id trans_index);
  match started with
  | inl inst => ret (Some (inst, trans_index))
  | inr (observed_sum, trans_indices) =>
      let bnd_type := if String.eqb work_type "lb" then "LOWER" else "UPPER" in
      estimated ← estimate_bounds ext gene_id bnd_type trans_indices;
      match estimated with
      | inl (inst, i) => ret (Some (inst, OneIndex i))
      | inr res =>
          let last_index := OneIndex (List.last trans_indices 0%nat) in
          fetched ← attempt (op_lock_acquire;;
                             store_get gene_id (work_type ++ "s"));
          match fetched with
          | inl inst => ret (Some (inst, last_index))
          | inr bnds =>
              match set_bounds bnds res with
              | inl (inst, i) => ret (Some (inst, OneIndex i))
              | inr bnds =>
                  finished ← attempt (bound_epilogue ext work_type gene_id
                                        observed_sum bnds cb_alpha);
                  match finished with
                  | inl inst => ret (Some (inst, last_index))
                  | inr _ => ret None
                  end
              end
          end
      end
  end.

(** The [try] block: [None] when it completes, otherwise the exception
    it raises and the value [trans_index] has at that point, which only
    the ['lb'] and ['ub'] stages change. *)
Definition try_block (ext : externals) (work_type : string) (gene_id : Z)
  (trans_index : trans_index_t) (estimate_confidence_bounds : bool)
  (cb_alpha : float) : M (option (exn * trans_index_t)) :=
  let plain (stage : M unit) : M (option (exn * trans_index_t)) :=
    caught ← attempt stage;
    ret (match caught with
         | inl inst => Some (inst, trans_index)
         | inr _ => None
         end) in
  if String.eqb work_type "gene" then plain (gene_stage ext gene_id)
  else if String.eqb work_type "design_matrices"
  then plain (design_matrices_stage ext gene_id trans_index)
  else if String.eqb work_type "mle"
  then plain (mle_stage ext gene_id trans_index estimate_confidence_bounds)
  else if String.eqb work_type "lb" || String.eqb work_type "ub"
  then bound_stage ext work_type gene_id trans_index cb_alpha
  else ret None.

(** [estimate_gene_expression_worker]: the [try] block, and the handler
    of [except Exception, inst], which an exception that is not an
    instance of [Exception] passes by. *)
Definition estimate_gene_expression_worker (ext : externals)
  (work_type : string) (gene_id : Z) (trans_index : trans_index_t)
  (estimate_confidence_bounds : bool) (cb_alpha : float) : M unit :=
  caught ← try_block ext work_type gene_id trans_index
             estimate_confidence_bounds cb_alpha;
  match caught with
  | Some (inst, trans_index) =>
      if is_Exception inst
      then report_error (queue_fault ext) gene_id trans_index
             (format_exc ext inst)
      else raise inst
  | None => ret tt
  end.

(** ** The worker loop of the element finder (find_elements.py,
       [find_exons_worker]) *)

(** [queue.pop()]: removes and returns the last item; [None] is the
    [IndexError] on an empty list. *)
Definition pop {A} (queue : list A) : option (A * list A) :=
  match reverse queue with
  | [] => None
  | x :: before => Some (x, reverse before)
  end.

(** Where a worker is in its loop. Every block under [genes_queue_lock]
    is one step: the blocks exclude one another, and they are the only
    places where the queue and the counter are written. The first test
    of the counter is made without the lock. *)
Inductive finder_pc (G : Type) :=
| AtPop
| Popped (gene : option G)
| AtRecheck
| Processing (gene : G)
| Finishing (rv : option (list G))
| Gone.
Arguments AtPop {G}.
Arguments Popped {G} gene.
Arguments AtRecheck {G}.
Arguments Processing {G} gene.
Arguments Finishing {G} rv.
Arguments Gone {G}.

(** The shared list of genes, the shared counter, and the workers. *)
Record finder_pool (G : Type) := {
  genes_queue : list G;
  n_threads_running : Z;
  finders : list (finder_pc G)
}.
Arguments genes_queue {G} f.
Arguments n_threads_running {G} f.
Arguments finders {G} f.

(** The next step of a worker that is at [pc]; [process gene] is what
    [find_exons_and_process_data] returns for the gene, new genes or
    [None], which is also what the handler of its exceptions sets. *)
Definition finder_step {G} (process : G -> option (list G))
  (queue : list G) (n : Z) (pc : finder_pc G)
  : list G * Z * finder_pc G :=
  match pc with
  | AtPop =>
      (* with genes_queue_lock: try: gene = genes_queue.pop() ... *)
      match pop queue with
      | Some (gene, rest) => (rest, n, Popped (Some gene))
      | None => (queue, n, Popped None)
      end
  | Popped None =>
      (* if gene == None and n_threads_running.value > 0: sleep; continue *)
      if 0 <? n then (queue, n, AtPop) else (queue, n, AtRecheck)
  | AtRecheck =>
      (* with genes_queue_lock: if len(genes_queue) == 0 and
         n_threads_running.value == 0: return; else: continue *)
      if (length queue =? 0)%nat && (n =? 0)
      then (queue, n, Gone) else (queue, n, AtPop)
  | Popped (Some gene) =>
      (* with genes_queue_lock: n_threads_running.value += 1 *)
      (queue, n + 1, Processing gene)
  | Processing gene => (queue, n, Finishing (process gene))
  | Finishing rv =>
      (* with genes_queue_lock: the new genes are appended and
         n_threads_running.value -= 1 *)
      (queue ++ default [] rv, n - 1, AtPop)
  | Gone => (queue, n, Gone)
  end.

(** Worker [i] takes its next step. *)
Definition finder_move {G} (process : G -> option (list G)) (i : nat)
  (s : finder_pool G) : finder_pool G :=
  match finders s !! i with
  | Some pc =>
      let '(queue, n, pc') :=
        finder_step process (genes_queue s) (n_threads_running s) pc in
      {| genes_queue := queue; n_threads_running := n;
         finders := <[i := pc']> (finders s) |}
  | None => s
  end.

(** The workers take their steps in the order [schedule] names them. *)
Definition finder_run {G} (process : G -> option (list G))
  (schedule : list nat) (s : finder_pool G) : finder_pool G :=
  fold_left (fun s i => finder_move process i s) schedule s.

(** A worker that holds a gene: it has popped one and has not yet put
    back what processing it gives. *)
Definition holds_gene {G} (pc : finder_pc G) : bool :=
  match pc with
  | Popped (Some _) | Processing _ | Finishing _ => true
  | _ => false
  end.

(** A worker that the counter counts. *)
Definition counted {G} (pc : finder_pc G) : Z :=
  match pc with
  | Processing _ | Finishing _ => 1
  | _ => 0
  end.

(** ** The scheduler (build_transcripts.py, [spawn_and_manage_children]) *)

(** A worker process as the scheduler and the queue see it: the units
    it has still to append, each with or without [input_queue_lock], and
    then its end. *)
Inductive child :=
| Alive (script : list (bool * work))
| Dead.

(** [p == None or not p.is_alive()] *)
Definition not_alive (p : option child) : bool :=
  match p with Some (Alive _) => false | _ => true end.

(** Where the scheduler is in its loop. *)
Inductive scheduler_pc :=
| Top
| Locked
| Got (unit : work)
| EmptySeen
| AliveCheck (k : nat)
| Dispatch (unit : work)
| Spawn (unit : work)
| Exited.

Record scheduler := {
  sch_queue : list work;
  sch_ps : list (option child);
  sch_finished_queue : list (string * Z);
  sch_pc : scheduler_pc
}.

(** The scheduler holds [input_queue_lock] from its [acquire] to the
    [release] on each of the three ways on. Workers hold it only while
    they append, which is one step here. *)
Definition lock_held (pc : scheduler_pc) : bool :=
  match pc with
  | Locked | Got _ | EmptySeen | AliveCheck _ => true
  | _ => false
  end.

Definition set_pc (pc : scheduler_pc) (s : scheduler) : scheduler :=
  {| sch_queue := sch_queue s; sch_ps := sch_ps s;
     sch_finished_queue := sch_finished_queue s; sch_pc := pc |}.

(** [min(i for i, p in enumerate(ps) if p == None or not p.is_alive())] *)
Fixpoint free_slot (ps : list (option child)) : option nat :=
  match ps with
  | [] => None
  | p :: ps' => if not_alive p then Some 0%nat else S <$> free_slot ps'
  end.

(** The gene a unit is about. *)
Definition unit_gene (unit : work) : Z :=
  match snd unit with Task g _ | Failure g _ _ => g end.

(** The next step of the scheduler. [script unit] is what the worker
    started for [unit] appends; with one thread the worker is called in
    the scheduler itself. *)
Definition scheduler_step (num_threads : Z) (write_design_matrices : bool)
  (script : work -> list (bool * work)) (s : scheduler) : scheduler :=
  match sch_pc s with
  | Top =>
      (* input_queue_lock.acquire() *)
      set_pc Locked s
  | Locked =>
      (* work_type, work_data = input_queue.pop() *)
      match pop (sch_queue s) with
      | Some (unit, rest) =>
          {| sch_queue := rest; sch_ps := sch_ps s;
             sch_finished_queue := sch_finished_queue s;
             sch_pc := Got unit |}
      | None => set_pc EmptySeen s
      end
  | Got unit =>
      (* input_queue_lock.release() *)
      set_pc (Dispatch unit) s
  | EmptySeen =>
      (* except IndexError: if len(input_queue) == 0 and ... *)
      if (length (sch_queue s) =? 0)%nat
      then set_pc (AliveCheck 0) s
      else set_pc Top s
  | AliveCheck k =>
      (* ... all(p == None or not p.is_alive() for p in ps):
         release and break; otherwise release, sleep and continue *)
      match sch_ps s !! k with
      | None => set_pc Exited s
      | Some p => if not_alive p then set_pc (AliveCheck (S k)) s
                  else set_pc Top s
      end
  | Dispatch unit =>
      if String.eqb (fst unit) "ERROR" then set_pc Top s
      else if String.eqb (fst unit) "FINISHED" then
        {| sch_queue := sch_queue s; sch_ps := sch_ps s;
           sch_finished_queue :=
             sch_finished_queue s ++ [("gtf"%string, unit_gene unit)];
           sch_pc := Top |}
      else if String.eqb (fst unit) "mle" && write_design_matrices then
        {| sch_queue := sch_queue s; sch_ps := sch_ps s;
           sch_finished_queue :=
             sch_finished_queue s
             ++ [("design_matrix"%string, unit_gene unit)];
           sch_pc := Spawn unit |}
      else set_pc (Spawn unit) s
  | Spawn unit =>
      (* sleep until a process index is free, then start the worker *)
      match free_slot (sch_ps s) with
      | None => s
      | Some proc_i =>
          if 1 <? num_threads then
            {| sch_queue := sch_queue s;
               sch_ps := <[proc_i := Some (Alive (script unit))]> (sch_ps s);
               sch_finished_queue := sch_finished_queue s;
               sch_pc := Top |}
          else
            {| sch_queue := sch_queue s ++ (snd <$> script unit);
               sch_ps := sch_ps s;
               sch_finished_queue := sch_finished_queue s;
               sch_pc := Top |}
      end
  | Exited => s
  end.

(** The next step of the worker process in slot [i]: its next append,
    for which it waits while the scheduler holds the lock it needs, or
    its end. *)
Definition child_step (i : nat) (s : scheduler) : scheduler :=
  match sch_ps s !! i with
  | Some (Some (Alive [])) =>
      {| sch_queue := sch_queue s;
         sch_ps := <[i := Some Dead]> (sch_ps s);
         sch_finished_queue := sch_finished_queue s; sch_pc := sch_pc s |}
  | Some (Some (Alive ((locked, unit) :: rest))) =>
      if locked && lock_held (sch_pc s) then s
      else
        {| sch_queue := sch_queue s ++ [unit];
           sch_ps := <[i := Some (Alive rest)]> (sch_ps s);
           sch_finished_queue := sch_finished_queue s; sch_pc := sch_pc s |}
  | _ => s
  end.

(** Who takes the next step. *)
Inductive actor :=
| TheScheduler
| Worker (i : nat).

Definition scheduler_run (num_threads : Z) (write_design_matrices : bool)
  (script : work -> list (bool * work)) (schedule : list actor)
  (s : scheduler) : scheduler :=
  fold_left
    (fun s a =>
       match a with
       | TheScheduler =>
           scheduler_step num_threads write_design_matrices script s
       | Worker i => child_step i s
       end)
    schedule s.

(** [spawn_and_manage_children] is entered with [ps = [None]*num_threads]. *)
Definition scheduler_start (num_threads : Z) (queue : list work)
  : scheduler :=
  {| sch_queue := queue;
     sch_ps := replicate (Z.to_nat num_threads) None;
     sch_finished_queue := []; sch_pc := Top |}.

(** Every append of every worker is made under the queue lock. *)
Definition appends_locked (script : work -> list (bool * work)) : Prop :=
  forall unit, Forall (fun a => fst a = true) (script unit).

(** What holds at every moment of a run in which the workers append
    under the queue lock only. *)
Definition scheduler_inv (s : scheduler) : Prop :=
  (forall i script, sch_ps s !! i = Some (Some (Alive script)) ->
     Forall (fun a => fst a = true) script)
  /\ match sch_pc s with
     | EmptySeen => sch_queue s = []
     | AliveCheck k =>
         sch_queue s = []
         /\ forall j p, (j < k)%nat -> sch_ps s !! j = Some p ->
              not_alive p = true
     | Exited => sch_queue s = [] /\ forallb not_alive (sch_ps s) = true
     | _ => True
     end.

(** ** Matching promoters and poly(A) regions (build_transcripts.py) *)

(** [transcript.exons[0] if transcript.strand == '+' else
    transcript.exons[-1]]; [None] is the [IndexError] on a transcript
    without exons. *)
Definition tss_exon (transcript : Transcript) : option interval :=
  if String.eqb (t_strand transcript) "+" then head (exons transcript)
  else last (exons transcript).

Definition tes_exon (transcript : Transcript) : option interval :=
  if String.eqb (t_strand transcript) "+" then last (exons transcript)
  else head (exons transcript).

(** One pass of the [for promoter in promoters] loop. *)
Definition promoter_step (strand : string) (tss_exon : interval)
  (matching_promoter : option interval) (promoter : interval)
  : option interval :=
  if String.eqb strand "-" && (snd promoter =? snd tss_exon)
  then Some (Z.max (fst promoter) (fst tss_exon), snd promoter)
  else if String.eqb strand "+" && (fst promoter =? fst tss_exon)
  then Some (fst promoter, Z.min (snd promoter) (snd tss_exon))
  else matching_promoter.

(** [find_matching_promoter_for_transcript]; the inner option is the
    returned value ([None] when no promoter matched). *)
Definition find_matching_promoter_for_transcript (transcript : Transcript)
  (promoters : list interval) : option (option interval) :=
  tss_exon ← tss_exon transcript;
  Some (fold_left (promoter_step (t_strand transcript) tss_exon)
          promoters None).

(** One pass of the [for polya in polyas] loop. *)
Definition polya_step (strand : string) (tes_exon : interval)
  (matching_polya : option interval) (polya : interval) : option interval :=
  if String.eqb strand "+" && (snd polya =? snd tes_exon)
  then Some (Z.max (fst polya) (fst tes_exon), snd polya)
  else if String.eqb strand "-" && (fst polya =? fst tes_exon)
  then Some (fst polya, Z.min (snd polya) (snd tes_exon))
  else matching_polya.

(** [find_matching_polya_region_for_transcript] *)
Definition find_matching_polya_region_for_transcript
  (transcript : Transcript) (polyas : list interval)
  : option (option interval) :=
  tes_exon ← tes_exon transcript;
  Some (fold_left (polya_step (t_strand transcript) tes_exon) polyas None).

(** A promoter starts the transcript: it shares the boundary of the first
    exon in the direction of transcription. *)
Definition promoter_matches (strand : string) (tss_exon promoter : interval)
  : Prop :=
  (strand = "-"%string /\ snd promoter = snd tss_exon)
  \/ (strand = "+"%string /\ fst promoter = fst tss_exon).

(** A poly(A) region ends the transcript. *)
Definition polya_matches (strand : string) (tes_exon polya : interval)
  : Prop :=
  (strand = "+"%string /\ snd polya = snd tes_exon)
  \/ (strand = "-"%string /\ fst polya = fst tes_exon).

(** ** [split_genome_into_segments] (find_elements.py) *)

(** [xrange(start, stop, step)]; a zero step is a [ValueError]. *)
Definition xrange_step (start stop step : Z) : option (list Z) :=
  if step =? 0 then None
  else if 0 <? step
  then Some ((fun k => start + k * step)
               <$> seqZ 0 ((stop - start + step - 1) / step))
  else Some ((fun k => start + k * step)
               <$> seqZ 0 ((start - stop - step - 1) / (- step))).

(** [sum(contig_lens.values())] *)
Definition total_length (contig_lens : list (string * Z)) : Z :=
  fold_left Z.add (snd <$> contig_lens) 0.

(** [max(min_segment_length, int(total_length/float(NTHREADS*1000)))];
    the division is a [ZeroDivisionError] without threads. *)
Definition segment_length (NTHREADS : Z) (contig_lens : list (string * Z))
  (min_segment_length : Z) : option Z :=
  if NTHREADS * 1000 =? 0 then None
  else Some (Z.max min_segment_length
               (Z.quot (total_length contig_lens) (NTHREADS * 1000))).

(** The segments of one contig: the body of the inner loop. *)
Definition contig_segments (region_to_use : option (string * interval))
  (segment_length : Z) (contig : string) (contig_length : Z)
  : option (list (string * Z * Z)) :=
  starts ← xrange_step 0 contig_length segment_length;
  Some (omap (M := list) (fun start =>
          match region_to_use with
          | Some (_, (r_start, r_stop)) =>
              if r_stop <? start then None
              else if start + segment_length <? r_start then None
              else Some (contig, start,
                         Z.min contig_length (start + segment_length - 1))
          | None =>
              Some (contig, start,
                    Z.min contig_length (start + segment_length - 1))
          end) starts).

(** [split_genome_into_segments]; [contig_lens] lists the dictionary's
    entries in the order the iteration visits them. *)
Definition split_genome_into_segments (NTHREADS : Z)
  (contig_lens : list (string * Z))
  (region_to_use : option (string * interval)) (min_segment_length : Z)
  : option (list (string * Z * Z)) :=
  segment_length ← segment_length NTHREADS contig_lens min_segment_length;
  (fun segments => concat segments) <$>
    mapM (fun '(contig, contig_length) =>
            match region_to_use with
            | Some (r_chrm, _) =>
                if negb (String.eqb r_chrm contig) then Some []
                else contig_segments region_to_use segment_length contig
                       contig_length
            | None =>
                contig_segments region_to_use segment_length contig
                  contig_length
            end)
         contig_lens.

(** ** More notions for [merge_adjacent_intervals] *)

(** Consecutive intervals are more than [d] positions apart. *)
Definition separated_by (d : Z) (l : list interval) : Prop :=
  Sorted (fun a b => snd a + d + 1 < fst b) l.

(** An interval that does not stop before it starts. *)
Definition well_formed (i : interval) : Prop := fst i <= snd i.

(** Whether the segment starting at [start] survives the two tests on
    [region_to_use]. *)
Definition kept_by_region (region_to_use : option (string * interval))
  (segment_length start : Z) : Prop :=
  match region_to_use with
  | Some (_, (r_start, r_stop)) =>
      start <= r_stop /\ r_start <= start + segment_length
  | None => True
  end.

(** Whether [contig] is looked at. *)
Definition on_region_contig (region_to_use : option (string * interval))
  (contig : string) : Prop :=
  match region_to_use with
  | Some (r_chrm, _) => r_chrm = contig
  | None => True
  end.

(** ** More notions for [build_exons_from_exon_segments] *)

(** A segment over which an exon may extend: neither of the two [break]
    tests of the inner loop fires on it. *)
Definition passes_thresholds (MIN_EXON_FPKM MAX_EXPRESISON_RATIO max_min_ee : Q)
  (seg : SegmentBin) : Prop :=
  (MIN_EXON_FPKM <= fpkm_ub seg)%Q
  /\ (max_min_ee <= fpkm_ub seg * MAX_EXPRESISON_RATIO)%Q.

(** [e] is the exon of the run [i..j] for the label [l] on the left of
    segment [i] and the label [r] on the right of segment [j]. *)
Definition exon_of_labels (exon_segments : list SegmentBin) (i j : nat)
  (l r : string) (e : TranscriptElement) : Prop :=
  run_exon exon_segments i j e
  /\ (exists seg_i seg_j,
        exon_segments !! i = Some seg_i /\ exon_segments !! j = Some seg_j
        /\ In l (left_labels seg_i) /\ In r (right_labels seg_j))
  /\ determine_exon_type l r = Some (te_type e).

(** ** Exon segments of a gene (find_elements.py,
       [find_exon_segments_and_introns_in_gene]) *)

(** [segment_bnd_labels[bnd].add(label)] on a [defaultdict(set)]. *)
Definition add_label (labels : gmap Z (gset string)) (bnd : Z)
  (label : string) : gmap Z (gset string) :=
  <[bnd := default ∅ (labels !! bnd) ∪ {[label]}]> labels.

(** [segment_bnd_labels]: filled by the same loops as [segment_bnds]. *)
Definition segment_bnd_labels (gene_strand : string)
  (gene_start gene_stop : Z) (jns tss_regions tes_regions : list interval)
  : gmap Z (gset string) :=
  let labels := add_label ∅ gene_start "GENE_BNDRY" in
  let labels := add_label labels (gene_stop + 1) "GENE_BNDRY" in
  let labels :=
    fold_left
      (fun labels '(start, stop) =>
         let labels :=
           add_label labels start
             (if String.eqb gene_strand "+" then "D_JN" else "R_JN") in
         add_label labels (stop + 1)
           (if String.eqb gene_strand "+" then "R_JN" else "D_JN"))
      jns labels in
  let labels :=
    fold_left
      (fun labels '(bin_start, bin_stop) =>
         let tss_start :=
           if String.eqb gene_strand "+" then bin_start else bin_stop + 1
         in add_label labels tss_start "TSS")
      tss_regions labels in
  fold_left
    (fun labels '(bin_start, bin_stop) =>
       let tes_start :=
         if String.eqb gene_strand "+" then bin_stop + 1 else bin_start
       in add_label labels tes_start "TES")
    tes_regions labels.

(** Python's order on strings. *)
Definition label_le (a b : string) : Prop := String.leb a b = true.

#[global] Instance label_le_dec : RelDecision label_le :=
  fun a b => decide (String.leb a b = true).

(** [sorted(labels)] for a set of strings. *)
Definition sorted_labels (labels : gset string) : list string :=
  merge_sort label_le (elements labels).

(** [SegmentBin.__init__]: [assert stop - start >= 0], labels sorted. *)
Definition new_SegmentBin (start stop : Z) (left_labels right_labels :
  gset string) (type : option string) (fpkm_lb fpkm fpkm_ub : Q)
  : option SegmentBin :=
  if 0 <=? stop - start
  then Some {| seg_start := start; seg_stop := stop;
               left_labels := sorted_labels left_labels;
               right_labels := sorted_labels right_labels;
               seg_type := type;
               fpkm_lb := fpkm_lb; fpkm := fpkm; fpkm_ub := fpkm_ub |}
  else None.

(** One pass of the [# build segment bins] loop. [estimate i] stands for
    the call [estimate_exon_segment_expression(..., i)], with [None] for an
    exception raised by it. Reading a missing key of the [defaultdict]
    yields an empty set. *)
Definition segment_bin_at (estimate : Z -> option (Q * Q * Q))
  (segment_bnds : list Z) (segment_bnd_labels : gmap Z (gset string))
  (i : Z) : option SegmentBin :=
  '(fpkm_lb, fpkm, fpkm_ub) ← estimate i;
  start ← segment_bnds !! Z.to_nat i;
  next ← segment_bnds !! Z.to_nat (i + 1);
  let stop := next - 1 in
  new_SegmentBin start stop
    (default ∅ (segment_bnd_labels !! start))
    (default ∅ (segment_bnd_labels !! (stop + 1)))
    None fpkm_lb fpkm fpkm_ub.

(** The [# build segment bins] loop. *)
Definition segment_bins (estimate : Z -> option (Q * Q * Q))
  (segment_bnds : list Z) (segment_bnd_labels : gmap Z (gset string))
  : option (list SegmentBin) :=
  mapM (segment_bin_at estimate segment_bnds segment_bnd_labels)
       (xrange 0 (Z.of_nat (length segment_bnds) - 1)).

(** The segments lie side by side: each starts right after the previous
    one stops, and none is empty. *)
Fixpoint tiles_from (start : Z) (bins : list SegmentBin) : Prop :=
  match bins with
  | [] => True
  | b :: bins' =>
      seg_start b = start /\ seg_start b <= seg_stop b
      /\ tiles_from (seg_stop b + 1) bins'
  end.

(** Every boundary of [bnds] carries at least one label in [labels]. *)
Definition labelled (bnds : gset Z) (labels : gmap Z (gset string)) : Prop :=
  forall b, b ∈ bnds -> exists s, labels !! b = Some s /\ s <> ∅.

(** A sample estimator of segment expression. *)
Definition sample_estimate (i : Z) : option (Q * Q * Q) :=
  Some (1, if i =? 1 then 2 else 5, 9)%Q.

(** ** Runs of positions *)

(** [s..e] is a maximal run of entries of [l] satisfying [P]: every entry
    from [s] to [e] satisfies it, and the entries just before [s] and just
    after [e], where there are any, do not. *)
Definition maximal_run {A} (P : A -> Prop) (l : list A) (s e : Z) : Prop :=
  0 <= s <= e /\ e < Z.of_nat (length l)
  /\ (forall k x, s <= k <= e -> l !! Z.to_nat k = Some x -> P x)
  /\ (forall x, 0 < s -> l !! Z.to_nat (s - 1) = Some x -> ~ P x)
  /\ (forall x, l !! Z.to_nat (e + 1) = Some x -> ~ P x).

(** The runs of entries satisfying [p] found by one scan of [mask]; [i] is
    the index of its first entry and [cur] the start of the run the scan is
    in, if it is in one. *)
Fixpoint runs (p : Z -> bool) (i : Z) (cur : option Z) (mask : list Z)
  : list interval :=
  match mask with
  | [] => match cur with Some s => [(s, i - 1)] | None => [] end
  | m :: mask' =>
      if p m then runs p (i + 1) (Some (default i cur)) mask'
      else match cur with Some s => [(s, i - 1)] | None => [] end
             ++ runs p (i + 1) None mask'
  end.

Definition is_zero (m : Z) : bool := m =? 0.
Definition is_nonzero (m : Z) : bool := negb (m =? 0).

(** The regions between the empty regions [empty], from [open] on, in a
    contig of [n] positions: the second half of
    [find_transcribed_regions] in cons form. *)
Fixpoint between (n : Z) (open : Z) (empty : list interval)
  : list (list Z) :=
  match empty with
  | [] => if open =? n then [] else [[open; n - 1]]
  | (start, stop) :: empty' => [open; start - 1] :: between n (stop + 1) empty'
  end.

(** A computation on the shared objects that leaves the store entries of
    every gene other than [gene_id] as they are. *)
Definition isolated {A} (gene_id : Z) (m : M A) : Prop :=
  forall s g field, g <> gene_id ->
    output (snd (m s)) !! (g, field) = output s !! (g, field).

(** A computation that never lets an exception escape. *)
Definition never_raises {A} (m : M A) : Prop :=
  forall s e, fst (m s) <> Raised e.

(** ** [initialize_processing_data] (build_transcripts.py) *)

(** One tuple yielded by [cluster_exons]: the number of elements of each
    of the three kinds that decide whether the cluster is used. *)
Record cluster := {
  n_tss_es : nat;
  n_tes_es : nat;
  n_se_ts : nat
}.

(** [add_universal_data]; the stored objects themselves play no part in
    what follows and are represented by their names. *)
Definition add_universal_data (fault : Z * string -> option exn)
  (gene_id : Z) : M unit :=
  store_set fault gene_id "contig" (VData "contig");;
  store_set fault gene_id "strand" (VData "strand");;
  store_set fault gene_id "rnaseq_reads" (VData "rnaseq_reads");;
  store_set fault gene_id "promoter_reads" (VData "promoter_reads");;
  store_set fault gene_id "polya_reads" (VData "polya_reads");;
  store_set fault gene_id "fasta_fn" (VData "fasta_fn");;
  store_set fault gene_id "fl_dists" (VData "fl_dists");;
  store_set fault gene_id "lbs" (VBounds ∅);;
  store_set fault gene_id "ubs" (VBounds ∅);;
  store_set fault gene_id "mle" VNone;;
  store_set fault gene_id "fpkm" VNone;;
  store_set fault gene_id "design_matrices" VNone.

(** [len(se_ts) == 0 and (len(tes_es) == 0 or len(tss_es) == 0)] *)
Definition skipped (c : cluster) : bool :=
  (n_se_ts c =? 0)%nat && ((n_tes_es c =? 0)%nat || (n_tss_es c =? 0)%nat).

(** The body of the loop over the clusters, for a cluster that is not
    skipped and has been given the identifier [gene_id]. *)
Definition initialize_gene (fault : Z * string -> option exn)
  (queue_fault : work -> option exn) (gene_id : Z) : M unit :=
  enqueue queue_fault "gene" gene_id NoIndex;;
  store_set fault gene_id "tss_exons" (VData "tss_exons");;
  store_set fault gene_id "internal_exons" (VData "internal_exons");;
  store_set fault gene_id "tes_exons" (VData "tes_exons");;
  store_set fault gene_id "se_transcripts" (VData "se_transcripts");;
  store_set fault gene_id "promoters" (VData "promoters");;
  store_set fault gene_id "polyas" (VData "polyas");;
  store_set fault gene_id "introns" (VData "introns");;
  store_set fault gene_id "gene" VNone;;
  add_universal_data fault gene_id.

(** [initialize_processing_data] when no genes are given: the loop over
    all clusters of all contigs and strands, in the order they are visited;
    it threads the counter [gene_id] and returns its final value. *)
Fixpoint initialize_processing_data (fault : Z * string -> option exn)
  (queue_fault : work -> option exn) (clusters : list cluster)
  (gene_id : Z) : M Z :=
  match clusters with
  | [] => mret gene_id
  | c :: clusters' =>
      if skipped c
      then initialize_processing_data fault queue_fault clusters' gene_id
      else
        let gene_id := gene_id + 1 in
        initialize_gene fault queue_fault gene_id;;
        initialize_processing_data fault queue_fault clusters' gene_id
  end.

(** The store entries that the ['gene'], ['design_matrices'] and ['mle']
    stages read before any stage has written them. *)
Definition initial_fields : list string :=
  [ "contig"; "strand"; "tss_exons"; "internal_exons"; "tes_exons";
    "se_transcripts"; "introns"; "promoters"; "polyas"; "fasta_fn";
    "fl_dists"; "promoter_reads"; "rnaseq_reads"; "polya_reads" ]%string.

(** A gene whose first stage can start: both locks are free and the
    entries of [initial_fields] are in the store. *)
Definition ready (gene_id : Z) (s : shared) : Prop :=
  op_lock s = false /\ input_queue_lock s = false
  /\ forall field, field ∈ initial_fields ->
       is_Some (output s !! (gene_id, field)).

(** An environment in which nothing fails for [gene_id]: no store write
    of that gene and no append to the queue is rejected, and the
    computations of the other modules return. *)
Definition cooperative (ext : externals) (gene_id : Z) (gene : Gene)
  (design : float * nat) (mle : list float) : Prop :=
  (forall field, store_fault ext (gene_id, field) = None)
  /\ (forall w, queue_fault ext w = None)
  /\ ONLY_BUILD_CANDIDATE_TRANSCRIPTS ext = false
  /\ assemble_gene ext gene_id = inr gene
  /\ open_reads ext gene_id = inr tt
  /\ build_design_matrices ext gene = inr design
  /\ estimate_transcript_frequencies ext gene_id = inr mle
  /\ calc_lhd ext gene_id = inr tt.

(** ** [prefilter_jns] (find_elements.py) *)

(** [for jn, cnt in jns: d[jn] += cnt] on a [defaultdict(int)]. *)
Definition sum_counts (jns : list (interval * Z)) : gmap interval Z :=
  fold_left (fun d '(jn, cnt) => <[jn := default 0 (d !! jn) + cnt]> d)
    jns ∅.

(** [jn_starts] (with [key = fst]) and [jn_stops] (with [key = snd]): for
    each boundary the largest count of a junction that has it, in a
    [defaultdict(int)]. *)
Definition best_counts (key : interval -> Z) (jns : gmap interval Z)
  : gmap Z Z :=
  map_fold
    (fun jn cnt best =>
       <[key jn := Z.max (default 0 (best !! key jn)) cnt]> best)
    ∅ jns.

(** The body of the second loop for one junction: whether it is kept.
    [None] is the [ZeroDivisionError] of the strand test.  The two
    thresholds come from the [config] module. *)
Definition keeps_junction (beta_ppf : Q -> Q -> Q -> Q)
  (NOISE_JN_FILTER_FRAC : Q) (MAX_INTRON_SIZE : Z)
  (jn_starts jn_stops : gmap Z Z) (anti_strand_jns : gmap interval Z)
  (jn : interval) (cnt : Z) : option bool :=
  let '(start, stop) := jn in
  if Qlt_bool (beta_ppf (1 # 100) (inject_Z (cnt + 1))
                 (inject_Z (default 0 (jn_starts !! start) + 1)))
       NOISE_JN_FILTER_FRAC
  then Some false
  else if Qlt_bool (beta_ppf (1 # 100) (inject_Z (cnt + 1))
                      (inject_Z (default 0 (jn_stops !! stop) + 1)))
            NOISE_JN_FILTER_FRAC
  then Some false
  else
    weaker ←
      match anti_strand_jns !! (start, stop) with
      | Some anti =>
          ratio ← fdiv (inject_Z cnt + 1) (inject_Z (anti + 1));
          Some (Qle_bool ratio 1)
      | None => Some false
      end;
    if (weaker : bool) then Some false
    else Some (negb (MAX_INTRON_SIZE <? stop - start + 1)).

(** The body of [for jns in (plus_jns, minus_jns)]: the junctions of one
    strand that are kept.  The dictionary is visited in no particular
    order; the result does not depend on it, nor does whether an exception
    is raised. *)
Definition filter_junctions (beta_ppf : Q -> Q -> Q -> Q)
  (NOISE_JN_FILTER_FRAC : Q) (MAX_INTRON_SIZE : Z)
  (jns anti_strand_jns : gmap interval Z) : option (gmap interval Z) :=
  let jn_starts := best_counts fst jns in
  let jn_stops := best_counts snd jns in
  let keeps :=
    keeps_junction beta_ppf NOISE_JN_FILTER_FRAC MAX_INTRON_SIZE jn_starts
      jn_stops anti_strand_jns in
  if decide (map_Forall (fun jn cnt => is_Some (keeps jn cnt)) jns)
  then Some (filter (fun p => keeps p.1 p.2 = Some true) jns)
  else None.

(** [prefilter_jns]: the filtered junctions of the plus strand and of the
    minus strand. *)
Definition prefilter_jns (beta_ppf : Q -> Q -> Q -> Q)
  (NOISE_JN_FILTER_FRAC : Q) (MAX_INTRON_SIZE : Z)
  (plus_jns minus_jns : list (interval * Z))
  : option (list (gmap interval Z)) :=
  let plus_jns_dict := sum_counts plus_jns in
  let minus_jns_dict := sum_counts minus_jns in
  mapM (fun jns =>
          let anti_strand_jns :=
            if decide (jns = plus_jns_dict) then minus_jns_dict
            else plus_jns_dict in
          filter_junctions beta_ppf NOISE_JN_FILTER_FRAC MAX_INTRON_SIZE jns
            anti_strand_jns)
       [plus_jns_dict; minus_jns_dict].

(** The sum of the counts listed for [jn]. *)
Definition count_of (jn : interval) (jns : list (interval * Z)) : Z :=
  fold_right (fun '(jn', cnt) acc => if decide (jn' = jn) then cnt + acc
                                     else acc) 0 jns.

(** [m] is the largest count among the junctions of [jns] whose boundary
    [key] is [k] (and 0 if there is none, or none with a positive count). *)
Definition best_at (key : interval -> Z) (jns : gmap interval Z) (k m : Z)
  : Prop :=
  0 <= m
  /\ (forall jn cnt, jns !! jn = Some cnt -> key jn = k -> cnt <= m)
  /\ (m = 0 \/ exists jn, jns !! jn = Some m /\ key jn = k).

(** What it takes for a junction with [cnt] reads to be kept, given the
    junctions [jns] of its strand and [anti] of the opposite strand. *)
Definition junction_kept (beta_ppf : Q -> Q -> Q -> Q)
  (NOISE_JN_FILTER_FRAC : Q) (MAX_INTRON_SIZE : Z)
  (jns anti : gmap interval Z) (jn : interval) (cnt : Z) : Prop :=
  jns !! jn = Some cnt
  /\ (exists m, best_at fst jns (fst jn) m
        /\ (NOISE_JN_FILTER_FRAC
            <= beta_ppf (1 # 100) (inject_Z (cnt + 1)) (inject_Z (m + 1)))%Q)
  /\ (exists m, best_at snd jns (snd jn) m
        /\ (NOISE_JN_FILTER_FRAC
            <= beta_ppf (1 # 100) (inject_Z (cnt + 1)) (inject_Z (m + 1)))%Q)
  /\ (forall a, anti !! jn = Some a -> a < cnt)
  /\ snd jn - fst jn + 1 <= MAX_INTRON_SIZE.

(** What the scan knows at index [k]: the run in progress, if any, began
    at a run start and has not been interrupted. *)
Definition scan_state (p : Z -> bool) (full : list Z) (k : nat)
  (cur : option Z) : Prop :=
  match cur with
  | Some s0 =>
      0 <= s0 < Z.of_nat k
      /\ (forall j x, s0 <= j < Z.of_nat k -> full !! Z.to_nat j = Some x ->
            p x = true)
      /\ (forall x, 0 < s0 -> full !! Z.to_nat (s0 - 1) = Some x ->
            p x <> true)
  | None =>
      forall x, (0 < k)%nat -> full !! (k - 1)%nat = Some x -> p x <> true
  end.

(** ** Auxiliary notions used in the proofs *)

(** The loop in cons form: [cur] is the interval being grown. *)
Fixpoint merge_from (d : Z) (cur : interval) (rest : list interval)
  : list interval :=
  match rest with
  | [] => [cur]
  | (start, stop) :: rest' =>
      if start - d - 1 <=? snd cur
      then merge_from d (fst cur, stop) rest'
      else cur :: merge_from d (start, stop) rest'
  end.

(** A computation that, started with the queue lock free, ends (when it
    ends) with the queue lock free and has only appended to the queue. *)
Definition well_behaved {A} (m : M A) : Prop :=
  forall s, input_queue_lock s = false ->
    match m s with
    | (Blocked, _) => True
    | (_, s') =>
        input_queue_lock s' = false
        /\ exists added, input_queue s' = input_queue s ++ added
    end.

(** ** Sample data *)

(** Three segments of a gene on the plus strand, the middle one an
    intron between a donor and an acceptor site. *)
Definition sample_segments : list SegmentBin :=
  [ {| seg_start := 0; seg_stop := 9; left_labels := ["TSS"]%string;
       right_labels := ["D_JN"]%string; seg_type := None;
       fpkm_lb := 1; fpkm := 5; fpkm_ub := 9 |};
    {| seg_start := 10; seg_stop := 19; left_labels := ["D_JN"]%string;
       right_labels := ["R_JN"]%string; seg_type := None;
       fpkm_lb := 1; fpkm := 2; fpkm_ub := 9 |};
    {| seg_start := 20; seg_stop := 29; left_labels := ["R_JN"]%string;
       right_labels := ["TES"]%string; seg_type := None;
       fpkm_lb := 1; fpkm := 4; fpkm_ub := 9 |} ].

(** A transcript of gene [G1] on contig [2L]. *)
Definition sample_transcript (id : string) (exons : list interval)
  : Transcript :=
  new_Transcript id "2L" "+" exons None "G1" None.

(** A gene with three candidate transcripts. *)
Definition sample_gene : Gene :=
  {| gene_id := "G1"; chrm := "2L"; g_strand := "+";
     g_min := 100; g_max := 1299;
     transcripts := [ sample_transcript "G1_0" [(100, 599); (800, 1299)];
                      sample_transcript "G1_1" [(100, 599)];
                      sample_transcript "G1_2" [(100, 299); (800, 1299)] ] |}.

(** A stand-in for the Beta quantile function in examples (the mean of
    the distribution); the theorems hold for any function in its place. *)
Definition beta_mean (q a b : Q) : Q := (a / (a + b))%Q.

(** The same on doubles. *)
Definition beta_mean_float (q a b : float) : float := (a / (a + b))%float.

(** The records written for [sample_gene] when its second transcript is
    unobservable, with lower bounds [10, 1] and upper bounds [0.9, 0.6]. *)
Definition sample_gtf_records : list gtf_record :=
  [ {| rec_transcript :=
         set_score (sample_transcript "G1_0" [(100, 599); (800, 1299)]) 89;
       meta_data := [("conf_lo"%string, 10%Q); ("conf_hi"%string, 9 # 10)] |};
    {| rec_transcript :=
         set_score (sample_transcript "G1_2" [(100, 299); (800, 1299)]) 59;
       meta_data := [("conf_lo"%string, 1%Q); ("conf_hi"%string, 3 # 5)] |} ].


(** A gene as the parser hands it over. *)
Definition sample_parsed_gene : c_gene_t :=
  {| c_gene_id := "G1"; c_chrm := "chr2L"; c_strand := "+";
     min_loc := 0; max_loc := 1299;
     c_transcripts :=
       [ {| c_trans_id := "G1_0"; cds_start := -1; cds_stop := -1;
            c_exons := [ {| c_start := 100; c_stop := 599 |};
                         {| c_start := 800; c_stop := 1299 |} ];
            c_score := -1 |} ] |}.

(** An environment in which every computation succeeds and the store
    rejects one write: that of the ['mle'] entry of gene 7. *)
Definition faulty_store : externals :=
  {| ONLY_BUILD_CANDIDATE_TRANSCRIPTS := false;
     NUMBER_OF_READS_IN_BAM := 1998;
     beta_ppf := beta_mean_float;
     pid := 4242;
     store_fault := fun key =>
       if decide (key = (7, "mle"%string))
       then Some (SystemError "error return without exception set")
       else None;
     queue_fault := fun _ => None;
     assemble_gene := fun _ => inr sample_gene;
     open_reads := fun _ => inr tt;
     build_design_matrices := fun _ => inr (0%float, 3%nat);
     estimate_transcript_frequencies :=
       fun _ => inr [0.5; 0.25; 0.25]%float;
     calc_lhd := fun _ => inr tt;
     estimate_confidence_bound := fun _ _ _ => inr 0.5%float;
     format_exc := exn_msg |}.

(** An environment in which the store and the queue accept everything;
    the other computations are given. *)
Definition sample_environment (only_build_candidate_transcripts : bool)
  (assemble_gene : Z -> exn + Gene)
  (estimate_confidence_bound : Z -> string -> nat -> exn + float)
  (queue_fault : work -> option exn) : externals :=
  {| ONLY_BUILD_CANDIDATE_TRANSCRIPTS := only_build_candidate_transcripts;
     NUMBER_OF_READS_IN_BAM := 1998;
     beta_ppf := beta_mean_float;
     pid := 4242;
     store_fault := fun _ => None;
     queue_fault := queue_fault;
     assemble_gene := assemble_gene;
     open_reads := fun _ => inr tt;
     build_design_matrices := fun _ => inr (0%float, 3%nat);
     estimate_transcript_frequencies :=
       fun _ => inr [0.5; 0.25; 0.25]%float;
     calc_lhd := fun _ => inr tt;
     estimate_confidence_bound := estimate_confidence_bound;
     format_exc := exn_msg |}.

(** The store entries the ['mle'] stage reads for a gene. *)
Definition gene_entries (gene_id : Z) : list (Z * string * value) :=
  [ (gene_id, "design_matrices"%string, VDesign 0 3);
    (gene_id, "gene"%string, VGene sample_gene);
    (gene_id, "fl_dists"%string, VData "fl_dists");
    (gene_id, "promoter_reads"%string, VData "promoter_reads");
    (gene_id, "rnaseq_reads"%string, VData "rnaseq_reads") ].

(** Genes 7 and 8 have their design matrices; the ['mle'] unit of gene 8
    is still queued; both locks are free. *)
Definition two_genes_pending : shared :=
  {| input_queue := [("mle"%string, Task 8 NoIndex)];
     output := list_to_map (gene_entries 7 ++ gene_entries 8);
     op_lock := false;
     input_queue_lock := false |}.

(** A store with the initial entries of gene 8, an empty queue and both
    locks free. *)
Definition one_gene_ready : shared :=
  {| input_queue := [];
     output := list_to_map ((fun f => (8, f, VData f)) <$> initial_fields);
     op_lock := false;
     input_queue_lock := false |}.

(** A stand-in for ["%.2e"] in examples: the integer part. *)
Definition fmt_floor (x : Q) : string := str_int (Qfloor x).

(** A gene with a single transcript. *)
Definition single_transcript_gene : Gene :=
  {| gene_id := "G1"; chrm := "2L"; g_strand := "+";
     g_min := 100; g_max := 599;
     transcripts := [sample_transcript "G1_0" [(100, 599)]] |}.

(** The one line written for it with FPKM 2 and bounds 1 and 3. *)
Definition single_transcript_line : list string :=
  [ "G1"; "-"; "-"; "-"; "-"; "G1_0"; "2L:100-599"; "500"; "2"; "1"; "3";
    "OK" ]%string.

(* ================================================================= *)
(** * Properties *)
(* ================================================================= *)

(** ** Interval merging *)

Example merge_adjacent_points :
  merge_adjacent_intervals [(3,3); (1,1); (2,2); (7,7)] (Some 0)
  = Some [(1,3); (7,7)].
Proof. reflexivity. Qed.

Lemma set_last_stop_snoc pre s e stop :
  set_last_stop (pre ++ [(s, e)]) stop = pre ++ [(s, stop)].
Proof.
  unfold set_last_stop. rewrite reverse_snoc.
  by rewrite reverse_cons, reverse_involutive.
Qed.

Lemma merge_loop_from d rest : forall pre s e,
  merge_loop d rest (pre ++ [(s, e)]) e = pre ++ merge_from d (s, e) rest.
Proof.
  induction rest as [|[start stop] rest IH]; intros pre s e; simpl; [done|].
  destruct (start - d - 1 <=? e).
  - rewrite set_last_stop_snoc. apply IH.
  - rewrite (IH (pre ++ [(s, e)]) start stop). by rewrite <- app_assoc.
Qed.

Lemma merge_loop_first d rest s e :
  merge_loop d rest [(s, e)] e = merge_from d (s, e) rest.
Proof. apply (merge_loop_from d rest [] s e). Qed.

Lemma merge_from_head d rest : forall s e,
  exists e' tl, merge_from d (s, e) rest = (s, e') :: tl.
Proof.
  induction rest as [|[start stop] rest IH]; intros s e; simpl; [eauto|].
  destruct (start - d - 1 <=? e); eauto.
Qed.

Lemma merge_from_non_overlapping d rest : forall cur,
  0 <= d -> non_overlapping (merge_from d cur rest).
Proof.
  unfold non_overlapping.
  induction rest as [|[start stop] rest IH]; intros [s e] Hd; simpl.
  - repeat constructor.
  - destruct (Z.leb_spec (start - d - 1) e); [by apply IH|].
    constructor; [by apply IH|].
    destruct (merge_from_head d rest start stop) as (e' & tl & ->).
    constructor; simpl; lia.
Qed.

Lemma merge_from_sorted d rest : forall s e,
  StronglySorted (fun a b => fst a <= fst b) rest ->
  Forall (fun r => s <= fst r) rest ->
  sorted_by_start (merge_from d (s, e) rest).
Proof.
  unfold sorted_by_start.
  induction rest as [|[start stop] rest IH]; intros s e Hs Hle; simpl.
  - repeat constructor.
  - apply StronglySorted_inv in Hs as [Hs Hhd].
    apply Forall_cons in Hle as [Hle1 Hle]. simpl in *.
    destruct (start - d - 1 <=? e); [by apply IH|].
    constructor; [by apply IH|].
    destruct (merge_from_head d rest start stop) as (e' & tl & ->).
    by constructor.
Qed.

(** With stops in non-decreasing order the grown interval never shrinks. *)
Lemma merge_from_head_stop d rest : forall s e,
  Forall (fun r => e <= snd r) rest ->
  StronglySorted (fun a b => snd a <= snd b) rest ->
  exists e' tl, merge_from d (s, e) rest = (s, e') :: tl /\ e <= e'.
Proof.
  induction rest as [|[start stop] rest IH]; intros s e Hle Hs; simpl.
  - exists e, []. split; [done|lia].
  - apply StronglySorted_inv in Hs as [Hs Hhd].
    apply Forall_cons in Hle as [Hle1 Hle]. simpl in *.
    destruct (start - d - 1 <=? e).
    + destruct (IH s stop) as (e' & tl & -> & ?); [done..|].
      exists e', tl. split; [done|lia].
    + eexists e, _. split; [done|lia].
Qed.

Lemma merge_from_covers d rest : forall s e,
  Forall (fun r => s <= fst r) rest ->
  Forall (fun r => e <= snd r) rest ->
  StronglySorted (fun a b => fst a <= fst b) rest ->
  StronglySorted (fun a b => snd a <= snd b) rest ->
  covers (merge_from d (s, e) rest) rest.
Proof.
  induction rest as [|[start stop] rest IH]; intros s e Hf Hl Hsf Hsl i Hi.
  { destruct Hi. }
  apply StronglySorted_inv in Hsf as [Hsf Hhf].
  apply StronglySorted_inv in Hsl as [Hsl Hhl].
  apply Forall_cons in Hf as [Hf1 Hf].
  apply Forall_cons in Hl as [Hl1 Hl]. simpl in Hf1, Hl1, Hhf, Hhl.
  simpl. destruct (start - d - 1 <=? e).
  - destruct Hi as [<-|Hi].
    + destruct (merge_from_head_stop d rest s stop) as (e' & tl & -> & ?);
        [done..|].
      exists (s, e'). split; [left; done|]. split; simpl; lia.
    + apply IH; try done.
  - destruct Hi as [<-|Hi].
    + destruct (merge_from_head_stop d rest start stop) as (e' & tl & -> & ?);
        [done..|].
      exists (start, e'). split; [right; left; done|]. split; simpl; lia.
    + destruct (IH start stop Hhf Hhl Hsf Hsl i Hi) as (o & Ho & Hc).
      exists o. split; [by right|done].
Qed.

Lemma interval_leb_trans :
  Transitive (fun a b : interval => is_true (IntervalOrder.leb a b)).
Proof.
  intros [a1 a2] [b1 b2] [c1 c2]. unfold is_true, IntervalOrder.leb. simpl.
  rewrite !orb_true_iff, !andb_true_iff, !Z.ltb_lt, !Z.eqb_eq, !Z.leb_le. lia.
Qed.

Lemma StronglySorted_weaken {A} (R R' : A -> A -> Prop) (l : list A) :
  (forall a b, In a l -> In b l -> R a b -> R' a b) ->
  StronglySorted R l -> StronglySorted R' l.
Proof.
  intros HR Hs. induction Hs as [|a l Hs IH Hall]; constructor.
  - apply IH. intros x y Hx Hy Hxy. apply HR; [by right|by right|done].
  - rewrite List.Forall_forall in *. intros x Hx.
    apply HR; [by left|by right|]. by apply Hall.
Qed.

Lemma sort_intervals_In l x : In x (sort_intervals l) <-> In x l.
Proof.
  unfold sort_intervals. split; apply Permutation_in;
    [symmetry|]; apply IntervalSort.Permuted_sort.
Qed.

Lemma sort_intervals_starts l :
  StronglySorted (fun a b => fst a <= fst b) (sort_intervals l).
Proof.
  eapply StronglySorted_weaken;
    [|apply IntervalSort.StronglySorted_sort, interval_leb_trans].
  intros a b _ _. unfold is_true, IntervalOrder.leb.
  rewrite orb_true_iff, andb_true_iff, Z.ltb_lt, Z.eqb_eq, Z.leb_le. lia.
Qed.

Lemma sort_intervals_stops l :
  no_nesting l ->
  StronglySorted (fun a b => snd a <= snd b) (sort_intervals l).
Proof.
  intros Hn. eapply StronglySorted_weaken;
    [|apply IntervalSort.StronglySorted_sort, interval_leb_trans].
  intros a b Ha Hb.
  apply (proj1 (sort_intervals_In l a)) in Ha.
  apply (proj1 (sort_intervals_In l b)) in Hb.
  unfold is_true, IntervalOrder.leb.
  rewrite orb_true_iff, andb_true_iff, Z.ltb_lt, Z.eqb_eq, Z.leb_le.
  intros [Hlt|[_ Hle]]; [by apply (Hn a b)|done].
Qed.

(** The function, with the loop in cons form. *)
Lemma merge_adjacent_intervals_eq intervals d :
  merge_adjacent_intervals intervals (Some d)
  = Some match sort_intervals intervals with
         | [] => []
         | first :: rest => merge_from d first rest
         end.
Proof.
  unfold merge_adjacent_intervals.
  destruct (sort_intervals intervals) as [|[s e] [|r rest]]; try done.
  f_equal. apply (merge_loop_first d (r :: rest) s e).
Qed.

(** Whatever the input, the result is ordered by start and its intervals
    are pairwise separated. *)
Lemma merge_adjacent_intervals_shape intervals d :
  0 <= d ->
  exists out, merge_adjacent_intervals intervals (Some d) = Some out
    /\ sorted_by_start out /\ non_overlapping out.
Proof.
  intros Hd. rewrite merge_adjacent_intervals_eq. eexists. split; [done|].
  pose proof (sort_intervals_starts intervals) as Hs.
  destruct (sort_intervals intervals) as [|[s e] rest].
  - split; constructor.
  - apply StronglySorted_inv in Hs as [Hs Hhd]. split.
    + by apply merge_from_sorted.
    + by apply merge_from_non_overlapping.
Qed.

(** C10, as amended: for inputs without nesting (in particular for pairwise
    disjoint inputs, which is what the callers pass) and a non-negative
    merge distance, [merge_adjacent_intervals] returns intervals ordered by
    start, pairwise separated, and covering every input interval. *)
Theorem merge_adjacent_intervals_covers intervals d :
  0 <= d ->
  no_nesting intervals ->
  exists out, merge_adjacent_intervals intervals (Some d) = Some out
    /\ sorted_by_start out /\ non_overlapping out /\ covers out intervals.
Proof.
  intros Hd Hn.
  destruct (merge_adjacent_intervals_shape intervals d Hd)
    as (out & Hout & Hsorted & Hsep).
  exists out. repeat split; try done.
  intros i Hi. apply (proj2 (sort_intervals_In intervals i)) in Hi.
  rewrite merge_adjacent_intervals_eq in Hout. injection Hout as <-.
  pose proof (sort_intervals_starts intervals) as Hs.
  pose proof (sort_intervals_stops intervals Hn) as Hs2.
  destruct (sort_intervals intervals) as [|[s e] rest]; [destruct Hi|].
  apply StronglySorted_inv in Hs as [Hs Hhd].
  apply StronglySorted_inv in Hs2 as [Hs2 Hhd2].
  destruct Hi as [<-|Hi].
  - destruct (merge_from_head_stop d rest s e) as (e' & tl & -> & ?);
      [done..|].
    exists (s, e'). split; [by left|]. unfold contained; simpl; lia.
  - by apply merge_from_covers.
Qed.

Lemma merge_adjacent_intervals_covers_witness :
  exists out,
    merge_adjacent_intervals [(5,9); (0,3); (4,4); (20,30)] (Some 0) = Some out
    /\ sorted_by_start out /\ non_overlapping out
    /\ covers out [(5,9); (0,3); (4,4); (20,30)].
Proof.
  apply merge_adjacent_intervals_covers; [lia|].
  intros a b Ha Hb; simpl in Ha, Hb.
  repeat match goal with H : _ \/ _ |- _ => destruct H as [<-|H] end;
    repeat match goal with H : False |- _ => destruct H end; simpl; lia.
Defined.

(** C10 as stated fails on nested input: after sorting, [(2,5)] is merged
    into [(0,10)] by overwriting the stop, and [(0,10)] is no longer
    covered. *)
Lemma merge_adjacent_intervals_nested_uncovered :
  merge_adjacent_intervals [(0,10); (2,5)] (Some 0) = Some [(0,5)]
  /\ ~ covers [(0,5)] [(0,10); (2,5)].
Proof.
  split; [reflexivity|].
  intros H. destruct (H (0,10)) as (o & [<-|[]] & Hc); [by left|].
  unfold contained in Hc; simpl in Hc; lia.
Qed.

(** ** Transcribed regions *)

Example find_empty_regions_comment_array :
  find_empty_regions [1; 7; 6; 0; 0; 0; 4; 0]%Q (1 # 1000000) 0
  = Some [(3, 5); (7, 7)].
Proof. reflexivity. Qed.

Example find_transcribed_regions_comment_array :
  find_transcribed_regions [1; 7; 6; 0; 0; 0; 4; 0]%Q (1 # 1000000)
  = Some [[0; 2]; [6; 6]].
Proof. reflexivity. Qed.

Example find_transcribed_regions_leading_gap :
  find_transcribed_regions [0; 0; 3; 3; 0; 2]%Q (1 # 1000000)
  = Some [[2; 3]; [5; 5]].
Proof. reflexivity. Qed.

Lemma np_diff_cons_repeat v n : np_diff (v :: repeat v n) = repeat 0 n.
Proof.
  induction n as [|n IH]; [done|].
  change (np_diff (v :: repeat v (S n)))
    with ((v - v) :: np_diff (v :: repeat v n)).
  by rewrite IH, Z.sub_diag.
Qed.

Lemma np_diff_repeat v n : np_diff (repeat v n) = repeat 0 (n - 1)%nat.
Proof.
  destruct n as [|n]; [done|]. simpl repeat at 1.
  rewrite np_diff_cons_repeat. f_equal. lia.
Qed.

Lemma nonzero_eq_from_zeros i v n :
  v <> 0 -> nonzero_eq_from i v (repeat 0 n) = [].
Proof.
  intros Hv. revert i. induction n as [|n IH]; intros i; [done|].
  cbn [repeat nonzero_eq_from].
  destruct (Z.eqb_spec 0 v); [congruence|apply IH].
Qed.

Lemma at_least_below thresh cov :
  Forall (fun c => (c < thresh)%Q) cov ->
  map (at_least thresh) cov = repeat 0 (length cov).
Proof.
  induction 1 as [|c cov Hc _ IH]; simpl; [done|]. rewrite IH. f_equal.
  unfold at_least. destruct (Qle_bool thresh c) eqn:E; [|done].
  apply Qle_bool_iff in E. by apply Qlt_not_le in Hc.
Qed.

Lemma at_least_above thresh cov :
  Forall (fun c => (thresh <= c)%Q) cov ->
  map (at_least thresh) cov = repeat 1 (length cov).
Proof.
  induction 1 as [|c cov Hc _ IH]; simpl; [done|]. rewrite IH. f_equal.
  unfold at_least. by apply Qle_bool_iff in Hc as ->.
Qed.

Lemma Forall_last_head {A} (P : A -> Prop) (l : list A) :
  l <> [] -> Forall P l ->
  exists x y, last l = Some x /\ head l = Some y /\ P x /\ P y.
Proof.
  intros Hne Hall. destruct l as [|y l]; [done|].
  destruct (last (y :: l)) as [x|] eqn:Hx.
  - exists x, y. repeat split; try done.
    + apply last_Some in Hx as [l' Hl]. rewrite Hl in Hall.
      apply Forall_app in Hall as [_ Hall]. by apply Forall_cons in Hall as [? _].
    + by apply Forall_cons in Hall as [? _].
  - by apply last_None in Hx.
Qed.

(** With no evidence anywhere, the whole array is one empty region. *)
Lemma find_empty_regions_all_below cov thresh :
  cov <> [] ->
  Forall (fun c => (c < thresh)%Q) cov ->
  find_empty_regions cov thresh 0
  = Some [(0, Z.of_nat (length cov - 1))].
Proof.
  intros Hne Hall. unfold find_empty_regions.
  destruct (Forall_last_head _ _ Hne Hall) as (x & y & -> & -> & Hx & Hy).
  rewrite at_least_below, np_diff_repeat by done.
  unfold nonzero_eq. rewrite !nonzero_eq_from_zeros by done.
  destruct (Qle_bool thresh x) eqn:Ex;
    [apply Qle_bool_iff in Ex; by apply Qlt_not_le in Hx|].
  destruct (Qle_bool thresh y) eqn:Ey;
    [apply Qle_bool_iff in Ey; by apply Qlt_not_le in Hy|].
  simpl. rewrite repeat_length.
  destruct (Z.leb_spec 0 (Z.of_nat (length cov - 1) - 0 + 1)); [done|lia].
Qed.

(** With evidence everywhere, there is no empty region. *)
Lemma find_empty_regions_all_above cov thresh min_length :
  cov <> [] ->
  Forall (fun c => (thresh <= c)%Q) cov ->
  find_empty_regions cov thresh min_length = Some [].
Proof.
  intros Hne Hall. unfold find_empty_regions.
  destruct (Forall_last_head _ _ Hne Hall) as (x & y & -> & -> & Hx & Hy).
  rewrite at_least_above, np_diff_repeat by done.
  unfold nonzero_eq. rewrite !nonzero_eq_from_zeros by done.
  apply Qle_bool_iff in Hx as ->. by apply Qle_bool_iff in Hy as ->.
Qed.

(** C3, as amended: on a non-empty coverage array with no evidence at any
    position the finder returns no transcribed region at all; the single
    region spanning the whole input is what it returns when every position
    carries evidence, i.e. when no empty region is found. *)
Theorem find_transcribed_regions_uniform cov thresh :
  cov <> [] ->
  (Forall (fun c => (c < thresh)%Q) cov ->
   find_transcribed_regions cov thresh = Some [])
  /\ (Forall (fun c => (thresh <= c)%Q) cov ->
      find_transcribed_regions cov thresh
      = Some [[0; Z.of_nat (length cov) - 1]]).
Proof.
  intros Hne. split; intros Hall; unfold find_transcribed_regions.
  - rewrite find_empty_regions_all_below by done. simpl.
    assert (length cov <> 0%nat) by (by destruct cov).
    destruct (Z.eqb_spec (Z.of_nat (length cov - 1) + 1)
                (Z.of_nat (length cov))); [done|lia].
  - by rewrite find_empty_regions_all_above.
Qed.

Lemma find_transcribed_regions_uniform_witness :
  find_transcribed_regions [0; 0; 0]%Q (1 # 1000000) = Some []
  /\ find_transcribed_regions [2; 5; 1]%Q (1 # 1000000) = Some [[0; 2]].
Proof.
  split.
  - apply (find_transcribed_regions_uniform [0; 0; 0]%Q (1 # 1000000));
      [discriminate|]. repeat constructor.
  - apply (find_transcribed_regions_uniform [2; 5; 1]%Q (1 # 1000000));
      [discriminate|]. repeat constructor; discriminate.
Defined.

(** C3 as stated fails: three positions without evidence give no region,
    not the region [[0, 2]]. *)
Lemma find_transcribed_regions_no_evidence :
  Forall (fun c => (c < 1 # 1000000)%Q) [0; 0; 0]%Q
  /\ find_transcribed_regions [0; 0; 0]%Q (1 # 1000000) = Some []
  /\ find_transcribed_regions [0; 0; 0]%Q (1 # 1000000) <> Some [[0; 2]].
Proof. repeat split; [repeat constructor..|discriminate]. Qed.

(** ** Exons from exon segments *)

Example build_exons_sample :
  build_exons_from_exon_segments 0 1000 sample_segments
  = Some [ {| te_start := 0; te_stop := 9; te_type := "TSS_EXON";
              te_fpkm := 5 |};
           {| te_start := 0; te_stop := 29; te_type := "SE_GENE";
              te_fpkm := 2 |};
           {| te_start := 20; te_stop := 29; te_type := "TES_EXON";
              te_fpkm := 4 |} ].
Proof. reflexivity. Qed.

Lemma fold_min_le xs : forall best,
  let m := fold_left (fun best y => if Qle_bool best y then best else y)
             xs best in
  (m <= best)%Q /\ forall y, In y xs -> (m <= y)%Q.
Proof.
  induction xs as [|x xs IH]; intros best; simpl.
  - split; [apply Qle_refl|intros _ []].
  - destruct (IH (if Qle_bool best x then best else x)) as [Hb Hall].
    destruct (Qle_bool best x) eqn:E.
    + apply Qle_bool_iff in E. split; [done|].
      intros y [<-|Hy]; [by eapply Qle_trans|by apply Hall].
    + assert (x <= best)%Q.
      { apply Qlt_le_weak, Qnot_le_lt. intros H%Qle_bool_iff. congruence. }
      split; [by eapply Qle_trans|].
      intros y [<-|Hy]; [done|by apply Hall].
Qed.

Lemma py_min_le xs m :
  py_min xs = Some m -> forall x, In x xs -> (m <= x)%Q.
Proof.
  destruct xs as [|x0 xs]; [done|]. intros [= <-] x.
  destruct (fold_min_le xs x0) as [H0 Hall].
  intros [<-|Hx]; [done|by apply Hall].
Qed.

Lemma mapM_In {A B} (f : A -> option B) l k y :
  mapM f l = Some k -> In y k -> exists x, In x l /\ f x = Some y.
Proof.
  intros H%mapM_Some_1. induction H as [|x y' l k Hxy _ IH]; [intros []|].
  intros [<-|Hy].
  - exists x. split; [by left|done].
  - destruct (IH Hy) as (x' & ? & ?). exists x'. split; [by right|done].
Qed.

Lemma drop_cons_inv {A} (l : list A) n x rest :
  drop n l = x :: rest -> l !! n = Some x /\ drop (S n) l = rest.
Proof.
  intros H. assert (l !! n = Some x) as Hn.
  { rewrite <- (Nat.add_0_r n), <- lookup_drop, H. done. }
  split; [done|]. apply drop_S in Hn. congruence.
Qed.

Lemma exons_of_run_spec segs i j start_segment start_label stop_segment here :
  segs !! i = Some start_segment -> segs !! j = Some stop_segment ->
  (i <= j)%nat ->
  exons_of_run segs i j start_segment start_label stop_segment = Some here ->
  forall e, In e here -> run_exon segs i j e.
Proof.
  intros Hi Hj Hij Hrun e He. unfold exons_of_run in Hrun.
  destruct (mapM_In _ _ _ _ Hrun He) as (stop_label & _ & Hmk).
  apply bind_Some in Hmk as (m & Hm & Hmk).
  apply bind_Some in Hmk as (ty & _ & Hmk).
  unfold new_TranscriptElement in Hmk. case_match; [|done].
  injection Hmk as <-. exists start_segment, stop_segment. by repeat split.
Qed.

Lemma exons_from_spec MIN RATIO mx segs i start_segment start_label rest :
  forall j out,
  segs !! i = Some start_segment -> (i <= j)%nat -> drop j segs = rest ->
  exons_from MIN RATIO mx segs i start_segment start_label j rest = Some out ->
  forall e, In e out -> exists j', run_exon segs i j' e.
Proof.
  induction rest as [|stop_segment rest IH]; intros j out Hi Hij Hdrop.
  { intros [= <-] e []. }
  apply drop_cons_inv in Hdrop as [Hj Hdrop]. simpl.
  repeat case_match; try by intros [= <-] e [].
  intros (here & Hhere & (later & Hlater & [= <-])%bind_Some)%bind_Some e.
  intros [He|He]%in_app_iff.
  - exists j. by eapply exons_of_run_spec.
  - eapply (IH (S j)); eauto with lia.
Qed.

Lemma exons_starting_spec MIN RATIO mx segs rest : forall i out,
  drop i segs = rest ->
  exons_starting MIN RATIO mx segs i rest = Some out ->
  forall e, In e out -> exists i' j', run_exon segs i' j' e.
Proof.
  induction rest as [|start_segment rest IH]; intros i out Hdrop.
  { intros [= <-] e []. }
  pose proof Hdrop as Hdrop0.
  apply drop_cons_inv in Hdrop as [Hi Hdrop]. simpl.
  intros (here & Hhere & (later & Hlater & [= <-])%bind_Some)%bind_Some e.
  intros [He|He]%in_app_iff.
  - apply in_concat in He as (part & Hpart & He).
    destruct (mapM_In _ _ _ _ Hhere Hpart) as (start_label & _ & Hfrom).
    exists i. eapply exons_from_spec; eauto.
  - by eapply (IH (S i)).
Qed.

Lemma fold_min_In xs : forall best,
  let m := fold_left (fun best y => if Qle_bool best y then best else y)
             xs best in
  m = best \/ In m xs.
Proof.
  induction xs as [|x xs IH]; intros best; simpl; [by left|].
  destruct (IH (if Qle_bool best x then best else x)) as [->|H];
    [|by right; right].
  destruct (Qle_bool best x); [by left|by right; left].
Qed.

Lemma py_min_In xs m : py_min xs = Some m -> In m xs.
Proof.
  destruct xs as [|x0 xs]; [done|]. intros [= <-].
  destruct (fold_min_In xs x0) as [->|H]; [by left|by right].
Qed.

Lemma slice_lookup {A} (l : list A) i j k x :
  slice i (j + 1) l !! k = Some x ->
  (i <= i + k <= j)%nat /\ l !! (i + k)%nat = Some x.
Proof.
  unfold slice. intros H.
  apply lookup_take_Some in H as [H Hk]. rewrite lookup_drop in H.
  split; [lia|done].
Qed.

Lemma py_min_of_run segs i j m :
  (i <= j)%nat ->
  py_min (map fpkm (slice i (j + 1) segs)) = Some m ->
  minimum_of_run segs i j m.
Proof.
  intros Hij Hmin. split.
  - intros k seg_k Hk Hseg. eapply py_min_le; [done|].
    apply in_map, list_elem_of_In, list_elem_of_lookup.
    exists (k - i)%nat. unfold slice.
    rewrite lookup_take_lt by lia. rewrite lookup_drop. rewrite <- Hseg.
    f_equal. lia.
  - apply py_min_In, in_map_iff in Hmin as (seg & Hf & Hin).
    apply list_elem_of_In, list_elem_of_lookup in Hin as [k Hk].
    apply slice_lookup in Hk as [Hk Hseg].
    exists (i + k)%nat, seg. done.
Qed.

(** C5: every exon that [build_exons_from_exon_segments] produces is
    assembled from a run of consecutive segments [i..j], and the [fpkm]
    it records is the minimum [fpkm] over segments [i] through [j]: it is
    the [fpkm] of one of these segments, and no segment of the run has a
    smaller one. *)
Theorem build_exons_fpkm_is_run_minimum MIN RATIO segs exons :
  build_exons_from_exon_segments MIN RATIO segs = Some exons ->
  forall e, In e exons ->
  exists i j,
    run_exon segs i j e /\ minimum_of_run segs i j (te_fpkm e).
Proof.
  unfold build_exons_from_exon_segments.
  intros (mx & _ & (? & _ & Hout)%bind_Some)%bind_Some e He.
  destruct (exons_starting_spec _ _ _ _ _ 0%nat _ eq_refl Hout e He)
    as (i & j & Hrun).
  exists i, j. split; [done|].
  destruct Hrun as (_ & _ & _ & _ & Hij & _ & _ & Hmin).
  by apply py_min_of_run.
Qed.

Lemma build_exons_fpkm_is_run_minimum_witness :
  let e := {| te_start := 0; te_stop := 29; te_type := "SE_GENE";
              te_fpkm := 2 |} in
  exists i j,
    run_exon sample_segments i j e
    /\ minimum_of_run sample_segments i j (te_fpkm e).
Proof.
  apply (build_exons_fpkm_is_run_minimum 0 1000 sample_segments _ eq_refl).
  right; left; reflexivity.
Defined.

(** ** Exon assembly always succeeds on well-formed segments *)

Lemma label_in_start l :
  label_in l EXON_START_LABELS = true -> l = "TSS"%string \/ l = "R_JN"%string.
Proof.
  unfold label_in, EXON_START_LABELS. simpl.
  rewrite !orb_true_iff, !String.eqb_eq.
  intros [?|[?|?]]; [by left|by right|done].
Qed.

Lemma label_in_stop l :
  label_in l EXON_STOP_LABELS = true -> l = "TES"%string \/ l = "D_JN"%string.
Proof.
  unfold label_in, EXON_STOP_LABELS. simpl.
  rewrite !orb_true_iff, !String.eqb_eq.
  intros [?|[?|?]]; [by left|by right|done].
Qed.

Lemma determine_exon_type_is_Some l r :
  label_in l EXON_START_LABELS = true -> label_in r EXON_STOP_LABELS = true ->
  is_Some (determine_exon_type l r).
Proof.
  intros [-> | ->]%label_in_start [-> | ->]%label_in_stop; by eexists.
Qed.

Section ExonsTotal.
Variables (MIN RATIO mx : Q) (segs : list SegmentBin).
Hypothesis segs_ordered : forall i j seg_i seg_j, (i <= j)%nat ->
  segs !! i = Some seg_i -> segs !! j = Some seg_j ->
  seg_start seg_i <= seg_stop seg_j.

Lemma exons_of_run_is_Some i j seg_i start_label seg_j :
  (i <= j)%nat -> segs !! i = Some seg_i -> segs !! j = Some seg_j ->
  label_in start_label EXON_START_LABELS = true ->
  is_Some (exons_of_run segs i j seg_i start_label seg_j).
Proof.
  intros Hij Hi Hj Hstart. unfold exons_of_run. apply mapM_is_Some_2.
  apply List.Forall_forall. intros stop_label [_ Hstop]%filter_In. simpl.
  destruct (py_min (map fpkm (slice i (j + 1) segs))) as [m|] eqn:Hmin; simpl.
  - destruct (determine_exon_type_is_Some _ _ Hstart Hstop) as [ty ->]. simpl.
    unfold new_TranscriptElement.
    destruct (Z.leb_spec 0 (seg_stop seg_j - seg_start seg_i)); [by eexists|].
    pose proof (segs_ordered i j _ _ Hij Hi Hj). lia.
  - exfalso. unfold slice in Hmin.
    apply lookup_lt_Some in Hj. apply lookup_lt_Some in Hi.
    destruct (drop i segs) as [|x l] eqn:Hd.
    { apply (f_equal length) in Hd. rewrite length_drop in Hd. simpl in Hd. lia. }
    by replace (j + 1 - i)%nat with (S (j - i)) in Hmin by lia.
Qed.

Lemma exons_from_is_Some i seg_i start_label rest : forall j,
  (i <= j)%nat -> segs !! i = Some seg_i -> drop j segs = rest ->
  label_in start_label EXON_START_LABELS = true ->
  is_Some (exons_from MIN RATIO mx segs i seg_i start_label j rest).
Proof.
  induction rest as [|seg_j rest IH]; intros j Hij Hi Hdrop Hstart; simpl.
  { by eexists. }
  apply drop_cons_inv in Hdrop as [Hj Hdrop].
  repeat case_match; try by eexists.
  destruct (exons_of_run_is_Some i j seg_i start_label seg_j) as [here ->];
    [done..|]. simpl.
  destruct (IH (S j)) as [later ->]; [lia|done..|]. by eexists.
Qed.

Lemma exons_starting_is_Some rest : forall i,
  drop i segs = rest -> is_Some (exons_starting MIN RATIO mx segs i rest).
Proof.
  induction rest as [|seg_i rest IH]; intros i Hdrop.
  { by eexists. }
  pose proof Hdrop as Hdrop0. apply drop_cons_inv in Hdrop as [Hi Hdrop].
  cbn [exons_starting].
  match goal with
  | |- is_Some (mapM ?f ?l ≫= _) =>
      assert (is_Some (mapM f l)) as [here ->]
  end.
  { apply mapM_is_Some_2, List.Forall_forall.
    intros start_label [_ Hstart]%filter_In.
    by apply (exons_from_is_Some i seg_i start_label (seg_i :: rest) i). }
  cbn [mbind option_bind]. destruct (IH (S i) Hdrop) as [later ->].
  by eexists.
Qed.

End ExonsTotal.

(** On a non-empty list of segments laid out in order the function
    returns a list of exons. *)
Lemma build_exons_from_exon_segments_total MIN RATIO segs :
  segs <> [] ->
  (forall i j seg_i seg_j, (i <= j)%nat ->
     segs !! i = Some seg_i -> segs !! j = Some seg_j ->
     seg_start seg_i <= seg_stop seg_j) ->
  is_Some (build_exons_from_exon_segments MIN RATIO segs).
Proof.
  intros Hne Hord. unfold build_exons_from_exon_segments.
  destruct (py_max (map fpkm_lb segs)) as [mx|] eqn:Hmx;
    [|by destruct segs].
  destruct (py_max (map fpkm segs)) as [mx'|] eqn:Hmx';
    [|by destruct segs].
  cbn [mbind option_bind]. by apply exons_starting_is_Some.
Qed.

(** ** The splice graph *)

Example splice_graph_three_segments :
  let bnds := segment_bnds "+" 0 29 [(10, 19)] [] [] in
  bnds = [0; 10; 20; 30]
  /\ elements (edges (build_splice_graph bnds [(10, 19)]))
     ≡ₚ [(0, 2); (0, 1); (1, 2)].
Proof. split; vm_compute; [done|]. apply Permutation_refl. Qed.

Lemma edges_add_edges_from es : forall g,
  edges (add_edges_from g es) = edges g ∪ list_to_set es.
Proof.
  unfold add_edges_from.
  induction es as [|[u v] es IH]; intros g; simpl;
    [by rewrite union_empty_r_L|].
  rewrite IH. simpl. by rewrite <- (assoc_L (∪)).
Qed.

Lemma edges_junction_loop bnds jns : forall g,
  edges (fold_left
           (fun g '(start, stop) =>
              let start_i := searchsorted bnds start - 1 in
              let stop_i := searchsorted bnds (stop + 1) - 1 + 1 in
              add_edge g start_i stop_i) jns g)
  = edges g
    ∪ list_to_set
        ((fun jn => (searchsorted bnds (fst jn) - 1,
                     searchsorted bnds (snd jn + 1) - 1 + 1)) <$> jns).
Proof.
  induction jns as [|[start stop] jns IH]; intros g; simpl;
    [by rewrite union_empty_r_L|].
  rewrite IH. simpl. by rewrite <- (assoc_L (∪)).
Qed.

Lemma elem_of_adjacent_pairs n a b :
  (a, b) ∈ zip (xrange 0 (n - 1)) (xrange 1 n) <-> adjacency_edge n a b.
Proof.
  unfold xrange, adjacency_edge. rewrite elem_of_lookup_zip_with. split.
  - intros (i & x & y & [= -> ->] & Hx%lookup_seqZ & Hy%lookup_seqZ). lia.
  - intros (Ha & -> & Hn). exists (Z.to_nat a), a, (a + 1).
    split; [done|]. rewrite !lookup_seqZ. lia.
Qed.

(** Edges of the graph, by position in [segment_bnds]. *)
Lemma build_splice_graph_edges bnds jns a b :
  (a, b) ∈ edges (build_splice_graph bnds jns)
  <-> adjacency_edge (Z.of_nat (length bnds) - 1) a b
      \/ exists start stop, (start, stop) ∈ jns
           /\ a = searchsorted bnds start - 1
           /\ b = searchsorted bnds (stop + 1).
Proof.
  unfold build_splice_graph. rewrite edges_junction_loop.
  rewrite edges_add_edges_from. simpl.
  rewrite !elem_of_union, !elem_of_list_to_set, elem_of_adjacent_pairs.
  rewrite list_elem_of_fmap. split.
  - intros [[[]%elem_of_empty|?]|([start stop] & [= -> ->] & Hjn)]; [by left|].
    right. exists start, stop. simpl. split; [done|]. lia.
  - intros [?|(start & stop & Hjn & -> & ->)]; [by left; right|].
    right. exists (start, stop). simpl. split; [f_equal; lia|done].
Qed.

Lemma fold_left_union_grows {A} (step : gset Z -> A -> gset Z) l :
  (forall b x, b ⊆ step b x) -> forall b, b ⊆ fold_left step l b.
Proof.
  intros Hstep. induction l as [|x l IH]; intros b; simpl; [done|].
  etrans; [apply (Hstep b x)|apply IH].
Qed.

Lemma fold_left_union_adds {A} (step : gset Z -> A -> gset Z) (v : A -> Z) l :
  (forall b x, b ⊆ step b x) -> (forall b x, v x ∈ step b x) ->
  forall b x, x ∈ l -> v x ∈ fold_left step l b.
Proof.
  intros Hstep Hv. induction l as [|y l IH]; intros b x Hx; simpl.
  - by apply elem_of_nil in Hx.
  - apply elem_of_cons in Hx as [->|Hx]; [|by apply IH].
    by apply (fold_left_union_grows step l Hstep), Hv.
Qed.

Lemma elem_of_sorted_elements s v : v ∈ sorted_elements s <-> v ∈ s.
Proof.
  unfold sorted_elements. by rewrite merge_sort_Permutation, elem_of_elements.
Qed.

Lemma StronglySorted_le_lt (l : list Z) :
  StronglySorted Z.le l -> NoDup l -> StronglySorted Z.lt l.
Proof.
  induction 1 as [|x l Hs IH Hall]; intros Hnd; constructor.
  - apply IH. by apply NoDup_cons in Hnd as [_ ?].
  - apply NoDup_cons in Hnd as [Hx _].
    rewrite Forall_forall in *. intros y Hy.
    specialize (Hall y Hy). assert (x <> y) by (intros ->; done). lia.
Qed.

Lemma sorted_elements_sorted s : StronglySorted Z.lt (sorted_elements s).
Proof.
  apply StronglySorted_le_lt.
  - apply (StronglySorted_merge_sort Z.le).
  - unfold sorted_elements. rewrite merge_sort_Permutation.
    apply NoDup_elements.
Qed.

Lemma searchsorted_lookup (l : list Z) : forall k v,
  StronglySorted Z.lt l -> l !! k = Some v -> searchsorted l v = Z.of_nat k.
Proof.
  induction l as [|x l IH]; intros k v Hs Hk; [done|].
  apply StronglySorted_inv in Hs as [Hs Hall]. simpl.
  destruct k as [|k]; simpl in Hk.
  - injection Hk as ->. by rewrite Z.ltb_irrefl.
  - rewrite Forall_forall in Hall.
    assert (x < v) as Hlt by (eapply Hall, list_elem_of_lookup_2; done).
    apply Z.ltb_lt in Hlt as ->. rewrite (IH k v Hs Hk). lia.
Qed.

Lemma sorted_lookup_lt (l : list Z) : forall i j u v,
  StronglySorted Z.lt l -> l !! i = Some u -> l !! j = Some v ->
  (i < j)%nat -> u < v.
Proof.
  induction l as [|x l IH]; intros i j u v Hs Hi Hj Hij; [done|].
  apply StronglySorted_inv in Hs as [Hs Hall].
  destruct j as [|j]; [lia|]. simpl in Hj. destruct i as [|i]; simpl in Hi.
  - injection Hi as ->. rewrite Forall_forall in Hall.
    eapply Hall, list_elem_of_lookup_2; done.
  - eapply (IH i j); eauto with lia.
Qed.

Lemma sorted_lookup_index_lt (l : list Z) i j u v :
  StronglySorted Z.lt l -> l !! i = Some u -> l !! j = Some v ->
  u < v -> (i < j)%nat.
Proof.
  intros Hs Hi Hj Huv. destruct (decide (i < j)%nat) as [|Hge]; [done|].
  destruct (decide (i = j)) as [->|]; [rewrite Hi in Hj; injection Hj; lia|].
  assert (v < u) by (eapply (sorted_lookup_lt l j i); eauto with lia). lia.
Qed.

Section SpliceGraph.
Variables (gene_strand : string) (gene_start gene_stop : Z).
Variables (jns tss_regions tes_regions : list interval).

Let bnds :=
  segment_bnds gene_strand gene_start gene_stop jns tss_regions tes_regions.

Lemma segment_bnds_sorted : StronglySorted Z.lt bnds.
Proof. apply sorted_elements_sorted. Qed.

Lemma segment_bnds_gene : gene_start ∈ bnds /\ gene_stop + 1 ∈ bnds.
Proof.
  unfold bnds, segment_bnds. rewrite !elem_of_sorted_elements.
  split; do 3 (eapply fold_left_union_grows;
    [intros b [??]; set_solver|]); set_solver.
Qed.

Lemma segment_bnds_junction start stop :
  (start, stop) ∈ jns -> start ∈ bnds /\ stop + 1 ∈ bnds.
Proof.
  intros Hjn. unfold bnds, segment_bnds. rewrite !elem_of_sorted_elements.
  split; do 2 (eapply fold_left_union_grows; [intros b [??]; set_solver|]).
  - apply (fold_left_union_adds _ fst _) with (x := (start, stop));
      [intros b [??]; set_solver..|done].
  - apply (fold_left_union_adds _ (fun jn => snd jn + 1) _)
      with (x := (start, stop)); [intros b [??]; set_solver..|done].
Qed.

(** C4, as amended: when every junction is a well-formed interval lying
    strictly inside the gene region, the edges of the splice graph over
    the [n] segments are exactly the default edges from each segment to its
    immediate successor together with, for each junction [(start, stop)],
    the edge from the segment ending where the junction starts to the
    segment beginning at [stop + 1]; and every edge runs between two of
    the [n] segments, from the lower index to the higher one. *)
Theorem splice_graph_edge_set :
  (forall start stop, (start, stop) ∈ jns ->
     gene_start < start /\ start <= stop /\ stop < gene_stop) ->
  let n := Z.of_nat (length bnds) - 1 in
  forall a b,
    ((a, b) ∈ edges (build_splice_graph bnds jns)
     <-> adjacency_edge n a b \/ junction_edge bnds jns a b)
    /\ ((a, b) ∈ edges (build_splice_graph bnds jns) ->
        0 <= a /\ a < b /\ b < n).
Proof.
  intros Hjns n a b.
  pose proof segment_bnds_sorted as Hs.
  assert (forall start stop, (start, stop) ∈ jns ->
    exists ks ke : nat,
      bnds !! ks = Some start /\ bnds !! ke = Some (stop + 1)
      /\ (1 <= ks < ke)%nat /\ (ke + 1 < length bnds)%nat) as Hpos.
  { intros start stop Hjn.
    destruct (Hjns _ _ Hjn) as (Hgs & Hse & Hge).
    destruct (segment_bnds_junction _ _ Hjn)
      as [[ks Hks]%list_elem_of_lookup [ke Hke]%list_elem_of_lookup].
    destruct segment_bnds_gene
      as [[kg Hkg]%list_elem_of_lookup [kG HkG]%list_elem_of_lookup].
    exists ks, ke. repeat split; try done.
    - assert (kg < ks)%nat by (eapply sorted_lookup_index_lt; eauto). lia.
    - eapply sorted_lookup_index_lt; eauto with lia.
    - assert (ke < kG)%nat by (eapply sorted_lookup_index_lt; eauto with lia).
      apply lookup_lt_Some in HkG. lia. }
  assert ((a, b) ∈ edges (build_splice_graph bnds jns)
          <-> adjacency_edge n a b \/ junction_edge bnds jns a b) as Hiff.
  { rewrite build_splice_graph_edges. fold n. apply or_iff_compat_l. split.
    - intros (start & stop & Hjn & -> & ->).
      destruct (Hpos _ _ Hjn) as (ks & ke & Hks & Hke & Hk & Hlen).
      rewrite (searchsorted_lookup _ _ _ Hs Hks).
      rewrite (searchsorted_lookup _ _ _ Hs Hke).
      destruct (lookup_lt_is_Some_2 bnds (ks - 1)) as [u Hu];
        [apply lookup_lt_Some in Hks; lia|].
      destruct (lookup_lt_is_Some_2 bnds (ke + 1)) as [w Hw]; [lia|].
      exists start, stop, (u, start - 1), (stop + 1, w - 1).
      unfold segment. repeat split; try done; simpl; try lia.
      + destruct (Z.leb_spec 0 (Z.of_nat ks - 1)); [|lia].
        replace (Z.to_nat (Z.of_nat ks - 1)) with (ks - 1)%nat by lia.
        replace (Z.to_nat (Z.of_nat ks - 1 + 1)) with ks by lia.
        by rewrite Hu, Hks.
      + destruct (Z.leb_spec 0 (Z.of_nat ke)); [|lia].
        replace (Z.to_nat (Z.of_nat ke + 1)) with (ke + 1)%nat by lia.
        by rewrite Nat2Z.id, Hke, Hw.
    - intros (start & stop & [u u'] & [w w'] & Hjn & Ha & Hu & Hb & Hw).
      exists start, stop. split; [done|]. unfold segment in Ha, Hb.
      simpl in Hu, Hw. subst start w.
      destruct (Z.leb_spec 0 a); [|done]. destruct (Z.leb_spec 0 b); [|done].
      apply bind_Some in Ha as (? & _ & (x & Hx & [= _ <-])%bind_Some).
      apply bind_Some in Hb as (y & Hy & (? & _ & [= <- _])%bind_Some).
      replace (x - 1 + 1) with x by lia.
      rewrite (searchsorted_lookup _ _ _ Hs Hx).
      rewrite (searchsorted_lookup _ _ _ Hs Hy). lia. }
  split; [done|]. rewrite build_splice_graph_edges. fold n.
  intros [(? & -> & ?)|(start & stop & Hjn & -> & ->)]; [lia|].
  destruct (Hpos _ _ Hjn) as (ks & ke & Hks & Hke & Hk & Hlen).
  rewrite (searchsorted_lookup _ _ _ Hs Hks).
  rewrite (searchsorted_lookup _ _ _ Hs Hke). unfold n. lia.
Qed.

End SpliceGraph.

Lemma splice_graph_edge_set_witness :
  let bnds := segment_bnds "+" 0 29 [(10, 19)] [] [] in
  let n := Z.of_nat (length bnds) - 1 in
  ((0, 2) ∈ edges (build_splice_graph bnds [(10, 19)])
   <-> adjacency_edge n 0 2 \/ junction_edge bnds [(10, 19)] 0 2)
  /\ ((0, 2) ∈ edges (build_splice_graph bnds [(10, 19)]) ->
      0 <= 0 /\ 0 < 2 /\ 2 < n).
Proof.
  apply (splice_graph_edge_set "+" 0 29 [(10, 19)] [] []).
  intros start stop [= -> ->]%list_elem_of_singleton. lia.
Defined.

(** C4 as stated fails for a junction that is not inside the gene
    region, which nothing in the function excludes: for the gene [10, 29]
    and the junction [(5, 19)] the boundaries are 5, 10, 20 and 30, no
    segment ends where the junction starts, and the edge added for the
    junction leaves from [-1], which is none of the three segments; it is
    neither a default edge nor an edge between the two segments the
    claim names. *)
Lemma splice_graph_junction_outside_gene :
  let bnds := segment_bnds "+" 10 29 [(5, 19)] [] [] in
  let n := Z.of_nat (length bnds) - 1 in
  bnds = [5; 10; 20; 30]
  /\ (-1, 2) ∈ edges (build_splice_graph bnds [(5, 19)])
  /\ segment bnds (-1) = None
  /\ ~ (adjacency_edge n (-1) 2 \/ junction_edge bnds [(5, 19)] (-1) 2).
Proof.
  assert (segment_bnds "+" 10 29 [(5, 19)] [] [] = [5; 10; 20; 30]) as Hb
    by (vm_compute; reflexivity).
  cbv zeta. rewrite Hb. split; [done|]. split; [|split; [done|]].
  - apply build_splice_graph_edges. right. exists 5, 19.
    split; [by apply list_elem_of_singleton|]. by vm_compute.
  - intros [(Ha & _)|(start & stop & seg_a & _ & _ & Ha & _)]; [lia|done].
Qed.

(** ** FPKM conversion *)

Lemma fdiv_nonzero x y : ~ (y == 0)%Q -> fdiv x y = Some (x / y)%Q.
Proof.
  intros Hy. unfold fdiv. destruct (Qeq_bool y 0) eqn:E; [|done].
  by apply Qeq_bool_iff in E.
Qed.







(** Over the rationals the expression that the code evaluates and the
    stated formula are the same number when [N] is not zero: in doubles
    they differ by the rounding of each operation only. *)
Lemma fpkm_expression_over_the_rationals (q freq : Q) (N L : Z) :
  N <> 0 -> L <> 0 ->
  (inject_Z N * q * freq / (inject_Z L / 1000) / (inject_Z N / 1000000)
   == 1000000 * (q * freq) / (inject_Z L / 1000))%Q.
Proof.
  intros HN HL.
  assert (~ (inject_Z N == 0)%Q) by (unfold Qeq; simpl; lia).
  assert (~ (inject_Z L == 0)%Q) by (unfold Qeq; simpl; lia).
  field. repeat split; done.
Qed.




(** With no read mapped at all the value is a NaN, whereas the stated
    formula gives 500000 (the 0.5 quantile of Beta(1,1) is 0.5). *)
Example calc_fpkm_no_mapped_reads :
  let gene := {| gene_id := "G1"; chrm := "2L"; g_strand := "+";
                 g_min := 0; g_max := 999;
                 transcripts := [sample_transcript "G1_0" [(0, 999)]] |} in
  calc_fpkm (fun q _ _ => q) gene [1%float] 0 0 0.5 = [nan]
  /\ fpkm_formula (fun q _ _ => q) 0.5 0 0 1 1000 = 500000%float.
Proof. split; by vm_compute. Qed.

(** ** Assembly output: the score *)

(** The loop writes one item per retained transcript, and the [j]-th item
    is computed with [index - n_skipped_ts = j]. *)
Lemma observable_loop_lookup {A} (body : Transcript -> nat -> option A) unobs ts :
  forall index n_skipped out,
  (n_skipped <= index)%nat ->
  observable_loop body unobs index n_skipped ts = Some out ->
  length out = length (retained_from unobs index ts)
  /\ forall j x, out !! j = Some x ->
       exists t, retained_from unobs index ts !! j = Some t
                 /\ body t (index - n_skipped + j)%nat = Some x.
Proof.
  induction ts as [|t ts IH]; intros index n_skipped out Hle; simpl.
  { intros [= <-]. split; [done|]. intros j x Hj. done. }
  destruct (decide (index ∈ unobs)).
  - intros Hloop. destruct (IH (S index) (S n_skipped) out) as [Hlen Hall];
      [lia|done|]. split; [done|]. intros j x Hj.
    destruct (Hall j x Hj) as (t' & ? & ?). exists t'. split; [done|].
    by replace (index - n_skipped + j)%nat
      with (S index - S n_skipped + j)%nat by lia.
  - intros (here & Hhere & (later & Hlater & [= <-])%bind_Some)%bind_Some.
    destruct (IH (S index) n_skipped later) as [Hlen Hall]; [lia|done|].
    split; [simpl; by f_equal|]. intros [|j] x Hj; simpl in Hj.
    + injection Hj as <-. exists t. split; [done|]. by rewrite Nat.add_0_r.
    + destruct (Hall j x Hj) as (t' & ? & ?). exists t'. split; [done|].
      by replace (index - n_skipped + S j)%nat
        with (S index - n_skipped + j)%nat by lia.
Qed.

Lemma observable_loop_is_Some {A} (body : Transcript -> nat -> option A)
  unobs ts : forall index n_skipped,
  (n_skipped <= index)%nat ->
  (forall t k,
     (k < index - n_skipped + length (retained_from unobs index ts))%nat ->
     is_Some (body t k)) ->
  is_Some (observable_loop body unobs index n_skipped ts).
Proof.
  induction ts as [|t ts IH]; intros index n_skipped Hle Hbody; simpl.
  { by eexists. }
  simpl in Hbody. destruct (decide (index ∈ unobs)).
  - apply IH; [lia|]. intros t' k Hk. apply Hbody. lia.
  - destruct (Hbody t (index - n_skipped)%nat) as [here ->]; [simpl; lia|].
    simpl. destruct (IH (S index) n_skipped) as [later ->]; [lia| |by eexists].
    intros t' k Hk. apply Hbody. simpl. lia.
Qed.

Lemma fold_max_ge xs : forall best,
  (best <= fold_left (fun best y => if Qle_bool y best then best else y)
             xs best)%Q.
Proof.
  induction xs as [|x xs IH]; intros best; simpl; [apply Qle_refl|].
  destruct (Qle_bool x best) eqn:E; [apply IH|].
  eapply Qle_trans; [|apply IH].
  apply Qlt_le_weak, Qnot_le_lt. intros H%Qle_bool_iff. congruence.
Qed.

(** With bound lists that have an entry for every retained transcript and
    a non-negative first lower bound, every record is written. *)
Lemma write_gene_to_gtf_total gene lb lbs ubs unobs :
  (0 <= lb)%Q ->
  (length (observable_transcripts unobs (transcripts gene))
   <= Nat.min (length (lb :: lbs)) (length ubs))%nat ->
  is_Some (write_gene_to_gtf gene None (Some (lb :: lbs)) (Some ubs) None
             unobs).
Proof.
  intros Hlb Hlen. unfold write_gene_to_gtf.
  apply observable_loop_is_Some; [done|]. intros t k Hk.
  unfold observable_transcripts in Hlen.
  destruct (lookup_lt_is_Some_2 (lb :: lbs) k) as [x Hx]; [lia|].
  destruct (lookup_lt_is_Some_2 ubs k) as [ub Hub]; [lia|].
  unfold gtf_record_for, meta_entry. rewrite Hx, Hub. simpl.
  unfold gtf_score, fdiv. cbn [py_max mbind option_bind].
  match goal with |- context [Qeq_bool ?d 0] => destruct (Qeq_bool d 0) eqn:E end;
    [|by eexists].
  apply Qeq_bool_iff in E. exfalso.
  pose proof (fold_max_ge lbs lb) as Hmax.
  assert (0 < (1 # 100000000) + fold_left
                (fun best y => if Qle_bool y best then best else y) lbs lb)%Q
    as Hpos.
  { apply (Qlt_le_trans _ ((1 # 100000000) + 0)); [done|].
    apply Qplus_le_r. by eapply Qle_trans. }
  rewrite E in Hpos. by apply Qlt_irrefl in Hpos.
Qed.


Lemma sample_gtf_records_written :
  write_gene_to_gtf sample_gene None (Some [10; 1]%Q)
    (Some [9 # 10; 3 # 5]%Q) None {[1%nat]}
  = Some sample_gtf_records.
Proof. vm_compute. reflexivity. Qed.



(** ** Abundance-tracking output *)

(** One line per retained transcript, with the arrays read at the
    position among the retained transcripts. *)
Lemma tracking_lines_per_observable fmt_2e calc_length gene lbs ubs fpkms
  unobs lines :
  tracking_lines fmt_2e calc_length gene lbs ubs fpkms unobs = Some lines ->
  length lines = length (observable_transcripts unobs (transcripts gene))
  /\ forall j line, lines !! j = Some line ->
       exists t,
         observable_transcripts unobs (transcripts gene) !! j = Some t
         /\ tracking_line_for fmt_2e calc_length gene lbs ubs fpkms t j
            = Some line.
Proof.
  intros H. apply observable_loop_lookup in H as [Hlen Hall]; [|done].
  split; [done|]. intros j line Hj.
  destruct (Hall j line Hj) as (t & ? & ?). by exists t.
Qed.

Lemma set_formatted_lookup_other fmt_2e i xs k line line' j :
  set_formatted fmt_2e i xs k line = Some line' -> i <> j ->
  line' !! j = line !! j.
Proof.
  unfold set_formatted. destruct xs as [xs|]; [|by intros [= <-]].
  intros (x & _ & [= <-])%bind_Some Hne. by apply list_lookup_insert_ne.
Qed.

(** Where the identifiers of a line end up, under the declared header. *)
Lemma tracking_line_layout fmt_2e calc_length gene lbs ubs fpkms t k line :
  tracking_line_for fmt_2e calc_length gene lbs ubs fpkms t k = Some line ->
  cell_under "tracking_id" line = Some (gene_id gene)
  /\ cell_under "gene_id" line = Some "-"%string
  /\ cell_under "tss_id" line = Some (trans_id t)
  /\ cell_under "length" line = Some (str_int (calc_length t))
  /\ cell_under "FPKM_status" line = Some "OK"%string.
Proof.
  unfold tracking_line_for.
  intros (l1 & H1 & (l2 & H2 & H3)%bind_Some)%bind_Some.
  unfold cell_under. simpl.
  repeat split;
    (erewrite (set_formatted_lookup_other _ _ _ _ _ _ _ H3) by done;
     erewrite (set_formatted_lookup_other _ _ _ _ _ _ _ H2) by done;
     erewrite (set_formatted_lookup_other _ _ _ _ _ _ _ H1) by done;
     reflexivity).
Qed.

(** C8 fails on the code: for a gene [G1] with the single transcript
    [G1_0], the one record written has the gene identifier under the header
    column [tracking_id], a dash under [gene_id], and the transcript
    identifier under [tss_id]. *)
Theorem fpkm_tracking_record_misaligned fmt_2e calc_length :
  let gene := {| gene_id := "G1"; chrm := "2L"; g_strand := "+";
                 g_min := 100; g_max := 599;
                 transcripts := [sample_transcript "G1_0" [(100, 599)]] |} in
  exists line,
    tracking_lines fmt_2e calc_length gene None None None ∅ = Some [line]
    /\ cell_under "tracking_id" line = Some "G1"%string
    /\ cell_under "gene_id" line = Some "-"%string
    /\ cell_under "tss_id" line = Some "G1_0"%string
    /\ cell_under "locus" line = Some "2L:100-599"%string.
Proof. eexists. repeat split. Qed.

(** ** Gene bounds *)

Lemma fold_min_Z_le xs : forall x,
  fold_left Z.min xs x <= x /\ forall y, y ∈ xs -> fold_left Z.min xs x <= y.
Proof.
  induction xs as [|z xs IH]; intros x; simpl.
  - split; [lia|]. intros y Hy. by apply elem_of_nil in Hy.
  - destruct (IH (Z.min x z)) as [H1 H2]. split; [lia|].
    intros y [->|Hy]%elem_of_cons; [lia|by apply H2].
Qed.


Lemma min_Z_le xs m x : min_Z xs = Some m -> x ∈ xs -> m <= x.
Proof.
  destruct xs as [|x0 xs]; [done|]. intros [= <-].
  destruct (fold_min_Z_le xs x0) as [H1 H2].
  intros [->|Hx]%elem_of_cons; [done|by apply H2].
Qed.


Lemma mapM_elem_of_l {A B} (f : A -> option B) l k x :
  mapM f l = Some k -> x ∈ l -> exists y, y ∈ k /\ f x = Some y.
Proof.
  intros H%mapM_Some_1. induction H as [|x' y l k Hxy _ IH].
  - intros Hx. by apply elem_of_nil in Hx.
  - intros [->|Hx]%elem_of_cons.
    + exists y. split; [by left|done].
    + destruct (IH Hx) as (y' & ? & ?). exists y'. split; [by right|done].
Qed.

Lemma mapM_elem_of_r {A B} (f : A -> option B) l k y :
  mapM f l = Some k -> y ∈ k -> exists x, x ∈ l /\ f x = Some y.
Proof.
  intros H%mapM_Some_1. induction H as [|x y' l k Hxy _ IH].
  - intros Hy. by apply elem_of_nil in Hy.
  - intros [->|Hy]%elem_of_cons.
    + exists x. split; [by left|done].
    + destruct (IH Hy) as (x' & ? & ?). exists x'. split; [by right|done].
Qed.













(** ** The gene-expression worker *)

(** C6 fails on the code: a store write that raises while [op_lock] is
    held is reported as an ['ERROR'] unit and the worker returns, but the
    lock is never released; the next stage of any other gene waits for it
    forever. *)
Theorem worker_leaves_op_lock_held :
  let run := estimate_gene_expression_worker faulty_store in
  let '(result, after) := run "mle"%string 7 NoIndex false 0.1%float two_genes_pending in
  result = Returned tt
  /\ input_queue after
     = [ ("mle"%string, Task 8 NoIndex);
         ("ERROR"%string,
          Failure 7 NoIndex "error return without exception set") ]
  /\ op_lock after = true
  /\ fst (run "mle"%string 8 NoIndex false 0.1%float after) = Blocked.
Proof. vm_compute. done. Qed.

Lemma wb_ret {A} (a : A) : well_behaved (mret a).
Proof. intros s Hs. simpl. split; [done|]. exists []. by rewrite app_nil_r. Qed.

Lemma wb_raise {A} e : well_behaved (@raise A e).
Proof. intros s Hs. simpl. split; [done|]. exists []. by rewrite app_nil_r. Qed.

Lemma wb_bind {A B} (m : M A) (k : A -> M B) :
  well_behaved m -> (forall a, well_behaved (k a)) -> well_behaved (m ≫= k).
Proof.
  intros Hm Hk s Hs. unfold mbind, M_bind, bind. specialize (Hm s Hs).
  destruct (m s) as [[a| |] s1]; [|done..].
  destruct Hm as [Hs1 [added1 Hq1]]. specialize (Hk a s1 Hs1).
  destruct (k a s1) as [[b| |] s2]; [| |done];
    destruct Hk as [Hs2 [added2 Hq2]]; (split; [done|]);
    exists (added1 ++ added2); by rewrite Hq2, Hq1, app_assoc.
Qed.

Lemma wb_attempt {A} (m : M A) : well_behaved m -> well_behaved (attempt m).
Proof.
  intros Hm s Hs. unfold attempt. specialize (Hm s Hs).
  by destruct (m s) as [[a| |] s1].
Qed.

Lemma wb_call {A} (r : exn + A) : well_behaved (call r).
Proof. destruct r; [apply wb_raise|apply wb_ret]. Qed.

Lemma wb_unchanged_queue {A} (m : M A) :
  (forall s, input_queue_lock (snd (m s)) = input_queue_lock s
             /\ input_queue (snd (m s)) = input_queue s) ->
  well_behaved m.
Proof.
  intros H s Hs. destruct (H s) as [Hl Hq].
  destruct (m s) as [[a| |] s1]; [| |done]; simpl in *;
    (split; [congruence|]); exists []; by rewrite app_nil_r.
Qed.

Lemma wb_op_lock_acquire : well_behaved op_lock_acquire.
Proof.
  apply wb_unchanged_queue. intros s. unfold op_lock_acquire.
  by destruct (op_lock s).
Qed.

Lemma wb_op_lock_release : well_behaved op_lock_release.
Proof.
  apply wb_unchanged_queue. intros s. unfold op_lock_release.
  by destruct (op_lock s).
Qed.

Lemma wb_store_get gene_id field : well_behaved (store_get gene_id field).
Proof.
  apply wb_unchanged_queue. intros s. unfold store_get.
  by destruct (output s !! (gene_id, field)).
Qed.

Lemma wb_store_set fault gene_id field v :
  well_behaved (store_set fault gene_id field v).
Proof.
  apply wb_unchanged_queue. intros s. unfold store_set.
  by destruct (fault (gene_id, field)).
Qed.

Lemma wb_queue_append queue_fault w :
  (forall w, queue_fault w = None) -> well_behaved (queue_append queue_fault w).
Proof.
  intros Hq s Hs. unfold queue_append. rewrite Hq. simpl.
  split; [done|]. by exists [w].
Qed.

Lemma wb_locked_appends (ws : list work) (m : M unit) :
  (forall s, m s = (Returned tt,
                    {| input_queue := input_queue s ++ ws;
                       output := output s; op_lock := op_lock s;
                       input_queue_lock := input_queue_lock s |})) ->
  well_behaved (input_queue_lock_acquire;; m;; input_queue_lock_release).
Proof.
  intros Hm s Hs.
  unfold mbind, M_bind, bind, input_queue_lock_acquire. rewrite Hs, Hm.
  simpl. split; [done|]. by exists ws.
Qed.

Lemma wb_report_error queue_fault gene_id trans_index msg :
  (forall w, queue_fault w = None) ->
  well_behaved (report_error queue_fault gene_id trans_index msg).
Proof.
  intros Hq.
  apply (wb_locked_appends
           [("ERROR"%string, Failure gene_id trans_index msg)]).
  intros s. unfold queue_append. by rewrite Hq.
Qed.

Lemma wb_enqueue queue_fault work_type gene_id trans_index :
  (forall w, queue_fault w = None) ->
  well_behaved (enqueue queue_fault work_type gene_id trans_index).
Proof.
  intros Hq.
  apply (wb_locked_appends [(work_type, Task gene_id trans_index)]).
  intros s. unfold queue_append. by rewrite Hq.
Qed.

Lemma for_each_appends queue_fault (gene_id : Z) (groups : list (list nat)) :
  (forall w, queue_fault w = None) ->
  forall s,
  for_each groups
    (fun indices =>
       queue_append queue_fault
         ("lb"%string, Task gene_id (Indices indices));;
       queue_append queue_fault
         ("ub"%string, Task gene_id (Indices indices))) s
  = (Returned tt,
     {| input_queue :=
          input_queue s
          ++ flat_map (fun indices =>
                         [ ("lb"%string, Task gene_id (Indices indices));
                           ("ub"%string, Task gene_id (Indices indices)) ])
               groups;
        output := output s; op_lock := op_lock s;
        input_queue_lock := input_queue_lock s |}).
Proof.
  intros Hq. induction groups as [|g groups IH]; intros s.
  - simpl. rewrite app_nil_r. by destruct s.
  - cbn [for_each]. unfold mbind, M_bind, bind at 1.
    unfold queue_append at 1 2. rewrite !Hq. simpl.
    rewrite IH. simpl. by rewrite <- !app_assoc.
Qed.

Lemma wb_collect {A B} (xs : list A) (f : A -> M B) :
  (forall x, well_behaved (f x)) -> well_behaved (collect xs f).
Proof.
  intros Hf. induction xs as [|x xs IH]; simpl; [apply wb_ret|].
  apply wb_bind; [done|]. intros y. apply wb_bind; [done|].
  intros ys. apply wb_ret.
Qed.

Create HintDb wb.
#[local] Hint Resolve wb_ret wb_raise wb_attempt wb_call wb_op_lock_acquire
  wb_op_lock_release wb_store_get wb_store_set wb_queue_append
  wb_report_error wb_enqueue : wb.

Ltac wb_step :=
  first
    [ solve [eauto with wb]
    | match goal with
      | Hq : forall w, queue_fault _ w = None |- _ =>
          apply (wb_locked_appends _ _ (for_each_appends _ _ _ Hq))
      end
    | apply wb_attempt
    | apply wb_collect; intros ?
    | apply wb_bind; [|intros ?]
    | match goal with
      | |- well_behaved (match ?x with _ => _ end) => destruct x
      | |- well_behaved (if ?b then _ else _) => destruct b
      | |- well_behaved (let '(_, _) := ?p in _) => destruct p
      end ].

Section NoQueueFault.
Variable ext : externals.
Hypothesis queue_accepts : forall w, queue_fault ext w = None.

Lemma wb_plain_stage (stage : M unit) :
  well_behaved stage -> well_behaved (attempt stage).
Proof. apply wb_attempt. Qed.

Lemma wb_gene_stage gene_id : well_behaved (gene_stage ext gene_id).
Proof. unfold gene_stage. repeat wb_step. Qed.

Lemma wb_design_matrices_stage gene_id trans_index :
  well_behaved (design_matrices_stage ext gene_id trans_index).
Proof. unfold design_matrices_stage, as_gene. repeat wb_step. Qed.

Lemma wb_mle_stage gene_id trans_index flag :
  well_behaved (mle_stage ext gene_id trans_index flag).
Proof. unfold mle_stage, as_gene, as_design. repeat wb_step. Qed.

Lemma wb_bound_prologue gene_id trans_index :
  well_behaved (bound_prologue gene_id trans_index).
Proof. unfold bound_prologue, as_design. repeat wb_step. Qed.

Lemma wb_estimate_bounds gene_id bnd_type trans_indices :
  well_behaved (estimate_bounds ext gene_id bnd_type trans_indices).
Proof.
  induction trans_indices as [|i rest IH]; cbn [estimate_bounds];
    repeat wb_step.
Qed.

Lemma wb_bound_epilogue work_type gene_id observed_sum bnds cb_alpha :
  well_behaved
    (bound_epilogue ext work_type gene_id observed_sum bnds cb_alpha).
Proof.
  unfold bound_epilogue, as_gene, as_freqs, as_bounds. repeat wb_step.
Qed.

Lemma wb_bound_stage work_type gene_id trans_index cb_alpha :
  well_behaved (bound_stage ext work_type gene_id trans_index cb_alpha).
Proof.
  unfold bound_stage.
  repeat first
    [ apply wb_bound_prologue | apply wb_estimate_bounds
    | apply wb_bound_epilogue | wb_step ].
Qed.

Lemma wb_try_block work_type gene_id trans_index flag cb_alpha :
  well_behaved (try_block ext work_type gene_id trans_index flag cb_alpha).
Proof.
  unfold try_block.
  repeat first
    [ apply wb_gene_stage | apply wb_design_matrices_stage
    | apply wb_mle_stage | apply wb_bound_stage | wb_step ].
Qed.

(** What the worker does with an exception of the [try] block that is
    an instance of [Exception], when the queue accepts what is appended:
    started with the queue lock free, it appends one ['ERROR'] unit
    carrying the gene identifier, the value [trans_index] had when the
    exception was raised and the formatted exception, after everything
    already queued, and returns. *)
Lemma worker_reports_exception work_type gene_id trans_index flag
  cb_alpha s :
  input_queue_lock s = false ->
  match try_block ext work_type gene_id trans_index flag cb_alpha s with
  | (Returned (Some (inst, reported)), s1) =>
      is_Exception inst = true ->
      exists added,
        input_queue s1 = input_queue s ++ added
        /\ estimate_gene_expression_worker ext work_type gene_id trans_index
             flag cb_alpha s
           = (Returned tt,
              {| input_queue :=
                   input_queue s1
                   ++ [("ERROR"%string,
                        Failure gene_id reported (format_exc ext inst))];
                 output := output s1; op_lock := op_lock s1;
                 input_queue_lock := false |})
  | (Returned None, s1) =>
      estimate_gene_expression_worker ext work_type gene_id trans_index
        flag cb_alpha s = (Returned tt, s1)
  | (Raised inst, s1) =>
      estimate_gene_expression_worker ext work_type gene_id trans_index
        flag cb_alpha s = (Raised inst, s1)
  | (Blocked, s1) =>
      estimate_gene_expression_worker ext work_type gene_id trans_index
        flag cb_alpha s = (Blocked, s1)
  end.
Proof.
  intros Hs.
  pose proof (wb_try_block work_type gene_id trans_index flag cb_alpha
                s Hs) as Hwb.
  unfold estimate_gene_expression_worker, mbind, M_bind, bind.
  destruct (try_block _ _ _ _ _ _ s) as [[[[inst reported]|]|inst|] s1];
    [|done..].
  intros Hinst. rewrite Hinst.
  destruct Hwb as [Hs1 [added Hadded]]. exists added. split; [done|].
  unfold report_error, mbind, M_bind, bind, input_queue_lock_acquire,
    queue_append.
  by rewrite Hs1, queue_accepts.
Qed.

End NoQueueFault.

(** ** The loops that wait for work *)

Lemma pop_None {A} (queue : list A) : pop queue = None <-> queue = [].
Proof.
  unfold pop. destruct (reverse queue) as [|x before] eqn:E; split; try done.
  - intros _. by rewrite <- (reverse_involutive queue), E.
  - intros ->. done.
Qed.

(** *** [find_exons_worker] *)

Lemma counted_insert {G} (l : list (finder_pc G)) : forall i pc pc',
  l !! i = Some pc ->
  foldr Z.add 0 (counted <$> <[i := pc']> l)
  = foldr Z.add 0 (counted <$> l) - counted pc + counted pc'.
Proof.
  induction l as [|x l IH]; intros [|i] pc pc' Hi; simplify_eq/=; [lia|].
  rewrite (IH i pc pc' Hi). lia.
Qed.

(** The counter is the number of workers between their increment and
    their decrement. *)
Lemma finder_counter_counts {G} (process : G -> option (list G)) schedule :
  forall s,
  n_threads_running s = foldr Z.add 0 (counted <$> finders s) ->
  n_threads_running (finder_run process schedule s)
  = foldr Z.add 0 (counted <$> finders (finder_run process schedule s)).
Proof.
  induction schedule as [|i schedule IH]; intros s Hs; [done|].
  apply IH. unfold finder_move.
  destruct (finders s !! i) as [pc|] eqn:Hi; [|done].
  destruct (finder_step process (genes_queue s) (n_threads_running s) pc)
    as [[queue n] pc'] eqn:Hstep. simpl.
  rewrite (counted_insert _ i pc pc' Hi), <- Hs.
  destruct pc as [|[gene|]| |gene|rv|]; simpl in Hstep;
    repeat case_match; simplify_eq; simpl; lia.
Qed.

Lemma counted_all_zero {G} (l : list (finder_pc G)) :
  foldr Z.add 0 (counted <$> l) = 0 -> Forall (fun pc => counted pc = 0) l.
Proof.
  assert (forall l : list (finder_pc G), 0 <= foldr Z.add 0 (counted <$> l))
    as Hnonneg.
  { intros l'. induction l' as [|pc l' IH]; [done|].
    rewrite fmap_cons. cbn [foldr].
    assert (0 <= counted pc) by (by destruct pc). lia. }
  induction l as [|pc l IH]; [constructor|].
  rewrite fmap_cons. cbn [foldr]. intros Hsum.
  pose proof (Hnonneg l).
  assert (0 <= counted pc) by (by destruct pc).
  constructor; [lia|]. apply IH. lia.
Qed.

(** What the return of a worker guarantees, whatever the other workers
    do: started with every worker at the top of its loop and the counter
    at zero, a worker returns only at a moment at which the queue is
    empty and no other worker is between its increment of the counter
    and its decrement. A worker that has popped a gene and not yet
    incremented the counter is not excluded. *)
Lemma finder_return_guarantee {G} (process : G -> option (list G))
    (queue : list G) (n_workers : nat) schedule i :
  let start := {| genes_queue := queue; n_threads_running := 0;
                  finders := replicate n_workers AtPop |} in
  let s := finder_run process schedule start in
  finders s !! i = Some AtRecheck ->
  finders (finder_move process i s) !! i = Some Gone ->
  genes_queue s = []
  /\ forall j pc, finders s !! j = Some pc ->
       match pc with Processing _ | Finishing _ => False | _ => True end.
Proof.
  intros start s Hi Hgone.
  assert (n_threads_running s = foldr Z.add 0 (counted <$> finders s))
    as Hcount.
  { apply finder_counter_counts. simpl.
    clear. induction n_workers as [|k IH]; [done|].
    change (replicate (S k) (@AtPop G)) with (AtPop :: replicate k (@AtPop G)).
    rewrite fmap_cons. cbn [foldr counted]. lia. }
  unfold finder_move in Hgone. rewrite Hi in Hgone. simpl in Hgone.
  destruct ((length (genes_queue s) =? 0)%nat && (n_threads_running s =? 0))
    eqn:Htest; simpl in Hgone.
  - apply andb_true_iff in Htest as [Hlen%Nat.eqb_eq Hn%Z.eqb_eq].
    split; [by apply nil_length_inv|].
    rewrite Hn in Hcount. symmetry in Hcount.
    apply counted_all_zero in Hcount. rewrite Forall_forall in Hcount.
    intros j pc Hj. apply list_elem_of_lookup_2, Hcount in Hj.
    by destruct pc.
  - rewrite list_lookup_insert_eq in Hgone by (by eapply lookup_lt_Some).
    done.
Qed.

(** The element finder's loop can return while a worker holds a gene:
    worker 0 pops the only gene; before it increments the counter,
    worker 1 finds the queue empty and the counter at zero, twice, and
    returns. Worker 0 then processes the gene and queues the two genes
    found in it, which it is left alone to process. *)
Lemma finder_returns_while_gene_is_held :
  let process (gene : string) :=
    if String.eqb gene "2L:1-1000" then Some ["geneA"; "geneB"]%string
    else None in
  let start := {| genes_queue := ["2L:1-1000"%string];
                  n_threads_running := 0; finders := [AtPop; AtPop] |} in
  let s := finder_run process [0; 1; 1; 1]%nat start in
  s = {| genes_queue := []; n_threads_running := 0;
         finders := [Popped (Some "2L:1-1000"%string); Gone] |}
  /\ finder_run process [0; 0; 0]%nat s
     = {| genes_queue := ["geneA"; "geneB"]%string; n_threads_running := 0;
          finders := [AtPop; Gone] |}.
Proof. split; reflexivity. Qed.

(** *** [spawn_and_manage_children] *)

(** Nothing moves any more once the scheduler has left its loop and no
    worker is alive. *)
Lemma scheduler_run_finished num_threads wdm script schedule s :
  sch_pc s = Exited -> forallb not_alive (sch_ps s) = true ->
  scheduler_run num_threads wdm script schedule s = s.
Proof.
  intros Hpc Hps. induction schedule as [|a schedule IH]; [done|].
  simpl. destruct a as [|i].
  - unfold scheduler_step. by rewrite Hpc.
  - unfold child_step. destruct (sch_ps s !! i) as [p|] eqn:Hi; [|done].
    rewrite forallb_forall in Hps.
    specialize (Hps p (proj1 (list_elem_of_In _ _)
                         (list_elem_of_lookup_2 _ _ _ Hi))).
    by destruct p as [[[|[locked unit] rest]|]|].
Qed.

Lemma scheduler_step_inv num_threads wdm script s :
  ((1 <? num_threads) = true -> appends_locked script) ->
  scheduler_inv s -> scheduler_inv (scheduler_step num_threads wdm script s).
Proof.
  intros Hscript [Hlocked Hpc]. unfold scheduler_step.
  destruct (sch_pc s) as [| |unit| |k|unit|unit|] eqn:Hat.
  - by split.
  - destruct (pop (sch_queue s)) as [[unit rest]|] eqn:Hpop; [by split|].
    split; [done|]. simpl. by apply pop_None.
  - by split.
  - rewrite Hpc. simpl. split; [done|]. simpl. split; [done|].
    intros j p Hj. lia.
  - destruct Hpc as [Hqueue Hbefore].
    destruct (sch_ps s !! k) as [p|] eqn:Hk.
    + destruct (not_alive p) eqn:Hp; [|by split].
      split; [done|]. simpl. split; [done|]. intros j p' Hj Hp'.
      destruct (decide (j = k)) as [->|]; [congruence|].
      apply (Hbefore j p'); [lia|done].
    + split; [done|]. simpl. split; [done|].
      apply forallb_forall. intros p Hp.
      apply list_elem_of_In, list_elem_of_lookup in Hp as [j Hj].
      apply (Hbefore j p); [|done].
      apply lookup_ge_None in Hk. apply lookup_lt_Some in Hj. lia.
  - repeat case_match; by split.
  - destruct (free_slot (sch_ps s)) as [proc_i|]; [|split; [done|by rewrite Hat]].
    destruct (1 <? num_threads) eqn:Hthreads; [|by split].
    split; [|done]. simpl. intros i script' Hi.
    destruct (decide (i = proc_i)) as [->|Hne].
    + apply list_lookup_insert_Some in Hi as [(_ & [= <-] & _)|[? _]];
        [by apply Hscript|done].
    + rewrite list_lookup_insert_ne in Hi by done. by eapply Hlocked.
  - split; [done|]. by rewrite Hat.
Qed.

Lemma child_step_inv i s : scheduler_inv s -> scheduler_inv (child_step i s).
Proof.
  intros [Hlocked Hpc]. unfold child_step.
  destruct (sch_ps s !! i) as [[[[|[locked unit] rest]|]|]|] eqn:Hi;
    try (by split).
  - (* the worker ends *)
    split; simpl.
    + intros j script' Hj.
      destruct (decide (j = i)) as [->|Hne].
      * apply list_lookup_insert_Some in Hj as [(_ & [=] & _)|[? _]]; done.
      * rewrite list_lookup_insert_ne in Hj by done. by eapply Hlocked.
    + destruct (sch_pc s) as [| |unit'| |k|unit'|unit'|]; try done.
      * destruct Hpc as [Hqueue Hbefore]. split; [done|].
        intros j p Hj Hp. destruct (decide (j = i)) as [->|Hne].
        -- apply list_lookup_insert_Some in Hp as [(_ & <- & _)|[? _]]; done.
        -- rewrite list_lookup_insert_ne in Hp by done. by eapply Hbefore.
      * destruct Hpc as [Hqueue Hall]. exfalso.
        rewrite forallb_forall in Hall.
        by specialize (Hall _ (proj1 (list_elem_of_In _ _)
                                 (list_elem_of_lookup_2 _ _ _ Hi))).
  - (* the worker appends *)
    pose proof (Hlocked i _ Hi) as Hscript.
    apply Forall_cons in Hscript as [Hthis Hrest]. simpl in Hthis.
    subst locked. simpl.
    destruct (lock_held (sch_pc s)) eqn:Hheld; [by split|].
    split; simpl.
    + intros j script' Hj.
      destruct (decide (j = i)) as [->|Hne].
      * apply list_lookup_insert_Some in Hj as [(_ & [= <-] & _)|[? _]];
          done.
      * rewrite list_lookup_insert_ne in Hj by done. by eapply Hlocked.
    + destruct (sch_pc s) as [| |unit'| |k|unit'|unit'|]; try done.
      destruct Hpc as [Hqueue Hall]. exfalso.
      rewrite forallb_forall in Hall.
      by specialize (Hall _ (proj1 (list_elem_of_In _ _)
                               (list_elem_of_lookup_2 _ _ _ Hi))).
Qed.

Lemma scheduler_run_inv num_threads wdm script schedule :
  ((1 <? num_threads) = true -> appends_locked script) ->
  forall s, scheduler_inv s ->
  scheduler_inv (scheduler_run num_threads wdm script schedule s).
Proof.
  intros Hscript. induction schedule as [|a schedule IH]; intros s Hs; [done|].
  simpl. apply IH. destruct a;
    [by apply scheduler_step_inv|by apply child_step_inv].
Qed.

(** When every append of every worker is made under the queue lock, or
    when the scheduler runs the workers itself, the loop of the
    scheduler returns only at a moment at which the queue is empty and
    no worker is alive, whatever the order of the steps. *)
Lemma scheduler_exit_is_idle num_threads wdm script schedule queue :
  ((1 <? num_threads) = true -> appends_locked script) ->
  let s := scheduler_run num_threads wdm script schedule
             (scheduler_start num_threads queue) in
  sch_pc s = Exited ->
  sch_queue s = [] /\ forallb not_alive (sch_ps s) = true.
Proof.
  intros Hscript s Hexited.
  assert (scheduler_inv s) as [_ Hpc]; [|by rewrite Hexited in Hpc].
  apply scheduler_run_inv; [done|].
  split; [|done]. simpl. intros i script' Hi.
  apply lookup_replicate in Hi as [[=] _].
Qed.

Lemma scheduler_checks_to_the_end num_threads wdm script ps finished :
  forallb not_alive ps = true ->
  forall n k, (k + n = length ps)%nat ->
  sch_pc (scheduler_run num_threads wdm script
            (replicate (S n) TheScheduler)
            {| sch_queue := []; sch_ps := ps;
               sch_finished_queue := finished; sch_pc := AliveCheck k |})
  = Exited.
Proof.
  intros Hps. induction n as [|n IH]; intros k Hk.
  - simpl. unfold scheduler_step. simpl.
    by rewrite (proj2 (lookup_ge_None ps k)) by lia.
  - change (replicate (S (S n)) TheScheduler)
      with (TheScheduler :: replicate (S n) TheScheduler).
    cbn [scheduler_run fold_left]. unfold scheduler_step at 2. simpl.
    destruct (lookup_lt_is_Some_2 ps k ltac:(lia)) as [p Hp]. rewrite Hp.
    rewrite forallb_forall in Hps.
    rewrite (Hps p (proj1 (list_elem_of_In _ _)
                      (list_elem_of_lookup_2 _ _ _ Hp))).
    apply (IH (S k)). lia.
Qed.

(** Once the queue is empty and no worker is alive, the scheduler, at
    the top of its loop, returns: it takes the lock, fails to pop, looks
    at the length of the queue and at every process, and leaves. *)
Lemma scheduler_returns_when_idle num_threads wdm script s :
  sch_pc s = Top -> sch_queue s = [] ->
  forallb not_alive (sch_ps s) = true ->
  sch_pc (scheduler_run num_threads wdm script
            (replicate (4 + length (sch_ps s)) TheScheduler) s)
  = Exited.
Proof.
  destruct s as [queue ps finished pc]. simpl. intros -> -> Hps.
  by apply (scheduler_checks_to_the_end num_threads wdm script ps finished
              Hps (length ps) 0%nat).
Qed.

(** C7 fails on the code. With two threads and in the mode that only
    builds candidate transcripts, the worker of a ['gene'] unit appends
    its ['FINISHED'] unit without taking the queue lock. When it does so
    and ends after the scheduler has found the queue empty and before
    the scheduler has asked whether it is alive, the scheduler leaves
    its loop with the unit still queued, and nothing handles the unit
    afterwards. *)
Theorem scheduler_exits_with_unit_queued :
  let script (unit : work) : list (bool * work) :=
    if String.eqb (fst unit) "gene"
    then [(false, ("FINISHED"%string, Task (unit_gene unit) NoIndex))]
    else [] in
  let start := scheduler_start 2 [("gene"%string, Task 7 NoIndex)] in
  let schedule :=
    [ TheScheduler; TheScheduler; TheScheduler; TheScheduler; TheScheduler;
      TheScheduler; TheScheduler; TheScheduler;
      Worker 0; Worker 0;
      TheScheduler; TheScheduler; TheScheduler ] in
  let before := scheduler_run 2 false script (take 8 schedule) start in
  let final := scheduler_run 2 false script schedule start in
  before
  = {| sch_queue := [];
       sch_ps :=
         [ Some (Alive [(false, ("FINISHED"%string, Task 7 NoIndex))]);
           None ];
       sch_finished_queue := []; sch_pc := AliveCheck 0 |}
  /\ final
     = {| sch_queue := [("FINISHED"%string, Task 7 NoIndex)];
          sch_ps := [Some Dead; None];
          sch_finished_queue := []; sch_pc := Exited |}
  /\ forall more, scheduler_run 2 false script more final = final.
Proof.
  split; [reflexivity|]. split; [reflexivity|].
  intros more. by apply scheduler_run_finished.
Qed.

(** The append that the scheduler's lock does not hold back: in the mode
    that only builds candidate transcripts the ['gene'] stage queues its
    ['FINISHED'] unit although the queue lock is held by someone else. *)
Example gene_stage_appends_without_queue_lock :
  let ext :=
    sample_environment true (fun _ => inr sample_gene)
      (fun _ _ _ => inr 0.5%float) (fun _ => None) in
  let s := {| input_queue := input_queue one_gene_ready;
              output := output one_gene_ready;
              op_lock := false; input_queue_lock := true |} in
  let '(result, after) :=
    estimate_gene_expression_worker ext "gene" 8 NoIndex false 0.1%float s in
  result = Returned tt
  /\ input_queue after = [("FINISHED"%string, Task 8 NoIndex)]
  /\ input_queue_lock after = true.
Proof. vm_compute. done. Qed.

(* ================================================================= *)
(** * Further properties of the code *)
(* ================================================================= *)

(** ** Interval merging: gaps, failure and repeated merging *)

Lemma merge_from_separated d rest : forall cur,
  separated_by d (merge_from d cur rest).
Proof.
  unfold separated_by.
  induction rest as [|[start stop] rest IH]; intros [s e]; simpl.
  - repeat constructor.
  - destruct (Z.leb_spec (start - d - 1) e); [apply IH|].
    constructor; [apply IH|].
    destruct (merge_from_head d rest start stop) as (e' & tl & ->).
    constructor; simpl; lia.
Qed.

Lemma merge_from_boundaries d rest : forall cur o,
  In o (merge_from d cur rest) ->
  (fst o = fst cur \/ exists a, In a rest /\ fst o = fst a)
  /\ (snd o = snd cur \/ exists b, In b rest /\ snd o = snd b).
Proof.
  induction rest as [|[start stop] rest IH]; intros [s e] o; simpl.
  - intros [<-|[]]. split; by left.
  - destruct (start - d - 1 <=? e).
    + intros [[Hf|(a & Ha & Hf)] [Hl|(b & Hb & Hl)]]%IH; simpl in *.
      * split; [by left|]. right. exists (start, stop). split; [by left|done].
      * split; [by left|]. right. exists b. split; [by right|done].
      * split; right; [exists a|exists (start, stop)];
          (split; [by (left + right)|done]).
      * split; right; [exists a|exists b]; (split; [by right|done]).
    + intros [<-|[[Hf|(a & Ha & Hf)] [Hl|(b & Hb & Hl)]]%IH]; simpl in *.
      * split; by left.
      * split; right; exists (start, stop); (split; [by left|done]).
      * split; right; [exists (start, stop)|exists b];
          (split; [by (left + right)|done]).
      * split; right; [exists a|exists (start, stop)];
          (split; [by (left + right)|done]).
      * split; right; [exists a|exists b]; (split; [by right|done]).
Qed.

(** X1: whatever the input and the merge distance [d], the function
    returns; two consecutive returned intervals are more than [d]
    positions apart, so a second pass would find nothing left to merge;
    and every returned interval starts where some input interval starts
    and stops where some input interval stops. *)
Theorem merge_adjacent_intervals_gap intervals d :
  exists out,
    merge_adjacent_intervals intervals (Some d) = Some out
    /\ separated_by d out
    /\ forall o, In o out ->
         exists a b, In a intervals /\ In b intervals
                     /\ fst o = fst a /\ snd o = snd b.
Proof.
  rewrite merge_adjacent_intervals_eq. eexists. split; [done|].
  pose proof (sort_intervals_In intervals) as Hin.
  destruct (sort_intervals intervals) as [|first rest].
  - split; [constructor|intros o []].
  - split; [apply merge_from_separated|].
    intros o [Hf Hl]%merge_from_boundaries.
    assert (exists a, In a intervals /\ fst o = fst a) as (a & ? & ?).
    { destruct Hf as [Hf|(a & Ha & Hf)].
      - exists first. split; [apply Hin; by left|done].
      - exists a. split; [apply Hin; by right|done]. }
    assert (exists b, In b intervals /\ snd o = snd b) as (b & ? & ?).
    { destruct Hl as [Hl|(b & Hb & Hl)].
      - exists first. split; [apply Hin; by left|done].
      - exists b. split; [apply Hin; by right|done]. }
    by exists a, b.
Qed.

Lemma sort_intervals_length l : length (sort_intervals l) = length l.
Proof.
  symmetry. apply Permutation_length, IntervalSort.Permuted_sort.
Qed.

Lemma merge_from_well_formed d rest : forall cur,
  well_formed cur -> Forall well_formed rest ->
  Forall (fun r => fst cur <= fst r) rest ->
  StronglySorted (fun a b => fst a <= fst b) rest ->
  Forall well_formed (merge_from d cur rest).
Proof.
  unfold well_formed.
  induction rest as [|[start stop] rest IH]; intros [s e] Hc Hw Hle Hs; simpl.
  - by repeat constructor.
  - apply StronglySorted_inv in Hs as [Hs Hhd].
    apply Forall_cons in Hw as [Hw1 Hw].
    apply Forall_cons in Hle as [Hle1 Hle]. simpl in *.
    destruct (start - d - 1 <=? e).
    + apply IH; simpl; [lia|done..].
    + constructor; [done|]. by apply IH.
Qed.

Lemma Sorted_impl_Forall {A} (P : A -> Prop) (R R' : A -> A -> Prop) l :
  (forall a b, P a -> R a b -> R' a b) ->
  Forall P l -> Sorted R l -> Sorted R' l.
Proof.
  intros HR HP Hs. induction Hs as [|a l Hs IH Hhd]; constructor.
  - apply IH. by apply Forall_cons in HP as [_ ?].
  - apply Forall_cons in HP as [Ha _].
    destruct Hhd; constructor. by apply HR.
Qed.

Lemma merge_from_fixed d rest : forall cur,
  separated_by d (cur :: rest) -> merge_from d cur rest = cur :: rest.
Proof.
  unfold separated_by.
  induction rest as [|[start stop] rest IH]; intros [s e] Hs; simpl; [done|].
  apply Sorted_inv in Hs as [Hs Hhd]. apply HdRel_inv in Hhd. simpl in Hhd.
  destruct (Z.leb_spec (start - d - 1) e); [lia|]. f_equal. by apply IH.
Qed.

Lemma interval_leb_antisym :
  AntiSymm (=) (fun a b : interval => is_true (IntervalOrder.leb a b)).
Proof.
  intros [a1 a2] [b1 b2]. unfold is_true, IntervalOrder.leb. simpl.
  rewrite !orb_true_iff, !andb_true_iff, !Z.ltb_lt, !Z.eqb_eq, !Z.leb_le.
  intros ? ?. f_equal; lia.
Qed.

(** Sorting leaves a list that is already in order as it is. *)
Lemma sort_intervals_sorted l :
  Sorted (fun a b => is_true (IntervalOrder.leb a b)) l ->
  sort_intervals l = l.
Proof.
  intros Hs.
  apply (@Sorted_unique _ _ interval_leb_trans interval_leb_antisym).
  - apply IntervalSort.Sorted_sort.
  - done.
  - symmetry. apply IntervalSort.Permuted_sort.
Qed.

(** X3: merging is idempotent on well-formed intervals: what the
    function returns for a non-negative merge distance is returned
    unchanged when it is merged again with the same distance. *)
Theorem merge_adjacent_intervals_idempotent intervals d :
  0 <= d ->
  Forall well_formed intervals ->
  exists out,
    merge_adjacent_intervals intervals (Some d) = Some out
    /\ merge_adjacent_intervals out (Some d) = Some out.
Proof.
  intros Hd Hw. rewrite merge_adjacent_intervals_eq. eexists. split; [done|].
  pose proof (sort_intervals_starts intervals) as Hs.
  assert (Forall well_formed (sort_intervals intervals)) as Hw'.
  { apply List.Forall_forall. intros x Hx.
    apply (proj1 (sort_intervals_In intervals x)) in Hx.
    by apply (proj1 (List.Forall_forall _ _) Hw). }
  destruct (sort_intervals intervals) as [|[s e] rest].
  { reflexivity. }
  apply StronglySorted_inv in Hs as [Hs Hhd].
  apply Forall_cons in Hw' as [Hw1 Hw'].
  pose proof (merge_from_separated d rest (s, e)) as Hsep.
  pose proof (merge_from_well_formed d rest (s, e) Hw1 Hw' Hhd Hs) as Hwf.
  rewrite merge_adjacent_intervals_eq. f_equal.
  rewrite sort_intervals_sorted.
  - destruct (merge_from d (s, e) rest) as [|cur tl] eqn:E; [done|].
    by apply merge_from_fixed.
  - eapply (Sorted_impl_Forall well_formed); [|exact Hwf|exact Hsep].
    intros [a1 a2] [b1 b2]. unfold well_formed, is_true, IntervalOrder.leb.
    simpl. rewrite orb_true_iff, Z.ltb_lt. lia.
Qed.

Lemma merge_adjacent_intervals_idempotent_witness :
  exists out,
    merge_adjacent_intervals [(5,9); (0,3); (4,4); (20,30)] (Some 2)
    = Some out
    /\ merge_adjacent_intervals out (Some 2) = Some out.
Proof.
  apply merge_adjacent_intervals_idempotent; [lia|].
  repeat constructor; unfold well_formed; simpl; lia.
Defined.

(** ** Promoters and poly(A) regions of a transcript *)

Lemma promoter_step_spec strand e acc p :
  (promoter_matches strand e p
   /\ promoter_step strand e acc p
      = Some (Z.max (fst p) (fst e), Z.min (snd p) (snd e)))
  \/ (~ promoter_matches strand e p /\ promoter_step strand e acc p = acc).
Proof.
  unfold promoter_step, promoter_matches.
  destruct (String.eqb_spec strand "-") as [->|Hm]; simpl.
  - destruct (Z.eqb_spec (snd p) (snd e)) as [Heq|Hne].
    + left. split; [by left|]. do 2 f_equal. lia.
    + right. split; [|done]. intros [[_ ?]|[? _]]; done.
  - destruct (String.eqb_spec strand "+") as [->|Hp]; simpl.
    + destruct (Z.eqb_spec (fst p) (fst e)) as [Heq|Hne].
      * left. split; [by right|]. do 2 f_equal. lia.
      * right. split; [|done]. intros [[? _]|[_ ?]]; done.
    + right. split; [|done]. intros [[? _]|[? _]]; done.
Qed.

(** X4: for a transcript with at least one exon,
    [find_matching_promoter_for_transcript] returns [None] exactly when
    no promoter shares the boundary of the first transcribed exon; and
    otherwise it returns the intersection of that exon with the last
    promoter of the list that shares the boundary. *)
Theorem find_matching_promoter_is_last_match transcript promoters e :
  tss_exon transcript = Some e ->
  exists r,
    find_matching_promoter_for_transcript transcript promoters = Some r
    /\ match r with
       | None =>
           Forall (fun p => ~ promoter_matches (t_strand transcript) e p)
             promoters
       | Some m =>
           exists before p after,
             promoters = before ++ p :: after
             /\ promoter_matches (t_strand transcript) e p
             /\ Forall (fun p => ~ promoter_matches (t_strand transcript) e p)
                  after
             /\ m = (Z.max (fst p) (fst e), Z.min (snd p) (snd e))
       end.
Proof.
  intros He. unfold find_matching_promoter_for_transcript. rewrite He. simpl.
  eexists. split; [done|].
  induction promoters as [|q ps IH] using rev_ind; simpl; [constructor|].
  rewrite fold_left_app. simpl.
  destruct (promoter_step_spec (t_strand transcript) e
              (fold_left (promoter_step (t_strand transcript) e) ps None) q)
    as [[Hq ->]|[Hq ->]].
  - exists ps, q, []. by repeat split.
  - destruct (fold_left (promoter_step (t_strand transcript) e) ps None)
      as [m|].
    + destruct IH as (before & p & after & -> & Hp & Hafter & ->).
      exists before, p, (after ++ [q]). repeat split; try done.
      * by rewrite <- app_assoc.
      * apply Forall_app. split; [done|]. by constructor.
    + apply Forall_app. split; [done|]. by constructor.
Qed.

Lemma find_matching_promoter_is_last_match_witness :
  exists r,
    find_matching_promoter_for_transcript
      (sample_transcript "G1_0" [(100, 599); (800, 1299)])
      [(100, 150); (90, 120); (100, 700)] = Some r
    /\ match r with
       | None =>
           Forall (fun p => ~ promoter_matches "+" (100, 599) p)
             [(100, 150); (90, 120); (100, 700)]
       | Some m =>
           exists before p after,
             [(100, 150); (90, 120); (100, 700)] = before ++ p :: after
             /\ promoter_matches "+" (100, 599) p
             /\ Forall (fun p => ~ promoter_matches "+" (100, 599) p) after
             /\ m = (Z.max (fst p) (fst (100, 599)),
                     Z.min (snd p) (snd (100, 599)))
       end.
Proof.
  apply (find_matching_promoter_is_last_match
           (sample_transcript "G1_0" [(100, 599); (800, 1299)])).
  reflexivity.
Defined.

Lemma polya_step_spec strand e acc p :
  (polya_matches strand e p
   /\ polya_step strand e acc p
      = Some (Z.max (fst p) (fst e), Z.min (snd p) (snd e)))
  \/ (~ polya_matches strand e p /\ polya_step strand e acc p = acc).
Proof.
  unfold polya_step, polya_matches.
  destruct (String.eqb_spec strand "+") as [->|Hm]; simpl.
  - destruct (Z.eqb_spec (snd p) (snd e)) as [Heq|Hne].
    + left. split; [by left|]. do 2 f_equal. lia.
    + right. split; [|done]. intros [[_ ?]|[? _]]; done.
  - destruct (String.eqb_spec strand "-") as [->|Hp]; simpl.
    + destruct (Z.eqb_spec (fst p) (fst e)) as [Heq|Hne].
      * left. split; [by right|]. do 2 f_equal. lia.
      * right. split; [|done]. intros [[? _]|[_ ?]]; done.
    + right. split; [|done]. intros [[? _]|[? _]]; done.
Qed.

(** X5: for a transcript with at least one exon,
    [find_matching_polya_region_for_transcript] returns [None] exactly
    when no poly(A) region shares the boundary of the last transcribed
    exon; and otherwise it returns the intersection of that exon with the
    last region of the list that shares the boundary. *)
Theorem find_matching_polya_is_last_match transcript polyas e :
  tes_exon transcript = Some e ->
  exists r,
    find_matching_polya_region_for_transcript transcript polyas = Some r
    /\ match r with
       | None =>
           Forall (fun p => ~ polya_matches (t_strand transcript) e p) polyas
       | Some m =>
           exists before p after,
             polyas = before ++ p :: after
             /\ polya_matches (t_strand transcript) e p
             /\ Forall (fun p => ~ polya_matches (t_strand transcript) e p)
                  after
             /\ m = (Z.max (fst p) (fst e), Z.min (snd p) (snd e))
       end.
Proof.
  intros He. unfold find_matching_polya_region_for_transcript.
  rewrite He. simpl. eexists. split; [done|].
  induction polyas as [|q ps IH] using rev_ind; simpl; [constructor|].
  rewrite fold_left_app. simpl.
  destruct (polya_step_spec (t_strand transcript) e
              (fold_left (polya_step (t_strand transcript) e) ps None) q)
    as [[Hq ->]|[Hq ->]].
  - exists ps, q, []. by repeat split.
  - destruct (fold_left (polya_step (t_strand transcript) e) ps None)
      as [m|].
    + destruct IH as (before & p & after & -> & Hp & Hafter & ->).
      exists before, p, (after ++ [q]). repeat split; try done.
      * by rewrite <- app_assoc.
      * apply Forall_app. split; [done|]. by constructor.
    + apply Forall_app. split; [done|]. by constructor.
Qed.

Lemma find_matching_polya_is_last_match_witness :
  exists r,
    find_matching_polya_region_for_transcript
      (new_Transcript "G2_0" "2L" "-" [(100, 599); (800, 1299)] None "G2" None)
      [(100, 150); (90, 120); (50, 99)] = Some r
    /\ match r with
       | None =>
           Forall (fun p => ~ polya_matches "-" (100, 599) p)
             [(100, 150); (90, 120); (50, 99)]
       | Some m =>
           exists before p after,
             [(100, 150); (90, 120); (50, 99)] = before ++ p :: after
             /\ polya_matches "-" (100, 599) p
             /\ Forall (fun p => ~ polya_matches "-" (100, 599) p) after
             /\ m = (Z.max (fst p) (fst (100, 599)),
                     Z.min (snd p) (snd (100, 599)))
       end.
Proof.
  apply (find_matching_polya_is_last_match
           (new_Transcript "G2_0" "2L" "-" [(100, 599); (800, 1299)] None
              "G2" None)).
  reflexivity.
Defined.

(** ** Splitting the genome into segments *)

Lemma elem_of_xrange_step n L a :
  0 < L ->
  (exists starts, xrange_step 0 n L = Some starts
     /\ (a ∈ starts <-> 0 <= a < n /\ (L | a))).
Proof.
  intros HL. unfold xrange_step.
  destruct (Z.eqb_spec L 0); [lia|]. destruct (Z.ltb_spec 0 L); [|lia].
  eexists. split; [done|]. rewrite list_elem_of_fmap. split.
  - intros (k & -> & Hk%elem_of_seqZ). split; [|by exists k].
    pose proof (Z.div_mod (n - 0 + L - 1) L).
    pose proof (Z.mod_pos_bound (n - 0 + L - 1) L). nia.
  - intros [Ha [k ->]]. exists k. split; [lia|]. apply elem_of_seqZ.
    pose proof (Z.div_mod (n - 0 + L - 1) L).
    pose proof (Z.mod_pos_bound (n - 0 + L - 1) L). nia.
Qed.

Lemma elem_of_contig_segments region_to_use L contig n :
  0 < L ->
  exists segs,
    contig_segments region_to_use L contig n = Some segs
    /\ forall x, x ∈ segs
         <-> exists a, x = (contig, a, Z.min n (a + L - 1))
                       /\ 0 <= a < n /\ (L | a)
                       /\ kept_by_region region_to_use L a.
Proof.
  intros HL. unfold contig_segments.
  assert (exists starts, xrange_step 0 n L = Some starts
            /\ forall a, a ∈ starts <-> 0 <= a < n /\ (L | a))
    as (starts & -> & Hstarts).
  { destruct (elem_of_xrange_step n L 0 HL) as (starts & Hs & _).
    exists starts. split; [done|]. intros a.
    destruct (elem_of_xrange_step n L a HL) as (starts' & Hs' & Ha).
    congruence. }
  simpl. eexists. split; [done|]. intros x.
  rewrite list_elem_of_omap. unfold kept_by_region. split.
  - intros (a & Ha%Hstarts & Hx). exists a.
    destruct region_to_use as [[? [r_start r_stop]]|].
    + destruct (Z.ltb_spec r_stop a); [done|].
      destruct (Z.ltb_spec (a + L) r_start); [done|].
      injection Hx as <-. repeat split; try tauto; lia.
    + injection Hx as <-. repeat split; tauto.
  - intros (a & -> & Ha & Hdiv & Hkept). exists a.
    split; [by apply Hstarts|].
    destruct region_to_use as [[? [r_start r_stop]]|]; [|done].
    destruct (Z.ltb_spec r_stop a); [lia|].
    destruct (Z.ltb_spec (a + L) r_start); [lia|done].
Qed.

Lemma elem_of_concat {A} (x : A) (ls : list (list A)) :
  x ∈ concat ls <-> exists l, l ∈ ls /\ x ∈ l.
Proof.
  rewrite list_elem_of_In, in_concat. split.
  - intros (l & ? & ?). exists l. by rewrite !list_elem_of_In.
  - intros (l & ? & ?). exists l. by rewrite <- !list_elem_of_In.
Qed.

Lemma floor_multiple p L :
  0 < L -> 0 <= p -> 0 <= p / L * L <= p /\ p < p / L * L + L.
Proof.
  intros HL Hp. pose proof (Z.mul_div_le p L HL).
  pose proof (Z.mul_succ_div_gt p L HL).
  pose proof (Z.div_pos p L Hp HL). nia.
Qed.

(** The segments returned, by their defining properties. *)
Lemma split_genome_into_segments_spec NTHREADS contig_lens region_to_use
    min_segment_length :
  0 < NTHREADS -> 0 < min_segment_length ->
  exists L segments,
    segment_length NTHREADS contig_lens min_segment_length = Some L
    /\ min_segment_length <= L
    /\ split_genome_into_segments NTHREADS contig_lens region_to_use
         min_segment_length = Some segments
    /\ forall x, x ∈ segments
         <-> exists contig n a,
               (contig, n) ∈ contig_lens
               /\ x = (contig, a, Z.min n (a + L - 1))
               /\ 0 <= a < n /\ (L | a)
               /\ kept_by_region region_to_use L a
               /\ on_region_contig region_to_use contig.
Proof.
  intros HT Hmin. unfold split_genome_into_segments, segment_length.
  destruct (Z.eqb_spec (NTHREADS * 1000) 0) as [|Hthreads]; [lia|].
  set (L := Z.max min_segment_length _).
  assert (0 < L) as HL by lia.
  exists L. cbn [mbind option_bind].
  match goal with
  | |- context [mapM ?f contig_lens] =>
      assert (is_Some (mapM f contig_lens)) as [parts Hparts]
  end.
  { apply mapM_is_Some_2, List.Forall_forall. intros [contig n] _.
    unfold compose. cbn beta iota.
    destruct (elem_of_contig_segments region_to_use L contig n HL)
      as (segs & Hsegs & _).
    destruct region_to_use as [[r_chrm ?]|]; [|by rewrite Hsegs].
    destruct (negb (String.eqb r_chrm contig)); [done|by rewrite Hsegs]. }
  rewrite Hparts. eexists. split; [done|]. split; [lia|]. split; [done|].
  intros x. rewrite elem_of_concat. split.
  - intros (part & Hpart & Hx).
    destruct (mapM_elem_of_r _ _ _ _ Hparts Hpart) as ([contig n] & Hc & Hf).
    cbn beta iota in Hf.
    destruct (elem_of_contig_segments region_to_use L contig n HL)
      as (segs & Hsegs & Hspec).
    assert (on_region_contig region_to_use contig /\ x ∈ segs) as [Hon Hxs].
    { unfold on_region_contig.
      destruct region_to_use as [[r_chrm ?]|]; [|split; [done|congruence]].
      destruct (String.eqb_spec r_chrm contig); simpl in Hf.
      - split; [done|congruence].
      - injection Hf as <-. by apply elem_of_nil in Hx. }
    apply Hspec in Hxs as (a & -> & ? & ? & ?). by exists contig, n, a.
  - intros (contig & n & a & Hc & -> & Ha & Hdiv & Hkept & Hon).
    destruct (mapM_elem_of_l _ _ _ _ Hparts Hc) as (part & Hpart & Hf).
    cbn beta iota in Hf. exists part. split; [done|].
    destruct (elem_of_contig_segments region_to_use L contig n HL)
      as (segs & Hsegs & Hspec).
    assert (part = segs) as ->.
    { unfold on_region_contig in Hon.
      destruct region_to_use as [[r_chrm ?]|]; [|congruence].
      subst r_chrm. rewrite String.eqb_refl in Hf. simpl in Hf. congruence. }
    apply Hspec. by exists a.
Qed.

(** X6: with at least one thread and a positive minimal segment length,
    [split_genome_into_segments] without a region returns closed segments
    of at most [L] positions that tile every contig: each position of each
    contig lies in a returned segment of that contig, two distinct segments
    of one contig do not overlap, every segment starts at a multiple of [L]
    inside its contig, and no segment stops beyond the contig's length. *)
Theorem split_genome_into_segments_tiles NTHREADS contig_lens
    min_segment_length :
  0 < NTHREADS -> 0 < min_segment_length ->
  exists L segments,
    segment_length NTHREADS contig_lens min_segment_length = Some L
    /\ split_genome_into_segments NTHREADS contig_lens None
         min_segment_length = Some segments
    /\ (forall contig n p, (contig, n) ∈ contig_lens -> 0 <= p < n ->
          exists a b, (contig, a, b) ∈ segments /\ a <= p <= b)
    /\ (forall contig a b, (contig, a, b) ∈ segments ->
          exists n, (contig, n) ∈ contig_lens
                    /\ 0 <= a <= b /\ a < n /\ b <= n /\ b < a + L
                    /\ (L | a))
    /\ (forall contig a b a' b',
          (contig, a, b) ∈ segments -> (contig, a', b') ∈ segments ->
          a < a' -> b < a').
Proof.
  intros HT Hmin.
  destruct (split_genome_into_segments_spec NTHREADS contig_lens None
              min_segment_length HT Hmin) as (L & segments & HL & Hle & -> & Hspec).
  exists L, segments. split; [done|]. split; [done|]. split; [|split].
  - intros contig n p Hc Hp. exists (p / L * L), (Z.min n (p / L * L + L - 1)).
    destruct (floor_multiple p L) as [? ?]; [lia..|].
    split; [|lia]. apply Hspec. exists contig, n, (p / L * L).
    split; [done|]. split; [done|]. split; [lia|].
    split; [by exists (p / L)|done].
  - intros contig a b (c & n & a0 & Hc & [= -> -> ->] & Ha & Hdiv & _)%Hspec.
    exists n. repeat split; try done; lia.
  - intros contig a b a' b'
      (c & n & a0 & Hc & [= -> -> ->] & Ha & [k ->] & _)%Hspec
      (c' & n' & a1 & Hc' & [= -> -> ->] & Ha' & [k' ->] & _)%Hspec Hlt.
    assert (k < k') by nia. assert (k * L + L <= k' * L) by nia. lia.
Qed.

Lemma split_genome_into_segments_tiles_witness :
  exists L segments,
    segment_length 2 [("2L"%string, 12000); ("X"%string, 4000)] 5000
    = Some L
    /\ split_genome_into_segments 2
         [("2L"%string, 12000); ("X"%string, 4000)] None 5000 = Some segments
    /\ (forall contig n p,
          (contig, n) ∈ [("2L"%string, 12000); ("X"%string, 4000)] ->
          0 <= p < n ->
          exists a b, (contig, a, b) ∈ segments /\ a <= p <= b)
    /\ (forall contig a b, (contig, a, b) ∈ segments ->
          exists n, (contig, n) ∈ [("2L"%string, 12000); ("X"%string, 4000)]
                    /\ 0 <= a <= b /\ a < n /\ b <= n /\ b < a + L
                    /\ (L | a))
    /\ (forall contig a b a' b',
          (contig, a, b) ∈ segments -> (contig, a', b') ∈ segments ->
          a < a' -> b < a').
Proof. apply split_genome_into_segments_tiles; lia. Defined.

(** X7: restricted to a region [(r_chrm, (r_start, r_stop))] the function
    returns only segments of contig [r_chrm], each of them a segment of the
    unrestricted tiling, and every position of that contig between
    [r_start] and [r_stop] still lies in a returned segment. *)
Theorem split_genome_into_segments_region NTHREADS contig_lens
    min_segment_length r_chrm r_start r_stop :
  0 < NTHREADS -> 0 < min_segment_length ->
  exists segments all_segments,
    split_genome_into_segments NTHREADS contig_lens
      (Some (r_chrm, (r_start, r_stop))) min_segment_length = Some segments
    /\ split_genome_into_segments NTHREADS contig_lens None
         min_segment_length = Some all_segments
    /\ (forall contig a b, (contig, a, b) ∈ segments ->
          contig = r_chrm /\ (contig, a, b) ∈ all_segments)
    /\ (forall n p, (r_chrm, n) ∈ contig_lens -> 0 <= p < n ->
          r_start <= p <= r_stop ->
          exists a b, (r_chrm, a, b) ∈ segments /\ a <= p <= b).
Proof.
  intros HT Hmin.
  destruct (split_genome_into_segments_spec NTHREADS contig_lens
              (Some (r_chrm, (r_start, r_stop))) min_segment_length HT Hmin)
    as (L & segments & HL & Hle & -> & Hspec).
  destruct (split_genome_into_segments_spec NTHREADS contig_lens None
              min_segment_length HT Hmin)
    as (L' & all_segments & HL' & _ & -> & Hall).
  assert (L' = L) as -> by congruence.
  exists segments, all_segments. split; [done|]. split; [done|]. split.
  - intros contig a b
      (c & n & a0 & Hc & [= -> -> ->] & Ha & Hdiv & _ & Hon)%Hspec.
    simpl in Hon. split; [done|]. apply Hall. by exists c, n, a0.
  - intros n p Hc Hp Hr.
    exists (p / L * L), (Z.min n (p / L * L + L - 1)).
    destruct (floor_multiple p L) as [? ?]; [lia..|].
    split; [|lia]. apply Hspec. exists r_chrm, n, (p / L * L).
    split; [done|]. split; [done|]. split; [lia|].
    split; [by exists (p / L)|]. split; [|done]. simpl. lia.
Qed.

Lemma split_genome_into_segments_region_witness :
  exists segments all_segments,
    split_genome_into_segments 2 [("2L"%string, 12000); ("X"%string, 4000)]
      (Some ("2L"%string, (4000, 6000))) 5000 = Some segments
    /\ split_genome_into_segments 2
         [("2L"%string, 12000); ("X"%string, 4000)] None 5000
       = Some all_segments
    /\ (forall contig a b, (contig, a, b) ∈ segments ->
          contig = "2L"%string /\ (contig, a, b) ∈ all_segments)
    /\ (forall n p,
          ("2L"%string, n) ∈ [("2L"%string, 12000); ("X"%string, 4000)] ->
          0 <= p < n -> 4000 <= p <= 6000 ->
          exists a b, ("2L"%string, a, b) ∈ segments /\ a <= p <= b).
Proof. apply split_genome_into_segments_region; lia. Defined.

(** ** Exon assembly: which exons are built *)

Lemma Qlt_bool_false x y : Qlt_bool x y = false <-> (y <= x)%Q.
Proof. unfold Qlt_bool. rewrite negb_false_iff. apply Qle_bool_iff. Qed.


Lemma exon_step_fields segs i j seg_i l seg_j r e :
  segs !! i = Some seg_i -> segs !! j = Some seg_j -> (i <= j)%nat ->
  In l (left_labels seg_i) -> In r (right_labels seg_j) ->
  (fpkm ← py_min (map fpkm (slice i (j + 1) segs));
   type ← determine_exon_type l r;
   new_TranscriptElement (seg_start seg_i) (seg_stop seg_j) type fpkm)
  = Some e ->
  exon_of_labels segs i j l r e.
Proof.
  intros Hi Hj Hij Hl Hr Hmk.
  apply bind_Some in Hmk as (m & Hm & Hmk).
  apply bind_Some in Hmk as (ty & Hty & Hmk).
  unfold new_TranscriptElement in Hmk. case_match; [|done].
  injection Hmk as <-. split; [|split].
  - exists seg_i, seg_j. by repeat split.
  - by exists seg_i, seg_j.
  - done.
Qed.


Lemma exons_of_run_complete segs i j seg_i l seg_j here r :
  segs !! i = Some seg_i -> segs !! j = Some seg_j -> (i <= j)%nat ->
  In l (left_labels seg_i) ->
  In r (right_labels seg_j) -> label_in r EXON_STOP_LABELS = true ->
  exons_of_run segs i j seg_i l seg_j = Some here ->
  exists e, In e here /\ exon_of_labels segs i j l r e.
Proof.
  intros Hi Hj Hij Hl Hr Hstop Hrun. unfold exons_of_run in Hrun.
  destruct (mapM_elem_of_l _ _ _ r Hrun) as (e & He & Hmk).
  { apply list_elem_of_In, filter_In. by split. }
  exists e. split; [by apply list_elem_of_In|]. by eapply exon_step_fields.
Qed.

Section ExonRuns.
Variables (MIN RATIO mx : Q) (segs : list SegmentBin).


Lemma exons_from_complete i seg_i l rest : forall j out,
  segs !! i = Some seg_i -> (i <= j)%nat -> drop j segs = rest ->
  In l (left_labels seg_i) ->
  exons_from MIN RATIO mx segs i seg_i l j rest = Some out ->
  forall j' seg_j' r,
    (j <= j')%nat -> segs !! j' = Some seg_j' ->
    (forall k seg_k, (j <= k <= j')%nat -> segs !! k = Some seg_k ->
       passes_thresholds MIN RATIO mx seg_k) ->
    In r (right_labels seg_j') -> label_in r EXON_STOP_LABELS = true ->
    exists e, In e out /\ exon_of_labels segs i j' l r e.
Proof.
  induction rest as [|seg_j rest IH]; intros j out Hi Hij Hdrop Hl Hout
    j' seg_j' r Hjj' Hj' Hpass Hr Hstop.
  { apply lookup_lt_Some in Hj'. apply (f_equal length) in Hdrop.
    rewrite length_drop in Hdrop. simpl in Hdrop. lia. }
  apply drop_cons_inv in Hdrop as [Hj Hdrop]. cbn [exons_from] in Hout.
  destruct (Hpass j seg_j) as [Hp1 Hp2]; [lia|done|].
  apply Qlt_bool_false in Hp1. apply Qlt_bool_false in Hp2.
  rewrite Hp1, Hp2 in Hout.
  apply bind_Some in Hout as (here & Hhere & Hout).
  apply bind_Some in Hout as (later & Hlater & [= <-]).
  destruct (decide (j' = j)) as [->|Hne].
  - rewrite Hj in Hj'. injection Hj' as <-.
    destruct (exons_of_run_complete _ _ _ _ _ _ _ r Hi Hj Hij Hl Hr Hstop Hhere)
      as (e & He & Hlab).
    exists e. split; [apply in_app_iff; by left|done].
  - destruct (IH (S j) later Hi ltac:(lia) Hdrop Hl Hlater j' seg_j' r)
      as (e & He & Hlab); try done; [lia| |].
    + intros k seg_k Hk. apply Hpass. lia.
    + exists e. split; [apply in_app_iff; by right|done].
Qed.


Lemma exons_starting_complete rest : forall i out,
  drop i segs = rest ->
  exons_starting MIN RATIO mx segs i rest = Some out ->
  forall i' j' seg_i' seg_j' l r,
    (i <= i' <= j')%nat ->
    segs !! i' = Some seg_i' -> segs !! j' = Some seg_j' ->
    (forall k seg_k, (i' <= k <= j')%nat -> segs !! k = Some seg_k ->
       passes_thresholds MIN RATIO mx seg_k) ->
    In l (left_labels seg_i') -> label_in l EXON_START_LABELS = true ->
    In r (right_labels seg_j') -> label_in r EXON_STOP_LABELS = true ->
    exists e, In e out /\ exon_of_labels segs i' j' l r e.
Proof.
  induction rest as [|seg_i rest IH]; intros i out Hdrop Hout
    i' j' seg_i' seg_j' l r Hii' Hi' Hj' Hpass Hl Hstart Hr Hstop.
  { apply lookup_lt_Some in Hi'. apply (f_equal length) in Hdrop.
    rewrite length_drop in Hdrop. simpl in Hdrop. lia. }
  pose proof Hdrop as Hdrop0.
  apply drop_cons_inv in Hdrop as [Hi Hdrop]. cbn [exons_starting] in Hout.
  apply bind_Some in Hout as (here & Hhere & Hout).
  apply bind_Some in Hout as (later & Hlater & [= <-]).
  destruct (decide (i' = i)) as [->|Hne].
  - rewrite Hi in Hi'. injection Hi' as <-.
    destruct (mapM_elem_of_l _ _ _ l Hhere) as (part & Hpart & Hfrom).
    { apply list_elem_of_In, filter_In. by split. }
    destruct (exons_from_complete i seg_i l (seg_i :: rest) i part Hi
                ltac:(lia) Hdrop0 Hl Hfrom j' seg_j' r)
      as (e & He & Hlab); try done; [lia|].
    exists e. split; [|done]. apply in_app_iff. left.
    apply in_concat. exists part. split; [by apply list_elem_of_In|done].
  - destruct (IH (S i) later Hdrop Hlater i' j' seg_i' seg_j' l r)
      as (e & He & Hlab); try done; [lia|].
    exists e. split; [apply in_app_iff; by right|done].
Qed.

End ExonRuns.



(** X9: conversely, no admissible exon is left out: whenever every
    segment of a run [i..j] passes both thresholds, segment [i] carries an
    exon start label on its left and segment [j] an exon stop label on its
    right, the returned list contains the exon of that run for these two
    labels. *)
Theorem build_exons_contains_every_admissible_run MIN RATIO segs mx exons
    i j seg_i seg_j l r :
  py_max (map fpkm_lb segs) = Some mx ->
  build_exons_from_exon_segments MIN RATIO segs = Some exons ->
  (i <= j)%nat -> segs !! i = Some seg_i -> segs !! j = Some seg_j ->
  (forall k seg_k, (i <= k <= j)%nat -> segs !! k = Some seg_k ->
     passes_thresholds MIN RATIO mx seg_k) ->
  In l (left_labels seg_i) -> label_in l EXON_START_LABELS = true ->
  In r (right_labels seg_j) -> label_in r EXON_STOP_LABELS = true ->
  exists e, In e exons /\ exon_of_labels segs i j l r e.
Proof.
  unfold build_exons_from_exon_segments. intros -> Hout Hij Hi Hj Hpass.
  cbn [mbind option_bind] in Hout.
  apply bind_Some in Hout as (? & _ & Hout). intros Hl Hstart Hr Hstop.
  eapply (exons_starting_complete _ _ _ _ _ 0%nat _ eq_refl Hout i j);
    eauto with lia.
Qed.

Lemma sample_segments_pass k seg_k :
  (0 <= k <= 2)%nat -> sample_segments !! k = Some seg_k ->
  passes_thresholds 0 1000 1 seg_k.
Proof.
  intros Hk Hseg. destruct k as [|[|[|k]]]; [..|lia];
    injection Hseg as <-; split; simpl; discriminate.
Qed.

Lemma build_exons_contains_every_admissible_run_witness :
  exists e,
    In e [ {| te_start := 0; te_stop := 9; te_type := "TSS_EXON";
              te_fpkm := 5 |};
           {| te_start := 0; te_stop := 29; te_type := "SE_GENE";
              te_fpkm := 2 |};
           {| te_start := 20; te_stop := 29; te_type := "TES_EXON";
              te_fpkm := 4 |} ]
    /\ exon_of_labels sample_segments 0 2 "TSS" "TES" e.
Proof.
  eapply (build_exons_contains_every_admissible_run 0 1000 sample_segments 1
            _ 0 2 _ _ "TSS" "TES" eq_refl eq_refl);
    [lia|reflexivity|reflexivity|apply sample_segments_pass
    |by left|reflexivity|by left|reflexivity].
Defined.

(** ** Exon segments of a gene *)

Lemma tiles_from_ordered bins : forall start i j seg_i seg_j,
  tiles_from start bins -> (i <= j)%nat ->
  bins !! i = Some seg_i -> bins !! j = Some seg_j ->
  start <= seg_start seg_i /\ seg_start seg_i <= seg_stop seg_j.
Proof.
  induction bins as [|b bins IH]; intros start i j seg_i seg_j Ht Hij Hi Hj;
    [done|].
  destruct Ht as (Hs & Hle & Ht). destruct i as [|i]; simpl in Hi.
  - injection Hi as <-. split; [lia|]. destruct j as [|j]; simpl in Hj.
    + injection Hj as <-. lia.
    + destruct (IH _ j j seg_j seg_j Ht ltac:(lia) Hj Hj). lia.
  - destruct j as [|j]; [lia|]. simpl in Hj.
    destruct (IH _ i j seg_i seg_j Ht ltac:(lia) Hi Hj). lia.
Qed.

Lemma tiles_from_last bins : forall start b,
  tiles_from start bins -> last bins = Some b -> start <= seg_stop b.
Proof.
  induction bins as [|b0 bins IH]; intros start b Ht Hlast; [done|].
  destruct Ht as (Hs & Hle & Ht). destruct bins as [|b1 bins].
  - injection Hlast as <-. lia.
  - change (last (b0 :: b1 :: bins)) with (last (b1 :: bins)) in Hlast.
    pose proof (IH _ _ Ht Hlast). lia.
Qed.

Lemma segment_bin_at_lookup estimate (labels : gmap Z (gset string)) all
    (k : nat) b0 b1 lb f ub :
  estimate (Z.of_nat k) = Some (lb, f, ub) ->
  all !! k = Some b0 -> all !! S k = Some b1 -> b0 < b1 ->
  segment_bin_at estimate all labels (Z.of_nat k)
  = Some {| seg_start := b0; seg_stop := b1 - 1;
            left_labels := sorted_labels (default ∅ (labels !! b0));
            right_labels := sorted_labels (default ∅ (labels !! b1));
            seg_type := None; fpkm_lb := lb; fpkm := f; fpkm_ub := ub |}.
Proof.
  intros Hek Hk Hk1 Hlt. unfold segment_bin_at.
  rewrite Hek. cbn [mbind option_bind].
  rewrite Nat2Z.id, Hk. cbn [mbind option_bind].
  replace (Z.to_nat (Z.of_nat k + 1)) with (S k) by lia.
  rewrite Hk1. cbn [mbind option_bind]. unfold new_SegmentBin.
  destruct (Z.leb_spec 0 (b1 - 1 - b0)); [|lia].
  by replace (b1 - 1 + 1) with b1 by lia.
Qed.

(** The bins over the boundaries [b0 :: bnds], starting with index [k]. *)
Lemma segment_bins_from estimate (labels : gmap Z (gset string)) all :
  forall bnds (k : nat) b0,
  StronglySorted Z.lt (b0 :: bnds) ->
  drop k all = b0 :: bnds ->
  (forall i, 0 <= i < Z.of_nat (length all) - 1 -> is_Some (estimate i)) ->
  exists bins,
    mapM (segment_bin_at estimate all labels)
         (seqZ (Z.of_nat k) (Z.of_nat (length bnds))) = Some bins
    /\ length bins = length bnds
    /\ tiles_from b0 bins
    /\ (forall b, last bins = Some b -> Some (seg_stop b + 1) = last bnds)
    /\ Forall (fun b =>
         left_labels b = sorted_labels (default ∅ (labels !! seg_start b))
         /\ right_labels b
            = sorted_labels (default ∅ (labels !! (seg_stop b + 1)))) bins.
Proof.
  induction bnds as [|b1 bnds IH]; intros k b0 Hs Hdrop Hest.
  { exists []. repeat split; try done. }
  apply drop_cons_inv in Hdrop as [Hk Hdrop].
  pose proof Hdrop as Hdrop1. apply drop_cons_inv in Hdrop1 as [Hk1 _].
  apply StronglySorted_inv in Hs as [Hs Hall].
  destruct (IH (S k) b1 Hs Hdrop Hest) as (bins & Hbins & Hlen & Ht & Hl & Hlab).
  assert (b0 < b1) as Hlt by (by apply Forall_cons in Hall as [? _]).
  change (length (b1 :: bnds)) with (S (length bnds)).
  rewrite Nat2Z.inj_succ, seqZ_cons by lia. cbn [mapM].
  destruct (Hest (Z.of_nat k)) as [[[lb f] ub] Hek].
  { apply lookup_lt_Some in Hk1. lia. }
  rewrite (segment_bin_at_lookup _ _ _ _ _ _ _ _ _ Hek Hk Hk1 Hlt).
  cbn [mbind option_bind].
  replace (Z.succ (Z.of_nat k)) with (Z.of_nat (S k)) by lia.
  replace (Z.pred (Z.succ (Z.of_nat (length bnds))))
    with (Z.of_nat (length bnds)) by lia.
  rewrite Hbins. cbn [mbind option_bind mret option_ret].
  eexists. split; [done|]. split; [simpl; lia|]. split; [|split].
  - simpl. split; [done|]. split; [lia|].
    by replace (b1 - 1 + 1) with b1 by lia.
  - intros b. destruct bins as [|b' bins'].
    + destruct bnds; [|done]. intros [= <-]. simpl. f_equal. lia.
    + intros Hb. change (last (b' :: bins') = Some b) in Hb.
      rewrite (Hl b Hb). by destruct bnds.
  - constructor; [|done]. simpl.
    by replace (b1 - 1 + 1) with b1 by lia.
Qed.

Lemma labelled_add_label bnds labels b l :
  labelled bnds labels -> labelled (bnds ∪ {[b]}) (add_label labels b l).
Proof.
  intros Hlab b' Hb'. unfold add_label.
  destruct (decide (b' = b)) as [->|Hne].
  - rewrite lookup_insert_eq. eexists. split; [done|].
    intros Hempty. assert (l ∈ (∅ : gset string)) as Hl; [|set_solver].
    rewrite <- Hempty. apply elem_of_union. right. by apply elem_of_singleton.
  - rewrite lookup_insert_ne by done. apply Hlab.
    apply elem_of_union in Hb' as [?|Hb']; [done|].
    by apply elem_of_singleton in Hb'.
Qed.

Lemma labelled_fold {A} (fs : gset Z -> A -> gset Z)
    (fl : gmap Z (gset string) -> A -> gmap Z (gset string)) (l : list A) :
  (forall bnds labels x,
     labelled bnds labels -> labelled (fs bnds x) (fl labels x)) ->
  forall bnds labels,
    labelled bnds labels -> labelled (fold_left fs l bnds) (fold_left fl l labels).
Proof.
  intros Hstep. induction l as [|x l IH]; intros bnds labels Hlab; simpl;
    [done|]. by apply IH, Hstep.
Qed.

Lemma sorted_labels_nonempty s : s <> ∅ -> sorted_labels s <> [].
Proof.
  intros Hs Hnil. apply Hs. apply leibniz_equiv, elements_empty_iff.
  apply Permutation_nil_r. rewrite <- Hnil. unfold sorted_labels.
  symmetry. apply merge_sort_Permutation.
Qed.

Section ExonSegments.
Variables (gene_strand : string) (gene_start gene_stop : Z).
Variables (jns tss_regions tes_regions : list interval).

Let bnds :=
  segment_bnds gene_strand gene_start gene_stop jns tss_regions tes_regions.
Let labels :=
  segment_bnd_labels gene_strand gene_start gene_stop jns tss_regions
    tes_regions.

Lemma segment_bnds_labelled b :
  b ∈ bnds -> exists s, labels !! b = Some s /\ s <> ∅.
Proof.
  unfold bnds, segment_bnds, labels, segment_bnd_labels.
  rewrite elem_of_sorted_elements. revert b.
  change (labelled
    (fold_left
       (fun bnds '(bin_start, bin_stop) =>
          bnds ∪ {[if String.eqb gene_strand "+" then bin_stop + 1
                   else bin_start]})
       tes_regions
       (fold_left
          (fun bnds '(bin_start, bin_stop) =>
             bnds ∪ {[if String.eqb gene_strand "+" then bin_start
                      else bin_stop + 1]})
          tss_regions
          (fold_left
             (fun bnds '(start, stop) => bnds ∪ {[start]} ∪ {[stop + 1]})
             jns {[gene_start; gene_stop + 1]})))
    (fold_left
       (fun labels '(bin_start, bin_stop) =>
          add_label labels
            (if String.eqb gene_strand "+" then bin_stop + 1 else bin_start)
            "TES")
       tes_regions
       (fold_left
          (fun labels '(bin_start, bin_stop) =>
             add_label labels
               (if String.eqb gene_strand "+" then bin_start
                else bin_stop + 1) "TSS")
          tss_regions
          (fold_left
             (fun labels '(start, stop) =>
                add_label
                  (add_label labels start
                     (if String.eqb gene_strand "+" then "D_JN" else "R_JN"))
                  (stop + 1)
                  (if String.eqb gene_strand "+" then "R_JN" else "D_JN"))
             jns
             (add_label (add_label ∅ gene_start "GENE_BNDRY")
                (gene_stop + 1) "GENE_BNDRY"))))).
  apply labelled_fold.
  { intros ? ? [? ?] ?. by apply labelled_add_label. }
  apply labelled_fold.
  { intros ? ? [? ?] ?. by apply labelled_add_label. }
  apply labelled_fold.
  { intros ? ? [? ?] ?. by do 2 apply labelled_add_label. }
  intros b Hb.
  apply (labelled_add_label (∅ ∪ {[gene_start]})
           (add_label ∅ gene_start "GENE_BNDRY") (gene_stop + 1)
           "GENE_BNDRY").
  - apply labelled_add_label. intros b' Hb'. by apply elem_of_empty in Hb'.
  - apply elem_of_union in Hb as [Hb|Hb]; apply elem_of_union;
      [left; apply elem_of_union; by right|by right].
Qed.

(** The segment bins of a gene, with what the proofs below need. *)
Lemma segment_bins_of_gene estimate :
  gene_start <= gene_stop ->
  (forall i, 0 <= i < Z.of_nat (length bnds) - 1 -> is_Some (estimate i)) ->
  exists bins first,
    segment_bins estimate bnds labels = Some bins
    /\ S (length bins) = length bnds
    /\ bins <> []
    /\ head bnds = Some first
    /\ tiles_from first bins
    /\ first <= gene_start
    /\ (forall b, last bins = Some b -> gene_stop <= seg_stop b)
    /\ Forall (fun b => left_labels b <> [] /\ right_labels b <> []) bins.
Proof.
  intros Hgene Hest.
  pose proof (segment_bnds_sorted gene_strand gene_start gene_stop jns
                tss_regions tes_regions) as Hs.
  pose proof segment_bnds_labelled as Hlab.
  destruct (segment_bnds_gene gene_strand gene_start gene_stop jns
              tss_regions tes_regions)
    as [[kg Hkg]%list_elem_of_lookup [kG HkG]%list_elem_of_lookup].
  fold bnds in Hs, Hkg, HkG.
  assert (kg < kG)%nat as Hk by (eapply sorted_lookup_index_lt; eauto with lia).
  unfold segment_bins, xrange.
  destruct bnds as [|b0 rest] eqn:Hb; [done|].
  destruct (segment_bins_from estimate labels (b0 :: rest) rest 0 b0 Hs eq_refl
              Hest) as (bins & Hbins & Hlen & Ht & Hl & Hlabs).
  exists bins, b0.
  replace (Z.of_nat (length (b0 :: rest)) - 1 - 0)
    with (Z.of_nat (length rest)) by (simpl; lia).
  split; [done|]. split; [simpl; lia|].
  assert (rest <> []) as Hrest.
  { intros ->. apply lookup_lt_Some in HkG. simpl in HkG. lia. }
  split; [intros ->; by destruct rest|]. split; [done|]. split; [done|].
  split; [|split].
  - destruct kg as [|kg]; [injection Hkg; lia|].
    assert (b0 < gene_start); [|lia].
    eapply (sorted_lookup_lt (b0 :: rest) 0 (S kg)); eauto with lia.
  - intros b Hlast. apply Hl in Hlast.
    assert (gene_stop + 1 <= seg_stop b + 1); [|lia].
    symmetry in Hlast. apply last_Some in Hlast as [pre Hpre].
    destruct (decide (kG = length pre + 1)%nat) as [->|Hne].
    + rewrite lookup_cons_ne_0 in HkG by lia. rewrite Hpre in HkG.
      replace (Nat.pred (length pre + 1)) with (length pre) in HkG by lia.
      rewrite list_lookup_middle in HkG by done. injection HkG. lia.
    + assert (gene_stop + 1 < seg_stop b + 1); [|lia].
      eapply (sorted_lookup_lt (b0 :: rest) kG (length pre + 1)); eauto.
      * rewrite lookup_cons_ne_0 by lia. rewrite Hpre.
        replace (Nat.pred (length pre + 1)) with (length pre) by lia.
        by rewrite list_lookup_middle.
      * apply lookup_lt_Some in HkG. rewrite Hpre in HkG. simpl in HkG.
        rewrite length_app in HkG. simpl in HkG. lia.
  - assert (forall b, b ∈ bins ->
              seg_start b ∈ b0 :: rest /\ seg_stop b + 1 ∈ b0 :: rest)
      as Hin.
    { clear -Hbins. intros b Hbin.
      destruct (mapM_elem_of_r _ _ _ _ Hbins Hbin) as (i & _ & Hi).
      unfold segment_bin_at in Hi.
      apply bind_Some in Hi as ([[lb f] ub] & _ & Hi).
      apply bind_Some in Hi as (start & Hstart & Hi).
      apply bind_Some in Hi as (next & Hnext & Hi).
      unfold new_SegmentBin in Hi. case_match; [|done].
      injection Hi as <-. simpl.
      replace (next - 1 + 1) with next by lia.
      split; eapply list_elem_of_lookup_2; eauto. }
    apply Forall_forall. intros b Hbin.
    destruct (Hin b Hbin) as [Hstart Hstop].
    apply (proj1 (Forall_forall _ _) Hlabs) in Hbin as [-> ->].
    destruct (Hlab _ Hstart) as (s & -> & ?).
    destruct (Hlab _ Hstop) as (s' & -> & ?).
    split; by apply sorted_labels_nonempty.
Qed.

(** X10: for a gene of at least one position, and an expression estimate
    for every segment, the segment bins are built without a failed
    assertion: there is one bin per pair of consecutive boundaries, the
    bins lie side by side without gap or overlap, they reach from the gene's
    start (or before it) to the gene's stop (or beyond it), and each of them
    has at least one label on either side. *)
Theorem segment_bins_tile_gene estimate :
  gene_start <= gene_stop ->
  (forall i, 0 <= i < Z.of_nat (length bnds) - 1 -> is_Some (estimate i)) ->
  exists bins first,
    segment_bins estimate bnds labels = Some bins
    /\ S (length bins) = length bnds
    /\ tiles_from first bins
    /\ first <= gene_start
    /\ (forall b, last bins = Some b -> gene_stop <= seg_stop b)
    /\ Forall (fun b => left_labels b <> [] /\ right_labels b <> []) bins.
Proof.
  intros Hgene Hest.
  destruct (segment_bins_of_gene estimate Hgene Hest)
    as (bins & first & ? & ? & ? & ? & ? & ? & ? & ?).
  by exists bins, first.
Qed.

(** X11: the segment bins of a gene are always acceptable to the exon
    assembly: whatever the two thresholds,
    [build_exons_from_exon_segments] returns a list of exons on them, so
    the assertions of [TranscriptElement] and of [determine_exon_type] hold
    and the maxima are taken over non-empty sequences. *)
Theorem build_exons_accepts_segment_bins estimate MIN RATIO :
  gene_start <= gene_stop ->
  (forall i, 0 <= i < Z.of_nat (length bnds) - 1 -> is_Some (estimate i)) ->
  exists bins exons,
    segment_bins estimate bnds labels = Some bins
    /\ build_exons_from_exon_segments MIN RATIO bins = Some exons.
Proof.
  intros Hgene Hest.
  destruct (segment_bins_of_gene estimate Hgene Hest)
    as (bins & first & Hbins & _ & Hne & _ & Ht & _).
  destruct (build_exons_from_exon_segments_total MIN RATIO bins Hne)
    as [exons Hexons].
  { intros i j seg_i seg_j Hij Hi Hj.
    by destruct (tiles_from_ordered bins first i j seg_i seg_j Ht Hij Hi Hj). }
  by exists bins, exons.
Qed.

End ExonSegments.

Lemma segment_bins_tile_gene_witness :
  let bnds := segment_bnds "+" 0 29 [(10, 19)] [] [] in
  let labels := segment_bnd_labels "+" 0 29 [(10, 19)] [] [] in
  exists bins first,
    segment_bins sample_estimate bnds labels = Some bins
    /\ S (length bins) = length bnds
    /\ tiles_from first bins
    /\ first <= 0
    /\ (forall b, last bins = Some b -> 29 <= seg_stop b)
    /\ Forall (fun b => left_labels b <> [] /\ right_labels b <> []) bins.
Proof.
  apply (segment_bins_tile_gene "+" 0 29 [(10, 19)] [] [] sample_estimate);
    [lia|]. intros i _. by eexists.
Defined.

Lemma build_exons_accepts_segment_bins_witness :
  let bnds := segment_bnds "+" 0 29 [(10, 19)] [] [] in
  let labels := segment_bnd_labels "+" 0 29 [(10, 19)] [] [] in
  exists bins exons,
    segment_bins sample_estimate bnds labels = Some bins
    /\ build_exons_from_exon_segments 0 1000 bins = Some exons.
Proof.
  apply (build_exons_accepts_segment_bins "+" 0 29 [(10, 19)] [] []
           sample_estimate 0 1000); [lia|]. intros i _. by eexists.
Defined.

(** ** The splice graph: nodes and direction *)

Lemma nodes_add_edges_from es : forall g v,
  v ∈ nodes (add_edges_from g es)
  <-> v ∈ nodes g \/ exists u w, (u, w) ∈ es /\ (v = u \/ v = w).
Proof.
  unfold add_edges_from.
  induction es as [|[u w] es IH]; intros g v; simpl.
  - split; [by left|]. intros [?|(? & ? & []%elem_of_nil & _)]. done.
  - rewrite IH. simpl. rewrite elem_of_union, elem_of_union.
    rewrite !elem_of_singleton. split.
    + intros [[?|[->| ->]]|(u' & w' & ? & ?)]; [by left|..].
      * right. exists u, w. split; [by left|by left].
      * right. exists u, w. split; [by left|by right].
      * right. exists u', w'. split; [by right|done].
    + intros [?|(u' & w' & [[= -> ->]|?]%elem_of_cons & Hv)];
        [by left; left|..].
      * left. right. tauto.
      * right. by exists u', w'.
Qed.

Lemma nodes_junction_loop bnds jns : forall g v,
  v ∈ nodes (fold_left
               (fun g '(start, stop) =>
                  let start_i := searchsorted bnds start - 1 in
                  let stop_i := searchsorted bnds (stop + 1) - 1 + 1 in
                  add_edge g start_i stop_i) jns g)
  <-> v ∈ nodes g
      \/ exists start stop, (start, stop) ∈ jns
           /\ (v = searchsorted bnds start - 1
               \/ v = searchsorted bnds (stop + 1)).
Proof.
  induction jns as [|[start stop] jns IH]; intros g v; simpl.
  - split; [by left|]. intros [?|(? & ? & []%elem_of_nil & _)]. done.
  - rewrite IH. simpl. rewrite elem_of_union, elem_of_union.
    rewrite !elem_of_singleton. split.
    + intros [[?|[->| ->]]|(s' & e' & ? & ?)]; [by left|..].
      * right. exists start, stop. split; [by left|by left].
      * right. exists start, stop. split; [by left|right; lia].
      * right. exists s', e'. split; [by right|done].
    + intros [?|(s' & e' & [[= -> ->]|?]%elem_of_cons & Hv)];
        [by left; left|..].
      * left. right. destruct Hv as [->| ->]; [by left|right; lia].
      * right. by exists s', e'.
Qed.

(** Where the two ends of a junction inside the gene sit among the
    boundaries. *)
Lemma junction_positions gene_strand gene_start gene_stop jns tss_regions
    tes_regions start stop :
  let bnds :=
    segment_bnds gene_strand gene_start gene_stop jns tss_regions tes_regions
  in
  (start, stop) ∈ jns ->
  gene_start < start -> start <= stop -> stop < gene_stop ->
  0 <= searchsorted bnds start - 1
  /\ searchsorted bnds start - 1 < searchsorted bnds (stop + 1)
  /\ searchsorted bnds (stop + 1) < Z.of_nat (length bnds) - 1.
Proof.
  intros bnds Hjn Hgs Hse Hge.
  pose proof (segment_bnds_sorted gene_strand gene_start gene_stop jns
                tss_regions tes_regions) as Hs.
  destruct (segment_bnds_junction gene_strand gene_start gene_stop jns
              tss_regions tes_regions _ _ Hjn)
    as [[ks Hks]%list_elem_of_lookup [ke Hke]%list_elem_of_lookup].
  destruct (segment_bnds_gene gene_strand gene_start gene_stop jns
              tss_regions tes_regions)
    as [[kg Hkg]%list_elem_of_lookup [kG HkG]%list_elem_of_lookup].
  fold bnds in Hs, Hks, Hke, Hkg, HkG.
  rewrite (searchsorted_lookup _ _ _ Hs Hks).
  rewrite (searchsorted_lookup _ _ _ Hs Hke).
  assert (kg < ks)%nat by (eapply sorted_lookup_index_lt; eauto).
  assert (ks < ke)%nat by (eapply sorted_lookup_index_lt; eauto with lia).
  assert (ke < kG)%nat by (eapply sorted_lookup_index_lt; eauto with lia).
  apply lookup_lt_Some in HkG. lia.
Qed.

(** X12: when every junction is a well-formed interval strictly inside
    the gene region, the nodes of the splice graph are exactly the indices
    [0 .. n-1] of the [n] segments (adding the junction edges adds no node),
    and every path of the graph leads to a strictly higher index, so the
    graph has no cycle. *)
Theorem splice_graph_nodes_and_paths gene_strand gene_start gene_stop jns
    tss_regions tes_regions :
  let bnds :=
    segment_bnds gene_strand gene_start gene_stop jns tss_regions tes_regions
  in
  let n := Z.of_nat (length bnds) - 1 in
  let g := build_splice_graph bnds jns in
  (forall start stop, (start, stop) ∈ jns ->
     gene_start < start /\ start <= stop /\ stop < gene_stop) ->
  (forall v, v ∈ nodes g <-> 0 <= v < n)
  /\ (forall a b, tc (fun a b => (a, b) ∈ edges g) a b -> a < b)
  /\ (forall a, ~ tc (fun a b => (a, b) ∈ edges g) a a).
Proof.
  intros bnds n g Hjns.
  assert (forall a b, (a, b) ∈ edges g -> a < b) as Hedge.
  { intros a b. unfold g. rewrite build_splice_graph_edges.
    intros [(? & -> & ?)|(start & stop & Hjn & -> & ->)]; [lia|].
    destruct (Hjns _ _ Hjn) as (? & ? & ?).
    by destruct (junction_positions gene_strand gene_start gene_stop jns
                   tss_regions tes_regions start stop Hjn) as (? & ? & ?). }
  assert (forall a b, tc (fun a b => (a, b) ∈ edges g) a b -> a < b) as Hpath.
  { intros a b Hab. induction Hab as [a b Hab|a b c Hab _ IH].
    - by apply Hedge.
    - apply Hedge in Hab. lia. }
  split; [|split; [done|]].
  - intros v. unfold g, build_splice_graph. rewrite nodes_junction_loop.
    rewrite nodes_add_edges_from. simpl.
    rewrite elem_of_union, elem_of_list_to_set. unfold xrange.
    rewrite elem_of_seqZ. fold n. split.
    + intros [[[[]%elem_of_empty|?]|(u & w & Huw & Hv)]
             |(start & stop & Hjn & Hv)]; [lia|..].
      * apply elem_of_adjacent_pairs in Huw as (? & -> & ?). lia.
      * destruct (Hjns _ _ Hjn) as (? & ? & ?).
        destruct (junction_positions gene_strand gene_start gene_stop jns
                    tss_regions tes_regions start stop Hjn) as (? & ? & ?);
          [done..|]. fold bnds in H2, H3, H4. fold n in H4. lia.
    + intros Hv. left. left. right. lia.
  - intros a Ha%Hpath. lia.
Qed.

Lemma splice_graph_nodes_and_paths_witness :
  let bnds := segment_bnds "+" 0 29 [(10, 19)] [] [] in
  let n := Z.of_nat (length bnds) - 1 in
  let g := build_splice_graph bnds [(10, 19)] in
  (forall v, v ∈ nodes g <-> 0 <= v < n)
  /\ (forall a b, tc (fun a b => (a, b) ∈ edges g) a b -> a < b)
  /\ (forall a, ~ tc (fun a b => (a, b) ∈ edges g) a a).
Proof.
  apply (splice_graph_nodes_and_paths "+" 0 29 [(10, 19)] [] []).
  intros start stop [= -> ->]%list_elem_of_singleton. lia.
Defined.

(** ** Empty and transcribed regions are the maximal runs *)

Lemma maximal_run_unique {A} (P : A -> Prop) l s e s' e' j :
  maximal_run P l s e -> maximal_run P l s' e' ->
  s <= j <= e -> s' <= j <= e' -> s = s' /\ e = e'.
Proof.
  intros (Hb & Hlen & Hin & Hleft & Hright)
         (Hb' & Hlen' & Hin' & Hleft' & Hright') Hj Hj'.
  assert (forall q, 0 <= q < Z.of_nat (length l) ->
            exists x, l !! Z.to_nat q = Some x) as Hlook.
  { intros q Hq. apply lookup_lt_is_Some_2. lia. }
  split.
  - destruct (Z.lt_trichotomy s s') as [Hlt|[?|Hlt]]; [|done|].
    + destruct (Hlook (s' - 1)) as [x Hx]; [lia|].
      destruct (Hleft' x); [lia|done|]. apply (Hin (s' - 1)); [lia|done].
    + destruct (Hlook (s - 1)) as [x Hx]; [lia|].
      destruct (Hleft x); [lia|done|]. apply (Hin' (s - 1)); [lia|done].
  - destruct (Z.lt_trichotomy e e') as [Hlt|[?|Hlt]]; [|done|].
    + destruct (Hlook (e + 1)) as [x Hx]; [lia|].
      destruct (Hright x); [done|]. apply (Hin' (e + 1)); [lia|done].
    + destruct (Hlook (e' + 1)) as [x Hx]; [lia|].
      destruct (Hright' x); [done|]. apply (Hin (e' + 1)); [lia|done].
Qed.

Lemma maximal_run_fmap {A B} (f : A -> B) (P : B -> Prop) (Q : A -> Prop)
    l s e :
  (forall x, P (f x) <-> Q x) ->
  maximal_run P (f <$> l) s e <-> maximal_run Q l s e.
Proof.
  intros HPQ. unfold maximal_run. rewrite length_fmap.
  split; intros (Hb & Hlen & Hin & Hleft & Hright);
    (split; [done|]; split; [done|]; split; [|split]).
  - intros k x Hk Hx. apply HPQ, (Hin k); [done|].
    by rewrite list_lookup_fmap, Hx.
  - intros x Hs Hx HQ. apply (Hleft (f x)); [done| |by apply HPQ].
    by rewrite list_lookup_fmap, Hx.
  - intros x Hx HQ. apply (Hright (f x)); [|by apply HPQ].
    by rewrite list_lookup_fmap, Hx.
  - intros k y Hk Hy. rewrite list_lookup_fmap in Hy.
    apply fmap_Some in Hy as (x & Hx & ->). apply HPQ. by apply (Hin k).
  - intros y Hs Hy. rewrite list_lookup_fmap in Hy.
    apply fmap_Some in Hy as (x & Hx & ->). rewrite HPQ. by apply Hleft.
  - intros y Hy. rewrite list_lookup_fmap in Hy.
    apply fmap_Some in Hy as (x & Hx & ->). rewrite HPQ. by apply Hright.
Qed.

Lemma runs_spec p full rest : forall (k : nat) cur,
  drop k full = rest -> (k <= length full)%nat -> scan_state p full k cur ->
  forall s e,
    In (s, e) (runs p (Z.of_nat k) cur rest)
    <-> maximal_run (fun m => p m = true) full s e /\ Z.of_nat k - 1 <= e.
Proof.
  induction rest as [|m rest IH]; intros k cur Hdrop Hk Hst s e.
  - assert (k = length full) as Hlen.
    { apply (f_equal length) in Hdrop. rewrite length_drop in Hdrop.
      simpl in Hdrop. lia. }
    simpl. destruct cur as [s0|]; simpl in Hst.
    + destruct Hst as (Hs0 & Hin & Hleft).
      assert (maximal_run (fun m => p m = true) full s0 (Z.of_nat k - 1))
        as Hrun.
      { split; [lia|]. split; [lia|]. split; [|split; [done|]].
        - intros j x Hj. apply Hin. lia.
        - intros x Hx%lookup_lt_Some. lia. }
      split.
      * intros [[= <- <-]|[]]. split; [done|lia].
      * intros [Hrun' He]. left.
        assert (e = Z.of_nat k - 1) as -> by (destruct Hrun' as (? & ? & _); lia).
        destruct (maximal_run_unique _ _ _ _ _ _ (Z.of_nat k - 1) Hrun Hrun')
          as [-> _]; [lia|destruct Hrun' as (? & _); lia|done].
    + split; [intros []|]. intros [(Hb & Hlt & Hin & _) He].
      assert (e = Z.of_nat k - 1) as -> by lia.
      destruct (lookup_lt_is_Some_2 full (k - 1)) as [x Hx]; [lia|].
      apply (Hst x); [lia|done|]. apply (Hin (Z.of_nat k - 1)); [lia|].
      by replace (Z.to_nat (Z.of_nat k - 1)) with (k - 1)%nat by lia.
  - apply drop_cons_inv in Hdrop as [Hm Hdrop].
    pose proof (lookup_lt_Some _ _ _ Hm) as Hklt.
    cbn [runs]. replace (Z.of_nat k + 1) with (Z.of_nat (S k)) by lia.
    destruct (p m) eqn:Hpm.
    + rewrite (IH (S k) (Some (default (Z.of_nat k) cur)) Hdrop); [|lia|].
      * split; intros [Hrun He]; (split; [done|]); [lia|].
        destruct (decide (e = Z.of_nat k - 1)) as [->|]; [|lia].
        destruct Hrun as (_ & _ & _ & _ & Hright).
        destruct (Hright m); [|done].
        by replace (Z.to_nat (Z.of_nat k - 1 + 1)) with k by lia.
      * destruct cur as [s0|]; simpl in *.
        -- destruct Hst as (Hs0 & Hin & Hleft). split; [lia|].
           split; [|done]. intros j x Hj Hx.
           destruct (decide (j = Z.of_nat k)) as [->|].
           ++ rewrite Nat2Z.id in Hx. congruence.
           ++ apply (Hin j); [lia|done].
        -- split; [lia|]. split.
           ++ intros j x Hj Hx. assert (j = Z.of_nat k) as -> by lia.
              rewrite Nat2Z.id in Hx. congruence.
           ++ intros x Hpos Hx. apply (Hst x); [lia|].
              by replace (k - 1)%nat with (Z.to_nat (Z.of_nat k - 1)) by lia.
    + assert (scan_state p full (S k) None) as Hst'.
      { simpl. intros x _ Hx.
        replace (k - 0)%nat with k in Hx by lia. congruence. }
      rewrite in_app_iff, (IH (S k) None Hdrop ltac:(lia) Hst').
      destruct cur as [s0|]; simpl in Hst.
      * destruct Hst as (Hs0 & Hin & Hleft).
        assert (maximal_run (fun m => p m = true) full s0 (Z.of_nat k - 1))
          as Hrun.
        { split; [lia|]. split; [lia|]. split; [|split; [done|]].
          - intros j x Hj. apply Hin. lia.
          - intros x Hx.
            replace (Z.to_nat (Z.of_nat k - 1 + 1)) with k in Hx by lia.
            congruence. }
        split.
        -- intros [[[= <- <-]|[]]|[Hrun' He]]; (split; [done|lia]).
        -- intros [Hrun' He].
           destruct (decide (e = Z.of_nat k - 1)) as [->|];
             [|right; split; [done|lia]].
           left. left.
           destruct (maximal_run_unique _ _ _ _ _ _ (Z.of_nat k - 1)
                       Hrun Hrun') as [-> _];
             [lia|destruct Hrun' as (? & _); lia|done].
      * split.
        -- intros [[]|[Hrun' He]]. split; [done|lia].
        -- intros [Hrun' He]. right. split; [done|].
           destruct (decide (e = Z.of_nat k - 1)) as [->|]; [|lia].
           destruct Hrun' as (Hb & _ & Hin & _).
           destruct (lookup_lt_is_Some_2 full (k - 1)) as [x Hx]; [lia|].
           destruct (Hst x); [lia|done|].
           apply (Hin (Z.of_nat k - 1)); [lia|].
           by replace (Z.to_nat (Z.of_nat k - 1)) with (k - 1)%nat by lia.
Qed.

(** The scan from the start of a list finds exactly its maximal runs. *)
Lemma runs_maximal p mask s e :
  In (s, e) (runs p 0 None mask)
  <-> maximal_run (fun m => p m = true) mask s e.
Proof.
  rewrite (runs_spec p mask mask 0 None eq_refl ltac:(lia)).
  - split; [by intros [? _]|]. intros Hrun. split; [done|].
    destruct Hrun as (? & _). simpl. lia.
  - simpl. intros x Hk. lia.
Qed.

(** The runs come out in order, two consecutive ones separated by at
    least one position, and none of them is empty. *)
Lemma runs_sorted p rest : forall i cur,
  match cur with Some s => s < i | None => True end ->
  StronglySorted (fun a b : interval => snd a + 1 < fst b) (runs p i cur rest)
  /\ Forall (fun b : interval =>
               default i cur <= fst b /\ fst b <= snd b /\ i - 1 <= snd b)
       (runs p i cur rest).
Proof.
  induction rest as [|m rest IH]; intros i cur Hcur; cbn [runs].
  - destruct cur as [s|]; simpl; split; repeat constructor; simpl; lia.
  - destruct (p m).
    + destruct (IH (i + 1) (Some (default i cur))) as [Hs Hall].
      { destruct cur; simpl; lia. }
      split; [done|]. eapply Forall_impl; [exact Hall|].
      intros [a b]. destruct cur; simpl in *; lia.
    + destruct (IH (i + 1) None I) as [Hs Hall]. simpl in Hall.
      destruct cur as [s|]; simpl.
      * split.
        -- constructor; [done|]. eapply Forall_impl; [exact Hall|].
           intros [a b]; simpl; lia.
        -- constructor; [simpl; lia|]. eapply Forall_impl; [exact Hall|].
           intros [a b]; simpl; lia.
      * split; [done|]. eapply Forall_impl; [exact Hall|].
        intros [a b]; simpl; lia.
Qed.

Lemma StronglySorted_filter {A} (R : A -> A -> Prop) (f : A -> bool) l :
  StronglySorted R l -> StronglySorted R (List.filter f l).
Proof.
  induction 1 as [|a l Hs IH Hall]; simpl; [constructor|].
  destruct (f a); [|done]. constructor; [done|].
  apply List.Forall_forall. intros x [Hx _]%filter_In.
  by apply (proj1 (List.Forall_forall _ _) Hall).
Qed.

Lemma filter_all {A} (f : A -> bool) l :
  Forall (fun x => f x = true) l -> List.filter f l = l.
Proof.
  induction 1 as [|a l Ha _ IH]; simpl; [done|]. by rewrite Ha, IH.
Qed.

Lemma np_diff_cons p m rest :
  np_diff (p :: m :: rest) = (m - p) :: np_diff (m :: rest).
Proof. done. Qed.

Lemma np_diff_length p rest : length (np_diff (p :: rest)) = length rest.
Proof.
  revert p. induction rest as [|m rest IH]; intros p; [done|].
  rewrite np_diff_cons. cbn [length]. by rewrite IH.
Qed.

(** Pairing the starts with the stops gives the runs of zeros: the
    [zip] of [find_empty_regions], for a mask whose entry before index [i]
    is [prev]. *)
Lemma starts_stops_zip (closed : bool) n_last : forall rest i prev,
  (prev = 0 \/ prev = 1) -> Forall (fun m => m = 0 \/ m = 1) rest ->
  last (prev :: rest) = Some (if closed then 1 else 0) ->
  n_last = i - 1 + Z.of_nat (length rest) ->
  let x := np_diff (prev :: rest) in
  let starts := map (fun j => j + 1) (nonzero_eq_from (i - 1) (-1) x) in
  let stops :=
    nonzero_eq_from (i - 1) 1 x ++ (if closed then [] else [n_last]) in
  (prev = 1 ->
   length starts = length stops /\ zip starts stops = runs is_zero i None rest)
  /\ (prev = 0 ->
      forall s, S (length starts) = length stops
                /\ zip (s :: starts) stops = runs is_zero i (Some s) rest).
Proof.
  induction rest as [|m rest IH]; intros i prev Hprev Hrest Hlast Hn.
  - simpl in Hlast. injection Hlast as Hlast. simpl. split.
    + intros ->. by destruct closed.
    + intros -> s. destruct closed; [done|]. simpl in Hn.
      split; [done|]. do 2 f_equal. lia.
  - apply Forall_cons in Hrest as [Hm Hrest].
    change (last (prev :: m :: rest)) with (last (m :: rest)) in Hlast.
    destruct (IH (i + 1) m Hm Hrest Hlast) as [IH1 IH0].
    { simpl length in Hn. lia. }
    replace (i + 1 - 1) with i in IH1, IH0 by lia.
    rewrite np_diff_cons. cbv zeta in IH1, IH0 |- *. revert IH1 IH0.
    generalize (np_diff (m :: rest)) as x'. intros x' IH1 IH0.
    split; intros ->; destruct Hm as [-> | ->]; simpl;
      replace (i - 1 + 1) with i by lia.
    + apply (IH0 eq_refl i).
    + by apply IH1.
    + intros s. by apply IH0.
    + intros s. destruct (IH1 eq_refl) as [Hlen Hzip].
      split; [lia|]. by rewrite Hzip.
Qed.

(** [find_empty_regions], as a scan. *)
Lemma find_empty_regions_runs cov thresh min_length :
  cov <> [] ->
  find_empty_regions cov thresh min_length
  = Some (List.filter (fun r => min_length <=? snd r - fst r + 1)
            (runs is_zero 0 None (map (at_least thresh) cov))).
Proof.
  intros Hne. destruct cov as [|c0 cov]; [done|]. unfold find_empty_regions.
  destruct (last (c0 :: cov)) as [cl|] eqn:Hcl;
    [|by apply last_None in Hcl].
  cbn [head map]. unfold nonzero_eq.
  rewrite np_diff_length, length_map.
  destruct (starts_stops_zip (Qle_bool thresh cl) (Z.of_nat (length cov))
              (map (at_least thresh) cov) 1 (at_least thresh c0))
    as [H1 H0].
  { unfold at_least. destruct (Qle_bool thresh c0); auto. }
  { apply List.Forall_forall. intros m (c & <- & _)%in_map_iff.
    unfold at_least. destruct (Qle_bool thresh c); auto. }
  { change (at_least thresh c0 :: map (at_least thresh) cov)
      with (at_least thresh <$> (c0 :: cov)).
    rewrite fmap_last, Hcl. done. }
  { rewrite length_map. lia. }
  change (1 - 1) with 0 in H1, H0. cbv zeta in H1, H0.
  assert (forall (b : bool) (l : list Z) v,
            (if b then l else l ++ [v]) = l ++ (if b then [] else [v]))
    as Hif by (intros [] l v; [by rewrite app_nil_r|done]).
  rewrite Hif. destruct (Qle_bool thresh c0) eqn:E0.
  - assert (at_least thresh c0 = 1) as Ha by (unfold at_least; by rewrite E0).
    destruct (H1 Ha) as [Hlen Hzip].
    rewrite Hlen, Nat.eqb_refl, Hzip, Ha. done.
  - assert (at_least thresh c0 = 0) as Ha by (unfold at_least; by rewrite E0).
    destruct (H0 Ha 0) as [Hlen Hzip]. cbn [length].
    rewrite Hlen, Nat.eqb_refl, Hzip, Ha. done.
Qed.

Lemma runs_head p rest : forall i s,
  exists e tl, runs p i (Some s) rest = (s, e) :: tl.
Proof.
  induction rest as [|m rest IH]; intros i s; cbn [runs]; [by eexists _, _|].
  destruct (p m); [apply IH|by eexists _, _].
Qed.

(** The regions between the runs of zeros are the runs of non-zeros. *)
Lemma between_runs n rest : forall k,
  n = k + Z.of_nat (length rest) ->
  (forall o, o < k ->
     between n o (runs is_zero k None rest)
     = map (fun r => [fst r; snd r]) (runs is_nonzero k (Some o) rest))
  /\ (forall s,
        match runs is_zero k (Some s) rest with
        | (_, e) :: tl => between n (e + 1) tl
        | [] => []
        end
        = map (fun r => [fst r; snd r]) (runs is_nonzero k None rest)).
Proof.
  induction rest as [|m rest IH]; intros k Hn.
  - simpl in Hn. split.
    + intros o Ho. simpl. destruct (Z.eqb_spec o n); [lia|].
      by replace (n - 1) with (k - 1) by lia.
    + intros s. simpl. destruct (Z.eqb_spec (k - 1 + 1) n); [done|lia].
  - destruct (IH (k + 1)) as [IHO IHZ]; [simpl length in Hn; lia|].
    cbn [runs].
    assert (is_nonzero m = negb (is_zero m)) as -> by done.
    destruct (is_zero m); cbn [negb default from_option app]; unfold id.
    + split.
      * intros o Ho. specialize (IHZ k).
        destruct (runs_head is_zero rest (k + 1) k) as (e & tl & Hhd).
        rewrite Hhd in IHZ |- *. cbn [between map fst snd]. by rewrite IHZ.
      * intros s. apply IHZ.
    + split.
      * intros o Ho. apply IHO. lia.
      * intros s. replace (k - 1 + 1) with k by lia. apply IHO. lia.
Qed.

Lemma append_to_last_snoc (pre : list (list Z)) r x :
  append_to_last (pre ++ [r]) x = pre ++ [r ++ [x]].
Proof.
  unfold append_to_last. rewrite reverse_snoc.
  by rewrite reverse_cons, reverse_involutive.
Qed.

(** The second half of [find_transcribed_regions], in cons form. *)
Lemma transcribed_fold n empty : forall pre o,
  match last (fold_left
                (fun trs '(start, stop) =>
                   append_to_last trs (start - 1) ++ [[stop + 1]])
                empty (pre ++ [[o]])) with
  | Some (first :: _) =>
      if first =? n
      then Some (removelast
                   (fold_left
                      (fun trs '(start, stop) =>
                         append_to_last trs (start - 1) ++ [[stop + 1]])
                      empty (pre ++ [[o]])))
      else Some (append_to_last
                   (fold_left
                      (fun trs '(start, stop) =>
                         append_to_last trs (start - 1) ++ [[stop + 1]])
                      empty (pre ++ [[o]])) (n - 1))
  | _ => None
  end = Some (pre ++ between n o empty).
Proof.
  induction empty as [|[start stop] empty IH]; intros pre o; cbn [fold_left].
  - rewrite last_snoc. simpl. destruct (o =? n).
    + by rewrite removelast_last, app_nil_r.
    + by rewrite append_to_last_snoc.
  - rewrite append_to_last_snoc. rewrite (IH (pre ++ [[o; start - 1]])).
    simpl. by rewrite <- app_assoc.
Qed.

Lemma is_zero_at_least thresh c :
  is_zero (at_least thresh c) = true <-> (c < thresh)%Q.
Proof.
  unfold is_zero, at_least. destruct (Qle_bool thresh c) eqn:E; simpl.
  - apply Qle_bool_iff in E. split; [done|]. by intros ?%Qlt_not_le.
  - split; [|done]. intros _. apply Qnot_le_lt.
    intros H%Qle_bool_iff. congruence.
Qed.

Lemma is_nonzero_at_least thresh c :
  is_nonzero (at_least thresh c) = true <-> (thresh <= c)%Q.
Proof.
  unfold is_nonzero, at_least. destruct (Qle_bool thresh c) eqn:E; simpl.
  - by apply Qle_bool_iff in E.
  - split; [done|]. intros H%Qle_bool_iff. congruence.
Qed.

(** [find_transcribed_regions], as a scan. *)
Lemma find_transcribed_regions_runs cov thresh :
  cov <> [] ->
  find_transcribed_regions cov thresh
  = Some (map (fun r => [fst r; snd r])
            (runs is_nonzero 0 None (map (at_least thresh) cov))).
Proof.
  intros Hne. unfold find_transcribed_regions.
  rewrite find_empty_regions_runs by done.
  rewrite filter_all.
  2:{ destruct (runs_sorted is_zero (map (at_least thresh) cov) 0 None I)
        as [_ Hall].
      eapply Forall_impl; [exact Hall|]. intros [a b] (_ & ? & _).
      apply Z.leb_le. simpl in *. lia. }
  destruct cov as [|c0 cov]; [done|]. cbn [map length].
  set (n := Z.of_nat (S (length cov))).
  destruct (between_runs n (map (at_least thresh) cov) 1) as [HO HZ].
  { rewrite length_map. unfold n. lia. }
  cbn [runs].
  assert (is_nonzero (at_least thresh c0)
          = negb (is_zero (at_least thresh c0))) as -> by done.
  destruct (is_zero (at_least thresh c0)); cbn [negb].
  - simpl default. specialize (HZ 0). change (0 + 1) with 1.
    destruct (runs_head is_zero (map (at_least thresh) cov) 1 0)
      as (e & tl & Hhd).
    rewrite Hhd in HZ |- *. change (0 =? 0) with true. cbv iota.
    pose proof (transcribed_fold n tl [] (e + 1)) as Hf. cbn [app] in Hf.
    rewrite Hf. cbn [app]. by rewrite HZ.
  - change (0 + 1) with 1. simpl app. simpl default.
    specialize (HO 0 ltac:(lia)).
    destruct (runs_sorted is_zero (map (at_least thresh) cov) 1 None I)
      as [_ Hall].
    destruct (runs is_zero 1 None (map (at_least thresh) cov))
      as [|[s0 e0] others] eqn:E.
    + rewrite <- HO. simpl. destruct (Z.eqb_spec 0 n); [unfold n in *; lia|].
      done.
    + apply Forall_cons in Hall as [(Hs0 & _) _]. simpl in Hs0.
      destruct (Z.eqb_spec s0 0); [lia|].
      pose proof (transcribed_fold n ((s0, e0) :: others) [] 0) as Hf.
      cbn [app] in Hf. rewrite Hf. by rewrite <- HO.
Qed.

(** X13: on a non-empty coverage array [find_empty_regions] returns, in
    increasing order and without two of them touching, exactly the maximal
    runs of positions whose coverage is below [thresh] and which are at
    least [min_length] long; in particular its assertion never fails. *)
Theorem find_empty_regions_are_maximal_runs cov thresh min_length :
  cov <> [] ->
  exists regions,
    find_empty_regions cov thresh min_length = Some regions
    /\ StronglySorted (fun a b => snd a + 1 < fst b) regions
    /\ forall s e,
         In (s, e) regions
         <-> maximal_run (fun c => (c < thresh)%Q) cov s e
             /\ min_length <= e - s + 1.
Proof.
  intros Hne. rewrite find_empty_regions_runs by done.
  eexists. split; [done|]. split.
  - apply StronglySorted_filter.
    by destruct (runs_sorted is_zero (map (at_least thresh) cov) 0 None I).
  - intros s e. rewrite filter_In, runs_maximal. simpl. rewrite Z.leb_le.
    rewrite (maximal_run_fmap (at_least thresh) _ (fun c => (c < thresh)%Q));
      [done|]. apply is_zero_at_least.
Qed.

Lemma find_empty_regions_are_maximal_runs_witness :
  exists regions,
    find_empty_regions [1; 7; 6; 0; 0; 0; 4; 0]%Q (1 # 1000000) 2
    = Some regions
    /\ StronglySorted (fun a b => snd a + 1 < fst b) regions
    /\ forall s e,
         In (s, e) regions
         <-> maximal_run (fun c => (c < 1 # 1000000)%Q)
               [1; 7; 6; 0; 0; 0; 4; 0]%Q s e
             /\ 2 <= e - s + 1.
Proof. apply find_empty_regions_are_maximal_runs. discriminate. Defined.

(** X14: on a non-empty coverage array [find_transcribed_regions]
    returns, in increasing order and each as a two-element list
    [[start, stop]], exactly the maximal runs of positions whose coverage
    is at least [thresh]: every position with evidence lies in one returned
    region, no returned region contains a position without evidence, and
    two returned regions are separated by at least one such position. *)
Theorem find_transcribed_regions_are_maximal_runs cov thresh :
  cov <> [] ->
  exists regions,
    find_transcribed_regions cov thresh
    = Some (map (fun r => [fst r; snd r]) regions)
    /\ StronglySorted (fun a b => snd a + 1 < fst b) regions
    /\ forall s e,
         In (s, e) regions <-> maximal_run (fun c => (thresh <= c)%Q) cov s e.
Proof.
  intros Hne. rewrite find_transcribed_regions_runs by done.
  eexists. split; [done|]. split.
  - by destruct (runs_sorted is_nonzero (map (at_least thresh) cov) 0 None I).
  - intros s e. rewrite runs_maximal.
    apply (maximal_run_fmap (at_least thresh)). apply is_nonzero_at_least.
Qed.

Lemma find_transcribed_regions_are_maximal_runs_witness :
  exists regions,
    find_transcribed_regions [0; 0; 3; 3; 0; 2]%Q (1 # 1000000)
    = Some (map (fun r => [fst r; snd r]) regions)
    /\ StronglySorted (fun a b => snd a + 1 < fst b) regions
    /\ forall s e,
         In (s, e) regions
         <-> maximal_run (fun c => (1 # 1000000 <= c)%Q)
               [0; 0; 3; 3; 0; 2]%Q s e.
Proof. apply find_transcribed_regions_are_maximal_runs. discriminate. Defined.

(** X15: the only input on which [find_transcribed_regions] raises is
    the empty array (where [cov[-1]] is an [IndexError]); on any other
    input the length assertion of [find_empty_regions] holds and a list of
    regions is returned. *)
Theorem find_transcribed_regions_fails_only_on_empty cov thresh :
  find_transcribed_regions cov thresh = None <-> cov = [].
Proof.
  split.
  - intros Hnone. destruct cov as [|c cov]; [done|].
    by rewrite find_transcribed_regions_runs in Hnone.
  - by intros ->.
Qed.

(** ** The worker: what it never does *)

Lemma isolated_unchanged {A} gene_id (m : M A) :
  (forall s, output (snd (m s)) = output s) -> isolated gene_id m.
Proof. intros H s g field _. by rewrite H. Qed.

Lemma isolated_ret {A} gene_id (a : A) : isolated gene_id (mret a).
Proof. by apply isolated_unchanged. Qed.

Lemma isolated_raise {A} gene_id e : isolated gene_id (@raise A e).
Proof. by apply isolated_unchanged. Qed.

Lemma isolated_bind {A B} gene_id (m : M A) (k : A -> M B) :
  isolated gene_id m -> (forall a, isolated gene_id (k a)) ->
  isolated gene_id (m ≫= k).
Proof.
  intros Hm Hk s g field Hg. unfold mbind, M_bind, bind.
  specialize (Hm s g field Hg).
  destruct (m s) as [[a| |] s1]; simpl in *; [|done..].
  by rewrite (Hk a s1 g field Hg).
Qed.

Lemma isolated_attempt {A} gene_id (m : M A) :
  isolated gene_id m -> isolated gene_id (attempt m).
Proof.
  intros Hm s g field Hg. unfold attempt. specialize (Hm s g field Hg).
  by destruct (m s) as [[a| |] s1].
Qed.

Lemma isolated_call {A} gene_id (r : exn + A) : isolated gene_id (call r).
Proof. destruct r; [apply isolated_raise|apply isolated_ret]. Qed.

Lemma isolated_op_lock_acquire gene_id : isolated gene_id op_lock_acquire.
Proof.
  apply isolated_unchanged. intros s. unfold op_lock_acquire.
  by destruct (op_lock s).
Qed.

Lemma isolated_op_lock_release gene_id : isolated gene_id op_lock_release.
Proof.
  apply isolated_unchanged. intros s. unfold op_lock_release.
  by destruct (op_lock s).
Qed.

Lemma isolated_input_queue_lock_acquire gene_id :
  isolated gene_id input_queue_lock_acquire.
Proof.
  apply isolated_unchanged. intros s. unfold input_queue_lock_acquire.
  by destruct (input_queue_lock s).
Qed.

Lemma isolated_input_queue_lock_release gene_id :
  isolated gene_id input_queue_lock_release.
Proof.
  apply isolated_unchanged. intros s. unfold input_queue_lock_release.
  by destruct (input_queue_lock s).
Qed.

Lemma isolated_queue_append gene_id queue_fault w :
  isolated gene_id (queue_append queue_fault w).
Proof.
  apply isolated_unchanged. intros s. unfold queue_append.
  by destruct (queue_fault w).
Qed.

Lemma isolated_store_get gene_id g field :
  isolated gene_id (store_get g field).
Proof.
  apply isolated_unchanged. intros s. unfold store_get.
  by destruct (output s !! (g, field)).
Qed.

Lemma isolated_store_set gene_id fault field v :
  isolated gene_id (store_set fault gene_id field v).
Proof.
  intros s g field' Hg. unfold store_set.
  destruct (fault (gene_id, field)); [done|]. simpl.
  apply lookup_insert_ne. congruence.
Qed.

Lemma isolated_for_each {A} gene_id (xs : list A) (body : A -> M unit) :
  (forall x, isolated gene_id (body x)) -> isolated gene_id (for_each xs body).
Proof.
  intros Hbody. induction xs as [|x xs IH]; simpl; [apply isolated_ret|].
  apply isolated_bind; [done|]. by intros _.
Qed.

Lemma isolated_collect {A B} gene_id (xs : list A) (f : A -> M B) :
  (forall x, isolated gene_id (f x)) -> isolated gene_id (collect xs f).
Proof.
  intros Hf. induction xs as [|x xs IH]; simpl; [apply isolated_ret|].
  apply isolated_bind; [done|]. intros y. apply isolated_bind; [done|].
  intros ys. apply isolated_ret.
Qed.

Create HintDb isolated.
#[local] Hint Resolve isolated_ret isolated_raise isolated_call
  isolated_op_lock_acquire isolated_op_lock_release
  isolated_input_queue_lock_acquire isolated_input_queue_lock_release
  isolated_queue_append isolated_store_get isolated_store_set : isolated.

Ltac isolated_step :=
  first
    [ solve [eauto with isolated]
    | apply isolated_attempt
    | apply isolated_collect; intros ?
    | apply isolated_for_each; intros ?
    | apply isolated_bind; [|intros ?]
    | match goal with
      | |- isolated _ (match ?x with _ => _ end) => destruct x
      | |- isolated _ (if ?b then _ else _) => destruct b
      | |- isolated _ (let '(_, _) := ?p in _) => destruct p
      end ].

Lemma isolated_report_error queue_fault gene_id trans_index msg :
  isolated gene_id (report_error queue_fault gene_id trans_index msg).
Proof. unfold report_error. repeat isolated_step. Qed.

Lemma isolated_estimate_bounds ext gene_id bnd_type trans_indices :
  isolated gene_id (estimate_bounds ext gene_id bnd_type trans_indices).
Proof.
  induction trans_indices as [|i rest IH]; cbn [estimate_bounds];
    repeat isolated_step.
Qed.

Lemma isolated_try_block ext work_type gene_id trans_index flag cb_alpha :
  isolated gene_id
    (try_block ext work_type gene_id trans_index flag cb_alpha).
Proof.
  unfold try_block.
  repeat match goal with
         | |- isolated _ (if ?b then _ else _) => destruct b
         end;
    unfold gene_stage, design_matrices_stage, mle_stage, bound_stage,
      bound_prologue, bound_epilogue, report_error, enqueue, as_gene,
      as_design, as_freqs, as_bounds;
    repeat first [apply isolated_estimate_bounds | isolated_step].
Qed.

Lemma never_raises_ret {A} (a : A) : never_raises (ret a).
Proof. by intros s e. Qed.

Lemma never_raises_bind {A B} (m : M A) (k : A -> M B) :
  never_raises m -> (forall a, never_raises (k a)) -> never_raises (m ≫= k).
Proof.
  intros Hm Hk s e. unfold mbind, M_bind, bind. specialize (Hm s).
  destruct (m s) as [[a|e'|] s1]; [apply Hk|by destruct (Hm e')|done].
Qed.

Lemma never_raises_attempt {A} (m : M A) : never_raises (attempt m).
Proof. intros s e. unfold attempt. by destruct (m s) as [[a| |] s1]. Qed.

Lemma never_raises_estimate_bounds ext gene_id bnd_type trans_indices :
  never_raises (estimate_bounds ext gene_id bnd_type trans_indices).
Proof.
  induction trans_indices as [|i rest IH]; cbn [estimate_bounds];
    [apply never_raises_ret|].
  apply never_raises_bind; [apply never_raises_attempt|].
  intros [inst|bnd]; [apply never_raises_ret|].
  apply never_raises_bind; [done|]. intros later. apply never_raises_ret.
Qed.

Ltac never_raises_step :=
  first
    [ apply never_raises_ret
    | apply never_raises_attempt
    | apply never_raises_estimate_bounds
    | apply never_raises_bind; [|intros ?]
    | match goal with
      | |- never_raises (match ?x with _ => _ end) => destruct x
      | |- never_raises (if ?b then _ else _) => destruct b
      | |- never_raises (let '(_, _) := ?p in _) => destruct p
      end ].

(** The [try] block hands every exception over as a value. *)
Lemma try_block_never_raises ext work_type gene_id trans_index flag
    cb_alpha :
  never_raises (try_block ext work_type gene_id trans_index flag cb_alpha).
Proof. unfold try_block, bound_stage. repeat never_raises_step. Qed.

(** X16: whatever the unit, the environment and the state of the shared
    objects, [estimate_gene_expression_worker] leaves every store entry
    of every other gene exactly as it found it; and an exception escapes
    it only if it is not an instance of [Exception], which the handler
    does not catch, or if it is raised by the append of the ['ERROR']
    unit in the handler itself. *)
Theorem worker_is_isolated_and_reports ext work_type gene_id trans_index
    flag cb_alpha :
  isolated gene_id
    (estimate_gene_expression_worker ext work_type gene_id trans_index
       flag cb_alpha)
  /\ forall s e s',
       estimate_gene_expression_worker ext work_type gene_id trans_index
         flag cb_alpha s = (Raised e, s') ->
       is_Exception e = false
       \/ exists reported inst,
            queue_fault ext
              ("ERROR"%string,
               Failure gene_id reported (format_exc ext inst)) = Some e.
Proof.
  split.
  - unfold estimate_gene_expression_worker.
    apply isolated_bind; [apply isolated_try_block|].
    intros [[inst reported]|]; [|apply isolated_ret].
    destruct (is_Exception inst);
      [apply isolated_report_error|apply isolated_raise].
  - intros s e s'.
    pose proof (try_block_never_raises ext work_type gene_id trans_index
                  flag cb_alpha s) as Htry.
    unfold estimate_gene_expression_worker, mbind, M_bind, bind.
    destruct (try_block _ _ _ _ _ _ s) as [[[[inst reported]|]|inst|] s1];
      [| |by destruct (Htry inst)|]; [|done..].
    destruct (is_Exception inst) eqn:Hinst.
    + unfold report_error, mbind, M_bind, bind, input_queue_lock_acquire,
        queue_append, input_queue_lock_release.
      destruct (input_queue_lock s1); [done|]. simpl.
      destruct (queue_fault ext _) as [e'|] eqn:Hq; [|done].
      intros [= <- _]. right. by exists reported, inst.
    + intros [= <- _]. by left.
Qed.

Lemma worker_is_isolated_and_reports_witness :
  let ext :=
    sample_environment false (fun _ => inl (SystemExit "terminated"))
      (fun _ _ _ => inr 0.5%float) (fun _ => None) in
  is_Exception (SystemExit "terminated") = false
  \/ exists reported inst,
       queue_fault ext
         ("ERROR"%string, Failure 8 reported (format_exc ext inst))
       = Some (SystemExit "terminated").
Proof.
  intros ext.
  apply (proj2 (worker_is_isolated_and_reports ext "gene" 8 NoIndex false
                  0.1%float)
           one_gene_ready (SystemExit "terminated")
           (snd (estimate_gene_expression_worker ext "gene" 8 NoIndex false
                   0.1%float one_gene_ready))).
  vm_compute. reflexivity.
Defined.

(** The ['ERROR'] unit of a confidence-bound stage names the index at
    which the stage failed, not the indices of the unit: the loop over
    the indices has rebound [trans_index] by then. *)
Example bound_stage_reports_current_index :
  let ext :=
    sample_environment false (fun _ => inr sample_gene)
      (fun _ _ i => if (i =? 1)%nat then inl (ValueError "singular matrix")
                    else inr 0.5%float)
      (fun _ => None) in
  let s := {| input_queue := []; output := list_to_map (gene_entries 8);
              op_lock := false; input_queue_lock := false |} in
  estimate_gene_expression_worker ext "lb" 8 (Indices [0; 1; 2]%nat) true
    0.1%float
    (snd (estimate_gene_expression_worker ext "mle" 8 NoIndex false
            0.1%float s))
  = (Returned tt,
     {| input_queue :=
          [ ("FINISHED"%string, Task 8 NoIndex);
            ("ERROR"%string, Failure 8 (OneIndex 1) "singular matrix") ];
        output :=
          output (snd (estimate_gene_expression_worker ext "mle" 8 NoIndex
                         false 0.1%float s));
        op_lock := false; input_queue_lock := false |}).
Proof. vm_compute. reflexivity. Qed.

(** An exception that is not an instance of [Exception] passes the
    handler by and leaves the worker. *)
Example worker_lets_SystemExit_escape :
  let ext :=
    sample_environment false (fun _ => inl (SystemExit "terminated"))
      (fun _ _ _ => inr 0.5%float) (fun _ => None) in
  fst (estimate_gene_expression_worker ext "gene" 8 NoIndex false 0.1%float
         one_gene_ready)
  = Raised (SystemExit "terminated").
Proof. vm_compute. reflexivity. Qed.

(** When the queue rejects the unit that a stage appends while it holds
    the queue lock, the lock is not released, and the handler, which
    needs it for the ['ERROR'] unit, waits for it forever. *)
Example worker_waits_after_failed_append :
  let ext :=
    sample_environment false (fun _ => inr sample_gene)
      (fun _ _ _ => inr 0.5%float)
      (fun w => if String.eqb (fst w) "design_matrices"
                then Some (OtherError "IOError") else None) in
  let '(result, after) :=
    estimate_gene_expression_worker ext "gene" 8 NoIndex false 0.1%float
      one_gene_ready in
  result = Blocked /\ input_queue after = [] /\ input_queue_lock after = true.
Proof. vm_compute. done. Qed.

(** ** Groups of transcript indices *)

Lemma mod_50_pred n :
  (n mod 50 <> 0)%nat -> ((n - 1) mod 50 + 1 = n mod 50)%nat.
Proof.
  intros Hn. pose proof (Nat.div_mod_eq n 50) as Hdiv.
  pose proof (Nat.mod_upper_bound n 50 ltac:(lia)) as Hlt.
  rewrite <- (Nat.mod_unique (n - 1) 50 (n / 50) (n mod 50 - 1)); lia.
Qed.

Lemma grouped_indices_S n :
  grouped_indices (S n)
  = let groups := grouped_indices n in
    let groups := if (n mod 50 =? 0)%nat then groups ++ [[]] else groups in
    match reverse groups with
    | [] => []
    | g :: before => reverse ((g ++ [n]) :: before)
    end.
Proof. unfold grouped_indices. by rewrite seq_S, fold_left_app. Qed.

Lemma grouped_indices_shape n :
  concat (grouped_indices n) = seq 0 n
  /\ Forall (fun g => g <> [] /\ (length g <= 50)%nat) (grouped_indices n)
  /\ ((0 < n)%nat ->
      exists pre g, grouped_indices n = pre ++ [g]
                    /\ length g = ((n - 1) mod 50 + 1)%nat).
Proof.
  induction n as [|n (Hcat & Hall & Hlast)].
  { split; [done|]. split; [constructor|lia]. }
  rewrite grouped_indices_S. cbv zeta. rewrite seq_S. simpl "+".
  replace (S n - 1)%nat with n by lia.
  pose proof (Nat.mod_upper_bound n 50 ltac:(lia)) as Hlt.
  destruct (Nat.eqb_spec (n mod 50) 0) as [Hz|Hnz].
  - rewrite reverse_snoc, reverse_cons, reverse_involutive. simpl app.
    split; [by rewrite concat_app, Hcat|]. split.
    + apply Forall_app. split; [done|].
      apply Forall_singleton. split; [done|simpl; lia].
    + intros _. exists (grouped_indices n), [n]. split; [done|].
      by rewrite Hz.
  - destruct Hlast as (pre & g & Hg & Hlen).
    { destruct n; [done|lia]. }
    rewrite Hg in Hcat, Hall |- *.
    rewrite reverse_snoc, reverse_cons, reverse_involutive.
    rewrite concat_app in Hcat. simpl in Hcat. rewrite app_nil_r in Hcat.
    apply Forall_app in Hall as [Hpre Hgall].
    split; [|split].
    + rewrite concat_app. simpl. by rewrite app_nil_r, app_assoc, Hcat.
    + apply Forall_app. split; [done|]. apply Forall_singleton. split.
      * by destruct g.
      * rewrite length_app, Hlen, (mod_50_pred n Hnz). cbn [length]. lia.
    + intros _. exists pre, (g ++ [n]). split; [done|].
      rewrite length_app, Hlen, (mod_50_pred n Hnz). cbn [length]. lia.
Qed.

(** X17: the groups of transcript indices for which the ['mle'] stage
    queues confidence-bound units partition [0 .. n-1]: read one after the
    other the groups give every index exactly once and in order, no group
    is empty and none has more than 50 indices. *)
Theorem grouped_indices_partition n :
  concat (grouped_indices n) = seq 0 n
  /\ Forall (fun g => g <> [] /\ (length g <= 50)%nat) (grouped_indices n).
Proof.
  destruct (grouped_indices_shape n) as (? & ? & _). by split.
Qed.

(** ** Initialisation and the stages of one gene *)

Lemma is_Some_insert {K} `{Countable K} {V} (m : gmap K V) i j x :
  i = j \/ is_Some (m !! j) -> is_Some (<[i := x]> m !! j).
Proof. intros ?. by apply lookup_insert_is_Some'. Qed.

Ltac find_key :=
  repeat (apply is_Some_insert; first [left; reflexivity | right]).

Lemma store_set_run fault g field v s :
  fault (g, field) = None ->
  store_set fault g field v s
  = (Returned tt,
     {| input_queue := input_queue s;
        output := <[(g, field) := v]> (output s);
        op_lock := op_lock s; input_queue_lock := input_queue_lock s |}).
Proof. intros Hfault. unfold store_set. by rewrite Hfault. Qed.

Lemma enqueue_run queue_fault work_type g trans_index s :
  (forall w, queue_fault w = None) -> input_queue_lock s = false ->
  enqueue queue_fault work_type g trans_index s
  = (Returned tt,
     {| input_queue := input_queue s ++ [(work_type, Task g trans_index)];
        output := output s; op_lock := op_lock s;
        input_queue_lock := false |}).
Proof.
  intros Hq Hlock. unfold enqueue, mbind, M_bind, bind,
    input_queue_lock_acquire, queue_append. by rewrite Hlock, Hq.
Qed.

Lemma seq_run {B} (m : M unit) (k : M B) s s1 :
  m s = (Returned tt, s1) -> (m;; k) s = k s1.
Proof. intros Hm. unfold mbind, M_bind, bind. by rewrite Hm. Qed.

(** What [initialize_gene] leaves behind. *)
Lemma initialize_gene_spec fault queue_fault gene_id s :
  (forall k, fault k = None) -> (forall w, queue_fault w = None) ->
  input_queue_lock s = false ->
  exists s',
    initialize_gene fault queue_fault gene_id s = (Returned tt, s')
    /\ input_queue s' = input_queue s ++ [("gene"%string, Task gene_id NoIndex)]
    /\ op_lock s' = op_lock s /\ input_queue_lock s' = false
    /\ (forall field, field ∈ initial_fields ->
          is_Some (output s' !! (gene_id, field)))
    /\ (forall g field, g <> gene_id ->
          output s' !! (g, field) = output s !! (g, field)).
Proof.
  intros Hfault Hq Hlock. unfold initialize_gene, add_universal_data.
  eexists. split.
  { erewrite seq_run; [|by apply enqueue_run].
    repeat (erewrite seq_run; [|by apply store_set_run];
            cbn [output input_queue op_lock input_queue_lock]).
    by apply store_set_run. }
  cbn [output input_queue op_lock input_queue_lock].
  split; [done|]. split; [done|]. split; [done|]. split.
  - intros field Hfield. unfold initial_fields in Hfield.
    repeat (apply elem_of_cons in Hfield as [->|Hfield];
            [find_key; fail|]).
    by apply elem_of_nil in Hfield.
  - intros g field Hg. rewrite !lookup_insert_ne by congruence. done.
Qed.

Lemma initialize_processing_data_from fault queue_fault clusters :
  forall gene_id s,
  (forall k, fault k = None) -> (forall w, queue_fault w = None) ->
  input_queue_lock s = false ->
  let kept := Z.of_nat (length (List.filter (fun c => negb (skipped c))
                                  clusters)) in
  exists s',
    initialize_processing_data fault queue_fault clusters gene_id s
    = (Returned (gene_id + kept), s')
    /\ input_queue s'
       = input_queue s
         ++ map (fun i => ("gene"%string, Task i NoIndex))
              (seqZ (gene_id + 1) kept)
    /\ op_lock s' = op_lock s /\ input_queue_lock s' = false
    /\ (forall i field, gene_id < i <= gene_id + kept ->
          field ∈ initial_fields -> is_Some (output s' !! (i, field)))
    /\ (forall i field, ~ (gene_id < i <= gene_id + kept) ->
          output s' !! (i, field) = output s !! (i, field)).
Proof.
  induction clusters as [|c clusters IH]; intros gene_id s Hfault Hq Hlock.
  { exists s. simpl. rewrite Z.add_0_r, app_nil_r.
    repeat split; try done. intros; lia. }
  cbn [initialize_processing_data List.filter].
  destruct (skipped c); cbn [negb]; [by apply IH|].
  cbn [length]. cbv zeta.
  destruct (initialize_gene_spec fault queue_fault (gene_id + 1) s Hfault
              Hq Hlock)
    as (s1 & Hrun & Hq1 & Hop1 & Hlock1 & Hfields1 & Hframe1).
  destruct (IH (gene_id + 1) s1 Hfault Hq Hlock1)
    as (s' & Hrun' & Hq' & Hop' & Hlock' & Hfields' & Hframe').
  cbv zeta in *.
  set (kept := Z.of_nat (length (List.filter (fun c => negb (skipped c))
                                   clusters))) in *.
  exists s'. unfold mbind, M_bind, bind. rewrite Hrun, Hrun'.
  replace (Z.of_nat (S (length (List.filter (fun c => negb (skipped c))
                                  clusters)))) with (kept + 1)
    by (unfold kept; lia).
  split; [f_equal; f_equal; lia|]. split.
  { rewrite Hq', Hq1, <- app_assoc. f_equal.
    rewrite (seqZ_cons (gene_id + 1)) by lia. simpl. do 3 f_equal; lia. }
  split; [congruence|]. split; [done|]. split.
  - intros i field Hi Hfield.
    destruct (decide (i = gene_id + 1)) as [->|Hne].
    + rewrite Hframe' by lia. by apply Hfields1.
    + apply Hfields'; [lia|done].
  - intros i field Hi. rewrite Hframe' by lia. apply Hframe1. lia.
Qed.

(** X18: started with the queue lock free on a store that rejects no
    write and a queue that rejects no unit, [initialize_processing_data]
    numbers the clusters that are not
    skipped consecutively from 1, queues one ['gene'] unit for each of them
    in that order, leaves both locks as they were, and has stored, for
    every such gene, every entry that the ['gene'], ['design_matrices'] and
    ['mle'] stages read without an earlier stage having written it; entries
    under other identifiers are untouched. *)
Theorem initialize_processing_data_prepares fault queue_fault clusters s :
  (forall k, fault k = None) -> (forall w, queue_fault w = None) ->
  input_queue_lock s = false ->
  let kept := Z.of_nat (length (List.filter (fun c => negb (skipped c))
                                  clusters)) in
  exists s',
    initialize_processing_data fault queue_fault clusters 0 s
    = (Returned kept, s')
    /\ input_queue s'
       = input_queue s
         ++ map (fun i => ("gene"%string, Task i NoIndex)) (seqZ 1 kept)
    /\ op_lock s' = op_lock s /\ input_queue_lock s' = false
    /\ (forall i, 1 <= i <= kept ->
          forall field, field ∈ initial_fields ->
            is_Some (output s' !! (i, field)))
    /\ (forall i field, ~ (1 <= i <= kept) ->
          output s' !! (i, field) = output s !! (i, field)).
Proof.
  intros Hfault Hqueue Hlock kept.
  destruct (initialize_processing_data_from fault queue_fault clusters 0 s
              Hfault Hqueue Hlock)
    as (s' & Hrun & Hq & Hop & Hlock' & Hfields & Hframe).
  exists s'. repeat split; try done.
  - intros i Hi field Hfield. apply Hfields; [fold kept; lia|done].
  - intros i field Hi. apply Hframe. fold kept. lia.
Qed.

Lemma initialize_processing_data_prepares_witness :
  let fault : Z * string -> option exn := fun _ => None in
  let queue_fault : work -> option exn := fun _ => None in
  let clusters :=
    [ {| n_tss_es := 1; n_tes_es := 1; n_se_ts := 0 |};
      {| n_tss_es := 0; n_tes_es := 1; n_se_ts := 0 |};
      {| n_tss_es := 0; n_tes_es := 0; n_se_ts := 1 |} ] in
  let s := {| input_queue := []; output := ∅; op_lock := false;
              input_queue_lock := false |} in
  let kept := Z.of_nat (length (List.filter (fun c => negb (skipped c))
                                  clusters)) in
  exists s',
    initialize_processing_data fault queue_fault clusters 0 s
    = (Returned kept, s')
    /\ input_queue s'
       = input_queue s
         ++ map (fun i => ("gene"%string, Task i NoIndex)) (seqZ 1 kept)
    /\ op_lock s' = op_lock s /\ input_queue_lock s' = false
    /\ (forall i, 1 <= i <= kept ->
          forall field, field ∈ initial_fields ->
            is_Some (output s' !! (i, field)))
    /\ (forall i field, ~ (1 <= i <= kept) ->
          output s' !! (i, field) = output s !! (i, field)).
Proof. apply initialize_processing_data_prepares; done. Defined.

Ltac use_field Hfields f :=
  let v := fresh "v" in let Hv := fresh "Hv" in
  destruct (Hfields f) as [v Hv];
  [unfold initial_fields; repeat constructor|].

(** The ['gene'] stage on a gene whose entries are in the store. *)
Lemma gene_stage_runs ext gene_id gene design mle trans_index flag cb_alpha s :
  ready gene_id s -> cooperative ext gene_id gene design mle ->
  transcripts gene <> [] ->
  estimate_gene_expression_worker ext "gene" gene_id trans_index flag
    cb_alpha s
  = (Returned tt,
     {| input_queue :=
          input_queue s ++ [("design_matrices"%string, Task gene_id NoIndex)];
        output := <[(gene_id, "gene"%string) := VGene gene]> (output s);
        op_lock := false; input_queue_lock := false |}).
Proof.
  intros (Hop & Hiq & Hfields) (Hfault & Hqueue & Honly & Hgene & _) Hts.
  destruct s as [queue out opl iql]. simpl in *. subst opl iql.
  use_field Hfields "contig"%string. use_field Hfields "strand"%string.
  use_field Hfields "tss_exons"%string.
  use_field Hfields "internal_exons"%string.
  use_field Hfields "tes_exons"%string.
  use_field Hfields "se_transcripts"%string.
  use_field Hfields "introns"%string. use_field Hfields "promoters"%string.
  use_field Hfields "polyas"%string. use_field Hfields "fasta_fn"%string.
  unfold estimate_gene_expression_worker, try_block, gene_stage, attempt,
    enqueue, store_get, store_set, call, mbind, M_bind, bind, mret, M_ret,
    ret, op_lock_acquire, op_lock_release, input_queue_lock_acquire,
    input_queue_lock_release, queue_append.
  simpl.
  repeat (match goal with
          | H : out !! _ = Some _ |- _ => rewrite H; clear H
          end; simpl).
  rewrite Hgene. simpl. rewrite Hfault, Honly. simpl.
  destruct (transcripts gene); [done|]. simpl. by rewrite Hqueue.
Qed.

Ltac run_stage out :=
  unfold estimate_gene_expression_worker, try_block, gene_stage,
    design_matrices_stage, mle_stage, attempt, enqueue, store_get, store_set,
    as_gene, as_design, call, mbind, M_bind, bind, mret, M_ret, ret,
    op_lock_acquire, op_lock_release, input_queue_lock_acquire,
    input_queue_lock_release, queue_append;
  simpl;
  repeat (match goal with
          | H : out !! _ = Some _ |- _ => rewrite H; clear H
          end; simpl).

(** The ['design_matrices'] stage on a gene that has been assembled. *)
Lemma design_matrices_stage_runs ext gene_id gene design mle trans_index
    flag cb_alpha queue out :
  cooperative ext gene_id gene design mle ->
  out !! (gene_id, "gene"%string) = Some (VGene gene) ->
  is_Some (out !! (gene_id, "fl_dists"%string)) ->
  is_Some (out !! (gene_id, "promoter_reads"%string)) ->
  is_Some (out !! (gene_id, "rnaseq_reads"%string)) ->
  is_Some (out !! (gene_id, "polya_reads"%string)) ->
  estimate_gene_expression_worker ext "design_matrices" gene_id trans_index
    flag cb_alpha
    {| input_queue := queue; output := out; op_lock := false;
       input_queue_lock := false |}
  = (Returned tt,
     {| input_queue := queue ++ [("mle"%string, Task gene_id NoIndex)];
        output :=
          <[(gene_id, "design_matrices"%string)
            := VDesign (fst design) (snd design)]> out;
        op_lock := false; input_queue_lock := false |}).
Proof.
  intros (Hfault & Hqueue & _ & _ & Hopen & Hbuild & _) Hgene
    [? ?] [? ?] [? ?] [? ?].
  run_stage out. rewrite Hopen. simpl. rewrite Hbuild. simpl.
  destruct design as [observed_sum n]. simpl. rewrite Hfault. simpl.
  by rewrite Hqueue.
Qed.

(** The ['mle'] stage, without confidence bounds, on a gene whose design
    matrices have been built. *)
Lemma mle_stage_runs ext gene_id gene design mle trans_index cb_alpha
    queue out :
  cooperative ext gene_id gene design mle ->
  out !! (gene_id, "design_matrices"%string)
  = Some (VDesign (fst design) (snd design)) ->
  out !! (gene_id, "gene"%string) = Some (VGene gene) ->
  is_Some (out !! (gene_id, "fl_dists"%string)) ->
  is_Some (out !! (gene_id, "promoter_reads"%string)) ->
  is_Some (out !! (gene_id, "rnaseq_reads"%string)) ->
  estimate_gene_expression_worker ext "mle" gene_id trans_index false
    cb_alpha
    {| input_queue := queue; output := out; op_lock := false;
       input_queue_lock := false |}
  = (Returned tt,
     {| input_queue := queue ++ [("FINISHED"%string, Task gene_id NoIndex)];
        output :=
          <[(gene_id, "fpkm"%string)
            := VFpkms (calc_fpkm (beta_ppf ext) gene mle
                         (NUMBER_OF_READS_IN_BAM ext) (fst design) 0.5)]>
            (<[(gene_id, "mle"%string) := VFreqs mle]> out);
        op_lock := false; input_queue_lock := false |}).
Proof.
  intros (Hfault & Hqueue & _ & _ & Hopen & _ & Hmle & Hlhd) Hdesign Hgene
    [? ?] [? ?] [? ?].
  run_stage out. rewrite Hopen. simpl. rewrite Hmle. simpl.
  rewrite Hlhd. simpl. rewrite !Hfault. simpl. by rewrite Hqueue.
Qed.

(** X19: the stages of one gene hand over to one another through the
    store and the queue.  From a state in which the gene is [ready], in an
    environment where nothing fails, and for a gene with at least one
    transcript, the ['gene'] unit queues the ['design_matrices'] unit, that
    one the ['mle'] unit, and that one (without confidence bounds) the
    ['FINISHED'] unit; no stage meets a missing store entry, each returns
    with both locks free, and at the end the store holds the gene, its
    frequencies and its FPKMs. *)
Theorem worker_stages_compose ext gene_id gene design mle cb_alpha s :
  ready gene_id s -> cooperative ext gene_id gene design mle ->
  transcripts gene <> [] ->
  let run work_type :=
    estimate_gene_expression_worker ext work_type gene_id NoIndex false
      cb_alpha in
  exists s1 s2 s3,
    run "gene"%string s = (Returned tt, s1)
    /\ run "design_matrices"%string s1 = (Returned tt, s2)
    /\ run "mle"%string s2 = (Returned tt, s3)
    /\ input_queue s3
       = input_queue s
         ++ [ ("design_matrices"%string, Task gene_id NoIndex);
              ("mle"%string, Task gene_id NoIndex);
              ("FINISHED"%string, Task gene_id NoIndex) ]
    /\ op_lock s3 = false /\ input_queue_lock s3 = false
    /\ output s3 !! (gene_id, "gene"%string) = Some (VGene gene)
    /\ output s3 !! (gene_id, "mle"%string) = Some (VFreqs mle)
    /\ output s3 !! (gene_id, "fpkm"%string)
       = Some (VFpkms (calc_fpkm (beta_ppf ext) gene mle
                         (NUMBER_OF_READS_IN_BAM ext) (fst design) 0.5)).
Proof.
  intros Hready Hext Hts run. unfold run.
  pose proof Hready as (_ & _ & Hfields).
  assert (forall field, field ∈ initial_fields ->
            field <> "gene"%string /\ field <> "design_matrices"%string
            /\ field <> "mle"%string /\ field <> "fpkm"%string) as Hother.
  { intros field Hfield. unfold initial_fields in Hfield.
    repeat (apply elem_of_cons in Hfield as [->|Hfield]; [done|]).
    by apply elem_of_nil in Hfield. }
  assert (forall field, field ∈ initial_fields ->
            is_Some (<[(gene_id, "gene"%string) := VGene gene]> (output s)
                       !! (gene_id, field))) as Hfields1.
  { intros field Hfield. destruct (Hother field Hfield) as (? & _).
    rewrite lookup_insert_ne by congruence. by apply Hfields. }
  assert (forall field, field ∈ initial_fields ->
            is_Some (<[(gene_id, "design_matrices"%string)
                       := VDesign (fst design) (snd design)]>
                       (<[(gene_id, "gene"%string) := VGene gene]> (output s))
                       !! (gene_id, field))) as Hfields2.
  { intros field Hfield. destruct (Hother field Hfield) as (? & ? & _).
    rewrite lookup_insert_ne by congruence. by apply Hfields1. }
  eexists _, _, _.
  split; [by eapply gene_stage_runs|].
  split.
  { eapply design_matrices_stage_runs; [done|..].
    - apply lookup_insert_eq.
    - apply Hfields1. unfold initial_fields. repeat constructor.
    - apply Hfields1. unfold initial_fields. repeat constructor.
    - apply Hfields1. unfold initial_fields. repeat constructor.
    - apply Hfields1. unfold initial_fields. repeat constructor. }
  split.
  { eapply mle_stage_runs; [done|..].
    - apply lookup_insert_eq.
    - rewrite lookup_insert_ne by congruence. apply lookup_insert_eq.
    - apply Hfields2. unfold initial_fields. repeat constructor.
    - apply Hfields2. unfold initial_fields. repeat constructor.
    - apply Hfields2. unfold initial_fields. repeat constructor. }
  simpl. split; [by rewrite <- !app_assoc|]. split; [done|]. split; [done|].
  split; [|split].
  - rewrite !lookup_insert_ne by congruence. apply lookup_insert_eq.
  - rewrite lookup_insert_ne by congruence. apply lookup_insert_eq.
  - apply lookup_insert_eq.
Qed.

Lemma one_gene_ready_is_ready : ready 8 one_gene_ready.
Proof.
  split; [done|]. split; [done|]. intros field Hfield.
  unfold initial_fields in Hfield.
  repeat (apply elem_of_cons in Hfield as [->|Hfield];
          [by (vm_compute; eexists)|]).
  by apply elem_of_nil in Hfield.
Qed.

Lemma faulty_store_cooperative :
  cooperative faulty_store 8 sample_gene (0%float, 3%nat)
    [0.5; 0.25; 0.25]%float.
Proof.
  split; [|by repeat split]. intros field. simpl.
  destruct (decide ((8, field) = (7, "mle"%string))); [congruence|done].
Qed.

Lemma worker_stages_compose_witness :
  let run work_type :=
    estimate_gene_expression_worker faulty_store work_type 8 NoIndex false
      0.1%float in
  exists s1 s2 s3,
    run "gene"%string one_gene_ready = (Returned tt, s1)
    /\ run "design_matrices"%string s1 = (Returned tt, s2)
    /\ run "mle"%string s2 = (Returned tt, s3)
    /\ input_queue s3
       = input_queue one_gene_ready
         ++ [ ("design_matrices"%string, Task 8 NoIndex);
              ("mle"%string, Task 8 NoIndex);
              ("FINISHED"%string, Task 8 NoIndex) ]
    /\ op_lock s3 = false /\ input_queue_lock s3 = false
    /\ output s3 !! (8, "gene"%string) = Some (VGene sample_gene)
    /\ output s3 !! (8, "mle"%string)
       = Some (VFreqs [0.5; 0.25; 0.25]%float)
    /\ output s3 !! (8, "fpkm"%string)
       = Some (VFpkms (calc_fpkm (beta_ppf faulty_store) sample_gene
                         [0.5; 0.25; 0.25]%float
                         (NUMBER_OF_READS_IN_BAM faulty_store)
                         (fst (0%float, 3%nat)) 0.5)).
Proof.
  apply (worker_stages_compose faulty_store 8 sample_gene (0%float, 3%nat)
           [0.5; 0.25; 0.25]%float 0.1%float one_gene_ready).
  - apply one_gene_ready_is_ready.
  - apply faulty_store_cooperative.
  - discriminate.
Defined.

(** ** The abundance-tracking file: lines and failures *)

Lemma set_formatted_length fmt_2e i xs k line line' :
  set_formatted fmt_2e i xs k line = Some line' -> length line' = length line.
Proof.
  unfold set_formatted. destruct xs as [xs|]; [|by intros [= <-]].
  intros (x & _ & [= <-])%bind_Some. apply length_insert.
Qed.

Lemma set_formatted_cell fmt_2e i xs k line line' :
  set_formatted fmt_2e i xs k line = Some line' -> (i < length line)%nat ->
  match xs with
  | Some xs => exists x, xs !! k = Some x /\ line' !! i = Some (fmt_2e x)
  | None => line' !! i = line !! i
  end.
Proof.
  unfold set_formatted. destruct xs as [xs|]; [|by intros [= <-]].
  intros (x & Hx & [= <-])%bind_Some Hi. exists x. split; [done|].
  by apply list_lookup_insert_eq.
Qed.

Lemma set_formatted_is_Some fmt_2e i xs k line :
  is_Some (set_formatted fmt_2e i xs k line)
  <-> forall l, xs = Some l -> (k < length l)%nat.
Proof.
  unfold set_formatted. destruct xs as [xs|].
  - split.
    + intros [line' (x & Hx%lookup_lt_Some & _)%bind_Some] l [= <-]. done.
    + intros Hk. destruct (lookup_lt_is_Some_2 xs k) as [x ->]; [by apply Hk|].
      by eexists.
  - split; [done|]. intros _. by eexists.
Qed.

Lemma tracking_line_for_is_Some fmt_2e calc_length gene lbs ubs fpkms t k :
  is_Some (tracking_line_for fmt_2e calc_length gene lbs ubs fpkms t k)
  <-> forall xs, In (Some xs) [fpkms; lbs; ubs] -> (k < length xs)%nat.
Proof.
  unfold tracking_line_for. split.
  - intros [line (l1 & H1 & (l2 & H2 & H3)%bind_Some)%bind_Some] xs Hxs.
    assert (is_Some (set_formatted fmt_2e 8 fpkms k
              (<[11%nat:="OK"%string]>
                 (<[7%nat:=str_int (calc_length t)]>
                    (<[6%nat:=(chrm gene ++ ":" ++ str_int (t_start t) ++ "-"
                               ++ str_int (t_stop t))%string]>
                       (<[5%nat:=trans_id t]>
                          (<[0%nat:=gene_id gene]>
                             (replicate 12 "-"%string))))))))
      as Hs1 by (by eexists).
    assert (is_Some (set_formatted fmt_2e 9 lbs k l1)) as Hs2 by (by eexists).
    assert (is_Some (set_formatted fmt_2e 10 ubs k l2)) as Hs3 by (by eexists).
    rewrite set_formatted_is_Some in Hs1, Hs2, Hs3.
    destruct Hxs as [Hx|[Hx|[Hx|[]]]]; symmetry in Hx; eauto.
  - intros Hall.
    match goal with
    | |- is_Some (set_formatted _ _ _ _ ?l ≫= _) =>
        destruct (proj2 (set_formatted_is_Some fmt_2e 8 fpkms k l))
          as [l1 ->]
    end.
    { intros l ->. apply Hall. by left. }
    cbn [mbind option_bind].
    destruct (proj2 (set_formatted_is_Some fmt_2e 9 lbs k l1)) as [l2 ->].
    { intros l ->. apply Hall. right. by left. }
    cbn [mbind option_bind]. apply set_formatted_is_Some.
    intros l ->. apply Hall. right. right. by left.
Qed.

(** X20: the only way [write_gene_to_fpkm_tracking] can raise is an
    [IndexError]: it returns exactly when each of the arrays [fpkms], [lbs]
    and [ubs] that is supplied has an entry for every transcript that is
    not flagged as unobservable. *)
Theorem tracking_fails_only_on_short_arrays fmt_2e calc_length gene lbs ubs
    fpkms unobs :
  is_Some (write_gene_to_fpkm_tracking fmt_2e calc_length gene lbs ubs fpkms
             unobs)
  <-> forall xs, In (Some xs) [fpkms; lbs; ubs] ->
        (length (observable_transcripts unobs (transcripts gene))
         <= length xs)%nat.
Proof.
  unfold write_gene_to_fpkm_tracking.
  set (n := length (observable_transcripts unobs (transcripts gene))).
  assert (is_Some (tracking_lines fmt_2e calc_length gene lbs ubs fpkms unobs)
          <-> forall xs, In (Some xs) [fpkms; lbs; ubs] ->
                (n <= length xs)%nat) as Hlines.
  { split.
    - intros [lines Hlines] xs Hxs.
      destruct (tracking_lines_per_observable _ _ _ _ _ _ _ _ Hlines)
        as [Hlen Hall]. fold n in Hlen.
      destruct n as [|n']; [lia|].
      destruct (lookup_lt_is_Some_2 lines n') as [line Hline]; [lia|].
      destruct (Hall n' line Hline) as (t & _ & Hfor).
      assert (n' < length xs)%nat; [|lia].
      apply (proj1 (tracking_line_for_is_Some fmt_2e calc_length gene lbs ubs
                      fpkms t n')); [by eexists|done].
    - intros Hall. unfold tracking_lines.
      apply observable_loop_is_Some; [done|]. intros t k Hk.
      apply tracking_line_for_is_Some. intros xs Hxs.
      specialize (Hall xs Hxs). unfold n, observable_transcripts in Hall. lia. }
  rewrite <- Hlines. split.
  - intros [text (lines & Hl & _)%bind_Some]. by eexists.
  - intros [lines ->]. by eexists.
Qed.

(** X21: every line written for a gene has one field per column of the
    header written by [parse_arguments]; the field under [coverageFPKM] of
    the line of the [j]-th transcript that is not unobservable is the
    [j]-th entry of [fpkms], and those under [FPKM_conf_lo] and
    [FPKM_conf_hi] are the [j]-th entries of [lbs] and [ubs]; where an array
    is not supplied the field is a dash. *)
Theorem tracking_line_cells fmt_2e calc_length gene lbs ubs fpkms unobs
    lines :
  tracking_lines fmt_2e calc_length gene lbs ubs fpkms unobs = Some lines ->
  forall j line, lines !! j = Some line ->
    let cell name xs :=
      match xs with
      | Some xs => exists x, xs !! j = Some x
                             /\ cell_under name line = Some (fmt_2e x)
      | None => cell_under name line = Some "-"%string
      end in
    length line = length tracking_columns
    /\ cell "coverageFPKM"%string fpkms
    /\ cell "FPKM_conf_lo"%string lbs
    /\ cell "FPKM_conf_hi"%string ubs.
Proof.
  intros Hlines j line Hline.
  destruct (tracking_lines_per_observable _ _ _ _ _ _ _ _ Hlines)
    as [_ Hall].
  destruct (Hall j line Hline) as (t & _ & Hfor). clear Hall.
  unfold tracking_line_for in Hfor.
  apply bind_Some in Hfor as (l1 & H1 & Hfor).
  apply bind_Some in Hfor as (l2 & H2 & H3).
  pose proof (set_formatted_length _ _ _ _ _ _ H1) as Hlen1.
  pose proof (set_formatted_length _ _ _ _ _ _ H2) as Hlen2.
  pose proof (set_formatted_length _ _ _ _ _ _ H3) as Hlen3.
  rewrite !length_insert, length_replicate in Hlen1.
  pose proof (set_formatted_cell _ _ _ _ _ _ H1 ltac:(rewrite !length_insert,
                length_replicate; lia)) as Hc1.
  pose proof (set_formatted_cell _ _ _ _ _ _ H2 ltac:(lia)) as Hc2.
  pose proof (set_formatted_cell _ _ _ _ _ _ H3 ltac:(lia)) as Hc3.
  cbv zeta. unfold cell_under. simpl.
  split; [lia|]. split; [|split].
  - rewrite (set_formatted_lookup_other _ _ _ _ _ _ 8 H3) by done.
    rewrite (set_formatted_lookup_other _ _ _ _ _ _ 8 H2) by done.
    destruct fpkms as [xs|]; [done|]. by rewrite Hc1.
  - rewrite (set_formatted_lookup_other _ _ _ _ _ _ 9 H3) by done.
    destruct lbs as [xs|]; [done|]. rewrite Hc2.
    by rewrite (set_formatted_lookup_other _ _ _ _ _ _ 9 H1) by done.
  - destruct ubs as [xs|]; [done|]. rewrite Hc3.
    rewrite (set_formatted_lookup_other _ _ _ _ _ _ 10 H2) by done.
    by rewrite (set_formatted_lookup_other _ _ _ _ _ _ 10 H1) by done.
Qed.

Lemma single_transcript_line_written :
  tracking_lines fmt_floor t_len single_transcript_gene (Some [1%Q])
    (Some [3%Q]) (Some [2%Q]) ∅
  = Some [single_transcript_line].
Proof. vm_compute. reflexivity. Qed.

Lemma tracking_line_cells_witness :
  let cell name xs :=
    match xs with
    | Some xs => exists x, xs !! 0%nat = Some x
                           /\ cell_under name single_transcript_line
                              = Some (fmt_floor x)
    | None => cell_under name single_transcript_line = Some "-"%string
    end in
  length single_transcript_line = length tracking_columns
  /\ cell "coverageFPKM"%string (Some [2%Q])
  /\ cell "FPKM_conf_lo"%string (Some [1%Q])
  /\ cell "FPKM_conf_hi"%string (Some [3%Q]).
Proof.
  apply (tracking_line_cells fmt_floor t_len single_transcript_gene
           (Some [1%Q]) (Some [3%Q]) (Some [2%Q]) ∅ [single_transcript_line]
           single_transcript_line_written 0 single_transcript_line).
  reflexivity.
Defined.

(** ** Genes read from a GTF file *)

Lemma fold_min_Z_In xs : forall x,
  fold_left Z.min xs x = x \/ In (fold_left Z.min xs x) xs.
Proof.
  induction xs as [|y xs IH]; intros x; simpl; [by left|].
  destruct (IH (Z.min x y)) as [->|Hin]; [|by right; right].
  destruct (Z.min_spec x y) as [[_ ->]|[_ ->]]; [by left|by right; left].
Qed.

Lemma min_Z_In xs m : min_Z xs = Some m -> In m xs.
Proof.
  destruct xs as [|x xs]; [done|]. intros [= <-].
  destruct (fold_min_Z_In xs x) as [->|?]; [by left|by right].
Qed.

Lemma mapM_Some_length {A B} (f : A -> option B) l k :
  mapM f l = Some k -> length l = length k.
Proof. intros H%mapM_Some_1. by eapply Forall2_length. Qed.

Lemma min_Z_is_Some xs : is_Some (min_Z xs) <-> xs <> [].
Proof.
  destruct xs as [|x xs]; simpl; split.
  - by intros [? ?].
  - done.
  - done.
  - intros _. by eexists.
Qed.

Lemma load_transcript_is_Some chrm strand gene_id ct :
  is_Some (load_transcript chrm strand gene_id ct)
  <-> (cds_start ct = -1 <-> cds_stop ct = -1).
Proof.
  unfold load_transcript.
  destruct (Z.eqb_spec (cds_start ct) (-1)), (Z.eqb_spec (cds_stop ct) (-1));
    simpl; split; try tauto; try (intros _; by eexists);
    intros [? ?]; done.
Qed.

Lemma load_transcript_exons chrm strand gene_id ct t :
  load_transcript chrm strand gene_id ct = Some t ->
  exons t = map (fun x => (c_start x, c_stop x)) (c_exons ct)
  /\ trans_id t = c_trans_id ct /\ t_chrm t = chrm /\ t_strand t = strand
  /\ t_gene_id t = gene_id.
Proof.
  unfold load_transcript. by intros (cds & _ & [= <-])%bind_Some.
Qed.

Lemma exon_bnds_nil t : exon_bnds t = [] <-> exons t = [].
Proof. unfold exon_bnds. by destruct (exons t). Qed.

(** X22: [load_gtf] raises on a parsed gene exactly in three cases: the
    gene has no transcript, one of its transcripts has no exon (both are
    the [ValueError] of [min] on an empty sequence), or exactly one of the
    two CDS bounds of a transcript is [-1] (the failed [assert]). *)
Theorem load_gene_is_Some g :
  is_Some (load_gene g)
  <-> c_transcripts g <> []
      /\ Forall (fun ct => c_exons ct <> []
                           /\ (cds_start ct = -1 <-> cds_stop ct = -1))
           (c_transcripts g).
Proof.
  unfold load_gene.
  set (chrm := if String.prefix "chr" (c_chrm g) then _ else _).
  split.
  - intros [gene Hgene].
    apply bind_Some in Hgene as (ts & Hts & Hgene).
    apply bind_Some in Hgene as (mins & Hmins & Hgene).
    apply bind_Some in Hgene as (m & Hm & _).
    pose proof (mapM_Some_length _ _ _ Hts) as Hlen1.
    pose proof (mapM_Some_length _ _ _ Hmins) as Hlen2.
    split.
    { intros Hnil. rewrite Hnil in Hlen1. destruct mins; [done|].
      simpl in *. lia. }
    apply Forall_forall. intros ct Hct.
    destruct (mapM_elem_of_l _ _ _ _ Hts Hct) as (t & Ht & Hload).
    destruct (mapM_elem_of_l _ _ _ _ Hmins Ht) as (mt & _ & Hmt).
    split.
    + intros Hnil. apply load_transcript_exons in Hload as (Hex & _).
      rewrite Hnil in Hex. apply exon_bnds_nil in Hex. by rewrite Hex in Hmt.
    + apply (load_transcript_is_Some chrm (c_strand g) (c_gene_id g)).
      by eexists.
  - intros [Hne Hall].
    destruct (mapM_is_Some_2 (load_transcript chrm (c_strand g) (c_gene_id g))
                (c_transcripts g)) as [ts Hts].
    { eapply Forall_impl; [exact Hall|]. intros ct [_ Hcds].
      by apply load_transcript_is_Some. }
    rewrite Hts. cbn [mbind option_bind].
    destruct (mapM_is_Some_2 (fun t => min_Z (exon_bnds t)) ts)
      as [mins Hmins].
    { apply Forall_forall. intros t Ht.
      destruct (mapM_elem_of_r _ _ _ _ Hts Ht) as (ct & Hct & Hload).
      apply min_Z_is_Some. rewrite exon_bnds_nil.
      apply load_transcript_exons in Hload as (-> & _).
      apply (proj1 (Forall_forall _ _) Hall) in Hct as [Hex _].
      by destruct (c_exons ct). }
    rewrite Hmins. cbn [mbind option_bind].
    destruct (proj2 (min_Z_is_Some mins)) as [m ->]; [|by eexists].
    intros ->. apply mapM_Some_length in Hts. apply mapM_Some_length in Hmins.
    destruct ts; [|done]. by destruct (c_transcripts g).
Qed.

(** X23: in a gene returned by [load_gtf] the lower bound is the least
    exon boundary of its transcripts, recomputed whatever [min_loc] the
    parser reported: no exon starts or stops below it and some exon
    boundary equals it.  The upper bound is the parser's [max_loc], and the
    transcripts are the parsed ones, in order, with their exons. *)
Theorem load_gene_bounds_and_transcripts g gene :
  load_gene g = Some gene ->
  (forall t e, t ∈ transcripts gene -> e ∈ exons t ->
     g_min gene <= fst e /\ g_min gene <= snd e)
  /\ (exists t e, t ∈ transcripts gene /\ e ∈ exons t
                  /\ (g_min gene = fst e \/ g_min gene = snd e))
  /\ g_max gene = max_loc g
  /\ map trans_id (transcripts gene) = map c_trans_id (c_transcripts g)
  /\ map exons (transcripts gene)
     = map (fun ct => map (fun x => (c_start x, c_stop x)) (c_exons ct))
         (c_transcripts g).
Proof.
  unfold load_gene.
  set (chrm := if String.prefix "chr" (c_chrm g) then _ else _).
  intros Hgene.
  apply bind_Some in Hgene as (ts & Hts & Hgene).
  apply bind_Some in Hgene as (mins & Hmins & Hgene).
  apply bind_Some in Hgene as (m & Hm & [= <-]). simpl.
  assert (forall t b, t ∈ ts -> In b (exon_bnds t) -> m <= b) as Hlow.
  { intros t b Ht Hb.
    destruct (mapM_elem_of_l _ _ _ _ Hmins Ht) as (mt & Hmt & Hmin_t).
    assert (m <= mt) by (by eapply min_Z_le).
    assert (mt <= b); [|lia].
    eapply min_Z_le; [done|]. by apply list_elem_of_In. }
  split; [|split; [|split; [done|split]]].
  - intros t e Ht He. apply list_elem_of_In in He.
    split; apply (Hlow t); try done; unfold exon_bnds; apply in_flat_map;
      exists e; (split; [done|]); simpl; tauto.
  - apply min_Z_In, list_elem_of_In in Hm.
    destruct (mapM_elem_of_r _ _ _ _ Hmins Hm) as (t & Ht & Hmt).
    apply min_Z_In in Hmt. unfold exon_bnds in Hmt.
    apply in_flat_map in Hmt as (e & He & Hme).
    exists t, e. split; [done|]. split; [by apply list_elem_of_In|].
    simpl in Hme. destruct Hme as [<-|[<-|[]]]; [by left|by right].
  - apply mapM_Some_1 in Hts. clear -Hts.
    induction Hts as [|ct t cts ts Hload _ IH]; [done|]. simpl.
    apply load_transcript_exons in Hload as (_ & -> & _). by rewrite IH.
  - apply mapM_Some_1 in Hts. clear -Hts.
    induction Hts as [|ct t cts ts Hload _ IH]; [done|]. simpl.
    apply load_transcript_exons in Hload as (-> & _). by rewrite IH.
Qed.

Lemma load_gene_bounds_and_transcripts_witness :
  let gene :=
    {| gene_id := "G1"; chrm := "2L"; g_strand := "+";
       g_min := 100; g_max := 1299;
       transcripts :=
         [new_Transcript "G1_0" "2L" "+" [(100, 599); (800, 1299)]
            None "G1" None] |} in
  (forall t e, t ∈ transcripts gene -> e ∈ exons t ->
     g_min gene <= fst e /\ g_min gene <= snd e)
  /\ (exists t e, t ∈ transcripts gene /\ e ∈ exons t
                  /\ (g_min gene = fst e \/ g_min gene = snd e))
  /\ g_max gene = max_loc sample_parsed_gene
  /\ map trans_id (transcripts gene)
     = map c_trans_id (c_transcripts sample_parsed_gene)
  /\ map exons (transcripts gene)
     = map (fun ct => map (fun x => (c_start x, c_stop x)) (c_exons ct))
         (c_transcripts sample_parsed_gene).
Proof.
  apply (load_gene_bounds_and_transcripts sample_parsed_gene). reflexivity.
Defined.

(** ** The assembly file: attributes of a record *)

Lemma meta_entry_spec key xs k es :
  meta_entry key xs k = Some es ->
  (forall key' x, In (key', x) es -> key' = key)
  /\ match xs with
     | Some l => exists x, l !! k = Some x /\ es = [(key, x)]
     | None => es = []
     end.
Proof.
  unfold meta_entry. destruct xs as [l|].
  - intros (x & Hx & [= <-])%bind_Some. split.
    + by intros key' x' [[= <- _]|[]].
    + by exists x.
  - intros [= <-]. split; [by intros ? ? []|done].
Qed.

(** X24: in the [j]-th record that [write_gene_to_gtf] writes, each of
    the attributes [frac], [conf_lo], [conf_hi] and [FPKM] is present
    exactly when its array is supplied, and then carries the [j]-th entry
    of that array, where [j] counts the transcripts that are not
    unobservable; and unless both bound arrays are supplied the transcript
    is written with the score it had. *)
Theorem write_gene_to_gtf_attributes gene mles lbs ubs fpkms unobs records :
  write_gene_to_gtf gene mles lbs ubs fpkms unobs = Some records ->
  forall j rec, records !! j = Some rec ->
    exists t,
      observable_transcripts unobs (transcripts gene) !! j = Some t
      /\ (forall key xs,
            In (key, xs) [ ("frac"%string, mles); ("conf_lo"%string, lbs);
                           ("conf_hi"%string, ubs); ("FPKM"%string, fpkms) ] ->
            match xs with
            | Some l => exists x, l !! j = Some x
                                  /\ forall y, In (key, y) (meta_data rec)
                                               <-> y = x
            | None => forall y, ~ In (key, y) (meta_data rec)
            end)
      /\ (lbs = None \/ ubs = None -> rec_transcript rec = t).
Proof.
  unfold write_gene_to_gtf. case_match; [|done]. intros Hloop j rec Hj.
  apply observable_loop_lookup in Hloop as [_ Hall]; [|done].
  destruct (Hall j rec Hj) as (t & Ht & Hrec).
  change (0 - 0 + j)%nat with j in Hrec. exists t. split; [done|].
  unfold gtf_record_for in Hrec.
  apply bind_Some in Hrec as (e1 & [K1 E1]%meta_entry_spec & Hrec).
  apply bind_Some in Hrec as (e2 & [K2 E2]%meta_entry_spec & Hrec).
  apply bind_Some in Hrec as (e3 & [K3 E3]%meta_entry_spec & Hrec).
  apply bind_Some in Hrec as (e4 & [K4 E4]%meta_entry_spec & Hrec).
  apply bind_Some in Hrec as (t' & Hscore & [= <-]). simpl. split.
  - assert (forall key y, In (key, y) (e1 ++ e2 ++ e3 ++ e4)
              <-> In (key, y) e1 \/ In (key, y) e2 \/ In (key, y) e3
                  \/ In (key, y) e4) as Hin.
    { intros key y. rewrite !in_app_iff. tauto. }
    intros key xs [[= <- <-]|[[= <- <-]|[[= <- <-]|[[= <- <-]|[]]]]].
    + destruct mles as [l|].
      * destruct E1 as (x & Hx & ->). exists x. split; [done|]. intros y.
        rewrite Hin. split.
        -- intros [[[= ->]|[]]|[Hk|[Hk|Hk]]]; [done|..];
             [apply K2 in Hk|apply K3 in Hk|apply K4 in Hk]; done.
        -- intros ->. left. by left.
      * subst e1. intros y. rewrite Hin.
        intros [[]|[Hk|[Hk|Hk]]];
          [apply K2 in Hk|apply K3 in Hk|apply K4 in Hk]; done.
    + destruct lbs as [l|].
      * destruct E2 as (x & Hx & ->). exists x. split; [done|]. intros y.
        rewrite Hin. split.
        -- intros [Hk|[[[= ->]|[]]|[Hk|Hk]]]; [|done|..];
             [apply K1 in Hk|apply K3 in Hk|apply K4 in Hk]; done.
        -- intros ->. right. left. by left.
      * subst e2. intros y. rewrite Hin.
        intros [Hk|[[]|[Hk|Hk]]];
          [apply K1 in Hk|apply K3 in Hk|apply K4 in Hk]; done.
    + destruct ubs as [l|].
      * destruct E3 as (x & Hx & ->). exists x. split; [done|]. intros y.
        rewrite Hin. split.
        -- intros [Hk|[Hk|[[[= ->]|[]]|Hk]]]; [| |done|];
             [apply K1 in Hk|apply K2 in Hk|apply K4 in Hk]; done.
        -- intros ->. right. right. left. by left.
      * subst e3. intros y. rewrite Hin.
        intros [Hk|[Hk|[[]|Hk]]];
          [apply K1 in Hk|apply K2 in Hk|apply K4 in Hk]; done.
    + destruct fpkms as [l|].
      * destruct E4 as (x & Hx & ->). exists x. split; [done|]. intros y.
        rewrite Hin. split.
        -- intros [Hk|[Hk|[Hk|[[= ->]|[]]]]]; [| | |done];
             [apply K1 in Hk|apply K2 in Hk|apply K3 in Hk]; done.
        -- intros ->. right. right. right. by left.
      * subst e4. intros y. rewrite Hin.
        intros [Hk|[Hk|[Hk|[]]]];
          [apply K1 in Hk|apply K2 in Hk|apply K3 in Hk]; done.
  - intros [-> | ->]; [by injection Hscore|].
    destruct lbs; by injection Hscore.
Qed.

Lemma write_gene_to_gtf_attributes_witness :
  let rec := {| rec_transcript :=
                  set_score
                    (sample_transcript "G1_2" [(100, 299); (800, 1299)]) 59;
                meta_data :=
                  [("conf_lo"%string, 1%Q); ("conf_hi"%string, 3 # 5)] |} in
  exists t,
    observable_transcripts {[1%nat]} (transcripts sample_gene) !! 1%nat
    = Some t
    /\ (forall key xs,
          In (key, xs) [ ("frac"%string, None);
                         ("conf_lo"%string, Some [10; 1]%Q);
                         ("conf_hi"%string, Some [9 # 10; 3 # 5]%Q);
                         ("FPKM"%string, None) ] ->
          match xs with
          | Some l => exists x, l !! 1%nat = Some x
                                /\ forall y, In (key, y) (meta_data rec)
                                             <-> y = x
          | None => forall y, ~ In (key, y) (meta_data rec)
          end)
    /\ (Some [10; 1]%Q = None \/ Some [9 # 10; 3 # 5]%Q = None ->
        rec_transcript rec = t).
Proof.
  apply (write_gene_to_gtf_attributes sample_gene None (Some [10; 1]%Q)
           (Some [9 # 10; 3 # 5]%Q) None {[1%nat]} sample_gtf_records
           sample_gtf_records_written 1%nat).
  reflexivity.
Defined.

(** ** Junction pre-filtering *)

Lemma count_of_notin jn l : jn ∉ l.*1 -> count_of jn l = 0.
Proof.
  induction l as [|[jn' c] l IH]; simpl; [done|].
  intros Hnotin. apply not_elem_of_cons in Hnotin as [Hne Hnotin].
  destruct (decide (jn' = jn)); [congruence|by apply IH].
Qed.

Lemma count_of_nonneg jn l :
  (forall jn' c, (jn', c) ∈ l -> 0 <= c) -> 0 <= count_of jn l.
Proof.
  induction l as [|[jn' c] l IH]; simpl; intros Hl; [done|].
  assert (0 <= count_of jn l).
  { apply IH. intros jn'' c' Hin. apply (Hl jn'' c'). by right. }
  assert (0 <= c) by (apply (Hl jn' c); by left).
  destruct (decide (jn' = jn)); lia.
Qed.

Lemma count_of_cons jn jn' c l :
  count_of jn ((jn', c) :: l)
  = if decide (jn' = jn) then c + count_of jn l else count_of jn l.
Proof. done. Qed.

Lemma sum_counts_from l : forall (d : gmap interval Z) jn,
  fold_left (fun d '(jn, cnt) => <[jn := default 0 (d !! jn) + cnt]> d) l d
    !! jn
  = if decide (jn ∈ l.*1) then Some (default 0 (d !! jn) + count_of jn l)
    else d !! jn.
Proof.
  induction l as [|[jn' c] l IH]; intros d jn.
  { simpl. destruct (decide (jn ∈ [])) as [Hin|]; [|done].
    by apply elem_of_nil in Hin. }
  cbn [fold_left fmap list_fmap fst]. rewrite IH, count_of_cons.
  destruct (decide (jn' = jn)) as [->|Hne].
  - rewrite lookup_insert_eq. cbn [default from_option]. unfold id.
    destruct (decide (jn ∈ jn :: l.*1)) as [_|Hnotin];
      [|destruct Hnotin; by left].
    destruct (decide (jn ∈ l.*1)) as [Hin|Hnotin]; [f_equal; lia|].
    rewrite (count_of_notin jn l Hnotin). f_equal. lia.
  - rewrite lookup_insert_ne by done.
    destruct (decide (jn ∈ l.*1)) as [Hin|Hnotin].
    + destruct (decide (jn ∈ jn' :: l.*1)) as [_|Hn]; [done|].
      destruct Hn. by right.
    + destruct (decide (jn ∈ jn' :: l.*1)) as [Hin|_]; [|done].
      apply elem_of_cons in Hin as [?|?]; [congruence|done].
Qed.

(** The dictionary built by summing: one entry per listed junction, with
    the sum of its counts. *)
Lemma sum_counts_lookup l jn c :
  sum_counts l !! jn = Some c <-> jn ∈ l.*1 /\ c = count_of jn l.
Proof.
  unfold sum_counts. rewrite sum_counts_from, lookup_empty. simpl.
  destruct (decide (jn ∈ l.*1)); split.
  - intros [= <-]. split; first [done|lia].
  - intros [_ ->]. f_equal; lia.
  - done.
  - by intros [? _].
Qed.

Lemma best_at_unique key jns k m m' :
  best_at key jns k m -> best_at key jns k m' -> m = m'.
Proof.
  intros (H0 & Hub & Hat) (H0' & Hub' & Hat').
  assert (m <= m').
  { destruct Hat as [->|(jn & Hjn & Hk)]; [done|]. by apply (Hub' jn). }
  assert (m' <= m); [|lia].
  destruct Hat' as [->|(jn & Hjn & Hk)]; [done|]. by apply (Hub jn).
Qed.

Lemma best_counts_spec key jns k :
  best_at key jns k (default 0 (best_counts key jns !! k)).
Proof.
  unfold best_counts. revert k.
  apply (map_fold_weak_ind
           (fun best m => forall k, best_at key m k (default 0 (best !! k)))).
  { intros k. rewrite lookup_empty. simpl. split; [done|]. split; [|by left].
    intros jn cnt Hjn. by rewrite lookup_empty in Hjn. }
  intros i x m r Hi IH k.
  destruct (IH k) as (H0 & Hub & Hat).
  destruct (decide (key i = k)) as [<-|Hne].
  - rewrite lookup_insert_eq. simpl.
    set (old := default 0 (r !! key i)) in *. split; [lia|]. split.
    + intros jn cnt Hjn Hk. destruct (decide (jn = i)) as [->|Hji].
      * rewrite lookup_insert_eq in Hjn. injection Hjn as <-. lia.
      * rewrite lookup_insert_ne in Hjn by done.
        pose proof (Hub jn cnt Hjn Hk). lia.
    + destruct (Z.max_spec old x) as [[Hlt ->]|[Hge ->]].
      * right. exists i. by rewrite lookup_insert_eq.
      * destruct Hat as [->|(jn & Hjn & Hk)]; [by left|]. right.
        exists jn. split; [|done].
        rewrite lookup_insert_ne; [done|]. intros ->. congruence.
  - rewrite lookup_insert_ne by done. split; [done|]. split.
    + intros jn cnt Hjn Hk. destruct (decide (jn = i)) as [->|Hji];
        [congruence|].
      rewrite lookup_insert_ne in Hjn by done. by apply (Hub jn).
    + destruct Hat as [->|(jn & Hjn & Hk)]; [by left|]. right.
      exists jn. split; [|done].
      rewrite lookup_insert_ne; [done|]. intros ->. congruence.
Qed.

Lemma ratio_le_1 cnt a :
  0 <= a ->
  Qle_bool ((inject_Z cnt + 1) / inject_Z (a + 1)) 1 = true <-> cnt <= a.
Proof.
  intros Ha. rewrite Qle_bool_iff.
  assert (0 < inject_Z (a + 1))%Q as Hpos.
  { unfold Qlt, inject_Z. simpl. lia. }
  split.
  - intros Hle. destruct (Z.le_gt_cases cnt a) as [?|Hgt]; [done|].
    exfalso. apply (Qlt_not_le _ _ (Qlt_shift_div_l 1 (inject_Z cnt + 1)
                                      (inject_Z (a + 1)) Hpos
                                      ltac:(unfold Qlt, Qmult, Qplus, inject_Z;
                                            simpl; lia))).
    done.
  - intros Hle. apply Qle_shift_div_r; [done|].
    unfold Qle, Qmult, Qplus, inject_Z. simpl. lia.
Qed.

Lemma Qlt_bool_true x y : Qlt_bool x y = true <-> ~ (y <= x)%Q.
Proof.
  unfold Qlt_bool. rewrite negb_true_iff.
  rewrite <- Qle_bool_iff. by destruct (Qle_bool y x).
Qed.

(** When a junction is kept, for a non-negative count on the other
    strand. *)
Lemma keeps_junction_spec beta_ppf NOISE MAX starts stops anti jn cnt :
  (forall a, anti !! jn = Some a -> 0 <= a) ->
  exists b,
    keeps_junction beta_ppf NOISE MAX starts stops anti jn cnt = Some b
    /\ (b = true
        <-> (NOISE <= beta_ppf (1 # 100) (inject_Z (cnt + 1))
                        (inject_Z (default 0%Z (starts !! fst jn) + 1)))%Q
            /\ (NOISE <= beta_ppf (1 # 100) (inject_Z (cnt + 1))
                           (inject_Z (default 0%Z (stops !! snd jn) + 1)))%Q
            /\ (forall a, anti !! jn = Some a -> a < cnt)
            /\ snd jn - fst jn + 1 <= MAX).
Proof.
  intros Hanti. destruct jn as [start stop]. unfold keeps_junction. simpl.
  match goal with
  | |- context [Qlt_bool ?x NOISE] => destruct (Qlt_bool x NOISE) eqn:E1
  end.
  { exists false. split; [done|]. split; [done|].
    intros (Hs & _). by apply Qlt_bool_true in E1. }
  match goal with
  | |- context [Qlt_bool ?x NOISE] => destruct (Qlt_bool x NOISE) eqn:E2
  end.
  { exists false. split; [done|]. split; [done|].
    intros (_ & He & _). by apply Qlt_bool_true in E2. }
  apply Qlt_bool_false in E1. apply Qlt_bool_false in E2.
  destruct (anti !! (start, stop)) as [a|] eqn:Ea.
  - pose proof (Hanti a eq_refl) as Ha.
    rewrite fdiv_nonzero.
    2:{ unfold Qeq, inject_Z. simpl. lia. }
    cbn [mbind option_bind].
    destruct (Qle_bool _ 1) eqn:Er.
    + apply ratio_le_1 in Er; [|done]. exists false. split; [done|].
      split; [done|]. intros (_ & _ & Hlt & _). specialize (Hlt a eq_refl).
      lia.
    + assert (a < cnt) as Hlt.
      { destruct (Z.le_gt_cases cnt a) as [Hle|?]; [|lia].
        apply (ratio_le_1 cnt a Ha) in Hle. congruence. }
      eexists. split; [done|]. rewrite negb_true_iff, Z.ltb_ge.
      split; [|tauto]. intros Hmax. repeat split; try done.
      by intros ? [= <-].
  - cbn [mbind option_bind]. eexists. split; [done|].
    rewrite negb_true_iff, Z.ltb_ge. split; [|tauto].
    intros Hmax. by repeat split.
Qed.

(** [filter_junctions] returns, and keeps exactly the junctions that pass
    the four tests. *)
Lemma filter_junctions_spec beta_ppf NOISE MAX jns anti :
  (forall jn a, anti !! jn = Some a -> 0 <= a) ->
  exists kept,
    filter_junctions beta_ppf NOISE MAX jns anti = Some kept
    /\ forall jn cnt,
         kept !! jn = Some cnt
         <-> junction_kept beta_ppf NOISE MAX jns anti jn cnt.
Proof.
  intros Hanti. unfold filter_junctions. cbv zeta.
  destruct (decide _) as [_|Hraise].
  2:{ destruct Hraise. intros jn cnt _.
      destruct (keeps_junction_spec beta_ppf NOISE MAX (best_counts fst jns)
                  (best_counts snd jns) anti jn cnt (Hanti jn))
        as (b & -> & _). by eexists. }
  eexists. split; [done|]. intros jn cnt.
  rewrite map_lookup_filter_Some. simpl.
  destruct (keeps_junction_spec beta_ppf NOISE MAX (best_counts fst jns)
              (best_counts snd jns) anti jn cnt (Hanti jn))
    as (b & -> & Hb).
  unfold junction_kept. split.
  - intros [Hjn [= ->]]. destruct (proj1 Hb eq_refl) as (Hs & He & Ha & Hm).
    split; [done|]. split; [|split; [|done]].
    + eexists. split; [apply best_counts_spec|done].
    + eexists. split; [apply best_counts_spec|done].
  - intros (Hjn & (ms & Hms & Hs) & (me & Hme & He) & Ha & Hm).
    split; [done|]. f_equal. apply Hb.
    rewrite (best_at_unique _ _ _ _ _ (best_counts_spec fst jns (fst jn)) Hms).
    rewrite (best_at_unique _ _ _ _ _ (best_counts_spec snd jns (snd jn)) Hme).
    done.
Qed.

(** X25: given read counts that are not negative, [prefilter_jns] never
    raises and returns two dictionaries, for the plus and for the minus
    strand.  The counts listed for one junction have been added up; a
    junction is kept, with that sum, exactly when it passes the noise test
    against the best-supported junction sharing its start and against the
    one sharing its stop, has strictly more reads than the same junction on
    the opposite strand, and is no longer than [MAX_INTRON_SIZE]. *)
Theorem prefilter_jns_keeps_exactly beta_ppf NOISE MAX plus_jns minus_jns :
  (forall jn c, (jn, c) ∈ plus_jns ++ minus_jns -> 0 <= c) ->
  exists plus minus kept_plus kept_minus,
    prefilter_jns beta_ppf NOISE MAX plus_jns minus_jns
    = Some [kept_plus; kept_minus]
    /\ (forall jn c, plus !! jn = Some c
                     <-> jn ∈ plus_jns.*1 /\ c = count_of jn plus_jns)
    /\ (forall jn c, minus !! jn = Some c
                     <-> jn ∈ minus_jns.*1 /\ c = count_of jn minus_jns)
    /\ (forall jn cnt,
          kept_plus !! jn = Some cnt
          <-> junction_kept beta_ppf NOISE MAX plus minus jn cnt)
    /\ (forall jn cnt,
          kept_minus !! jn = Some cnt
          <-> junction_kept beta_ppf NOISE MAX minus plus jn cnt).
Proof.
  intros Hnonneg.
  assert (forall l, (forall jn c, (jn, c) ∈ l -> 0 <= c) ->
            forall jn a, sum_counts l !! jn = Some a -> 0 <= a) as Hsum.
  { intros l Hl jn a [_ ->]%sum_counts_lookup. by apply count_of_nonneg. }
  assert (forall jn a, sum_counts plus_jns !! jn = Some a -> 0 <= a) as Hp.
  { apply Hsum. intros jn c Hin. apply (Hnonneg jn c), elem_of_app. by left. }
  assert (forall jn a, sum_counts minus_jns !! jn = Some a -> 0 <= a) as Hm.
  { apply Hsum. intros jn c Hin. apply (Hnonneg jn c), elem_of_app. by right. }
  exists (sum_counts plus_jns), (sum_counts minus_jns).
  unfold prefilter_jns. cbv zeta. cbn [mapM].
  destruct (decide (sum_counts plus_jns = sum_counts plus_jns)) as [_|];
    [|done].
  destruct (filter_junctions_spec beta_ppf NOISE MAX (sum_counts plus_jns)
              (sum_counts minus_jns) Hm) as (kept_plus & -> & Hkp).
  cbn [mbind option_bind].
  assert ((if decide (sum_counts minus_jns = sum_counts plus_jns)
           then sum_counts minus_jns else sum_counts plus_jns)
          = sum_counts plus_jns) as ->.
  { by destruct (decide (sum_counts minus_jns = sum_counts plus_jns)). }
  destruct (filter_junctions_spec beta_ppf NOISE MAX (sum_counts minus_jns)
              (sum_counts plus_jns) Hp) as (kept_minus & -> & Hkm).
  exists kept_plus, kept_minus. split; [done|].
  split; [apply sum_counts_lookup|]. split; [apply sum_counts_lookup|].
  by split.
Qed.

Lemma prefilter_jns_keeps_exactly_witness :
  let plus_jns := [((10, 19), 3); ((10, 19), 2); ((10, 29), 1)] in
  let minus_jns := [((10, 19), 1)] in
  exists plus minus kept_plus kept_minus,
    prefilter_jns beta_mean (1 # 10) 50000 plus_jns minus_jns
    = Some [kept_plus; kept_minus]
    /\ (forall jn c, plus !! jn = Some c
                     <-> jn ∈ plus_jns.*1 /\ c = count_of jn plus_jns)
    /\ (forall jn c, minus !! jn = Some c
                     <-> jn ∈ minus_jns.*1 /\ c = count_of jn minus_jns)
    /\ (forall jn cnt,
          kept_plus !! jn = Some cnt
          <-> junction_kept beta_mean (1 # 10) 50000 plus minus jn cnt)
    /\ (forall jn cnt,
          kept_minus !! jn = Some cnt
          <-> junction_kept beta_mean (1 # 10) 50000 minus plus jn cnt).
Proof.
  apply prefilter_jns_keeps_exactly.
  intros jn c Hin. simpl in Hin.
  repeat (apply elem_of_cons in Hin as [[= -> ->]|Hin]; [lia|]).
  by apply elem_of_nil in Hin.
Defined.

(** ** The ['mle'] stage with confidence bounds *)

(** X26: with confidence bounds requested, and in an environment where
    nothing fails, the ['mle'] stage of a gene whose design matrices are in
    the store returns with both locks free after queueing, behind
    everything already queued, one ['lb'] and one ['ub'] unit per group of
    transcript indices; the groups partition the indices [0 .. n-1] of the
    [n] transcripts of the design matrices, so each transcript gets exactly
    one unit of either kind. *)
Theorem mle_stage_queues_bound_units ext gene_id gene design mle trans_index
    cb_alpha queue out :
  cooperative ext gene_id gene design mle ->
  out !! (gene_id, "design_matrices"%string)
  = Some (VDesign (fst design) (snd design)) ->
  out !! (gene_id, "gene"%string) = Some (VGene gene) ->
  is_Some (out !! (gene_id, "fl_dists"%string)) ->
  is_Some (out !! (gene_id, "promoter_reads"%string)) ->
  is_Some (out !! (gene_id, "rnaseq_reads"%string)) ->
  exists groups s',
    estimate_gene_expression_worker ext "mle" gene_id trans_index true
      cb_alpha
      {| input_queue := queue; output := out; op_lock := false;
         input_queue_lock := false |}
    = (Returned tt, s')
    /\ input_queue s'
       = queue
         ++ flat_map (fun indices =>
                        [ ("lb"%string, Task gene_id (Indices indices));
                          ("ub"%string, Task gene_id (Indices indices)) ])
              groups
    /\ op_lock s' = false /\ input_queue_lock s' = false
    /\ concat groups = seq 0 (snd design)
    /\ Forall (fun g => g <> [] /\ (length g <= 50)%nat) groups.
Proof.
  intros (Hfault & Hqueue & _ & _ & Hopen & _ & Hmle & Hlhd) Hdesign Hgene
    [? ?] [? ?] [? ?].
  exists (grouped_indices (snd design)).
  destruct (grouped_indices_shape (snd design)) as (Hcat & Hall & _).
  unfold estimate_gene_expression_worker, try_block, mle_stage, attempt,
    store_get, store_set, as_gene, as_design, call, mbind, M_bind, bind,
    mret, M_ret, ret, op_lock_acquire, op_lock_release,
    input_queue_lock_acquire, input_queue_lock_release.
  cbn -[grouped_indices for_each calc_fpkm].
  repeat (match goal with
          | H : out !! _ = Some _ |- _ => rewrite H; clear H
          end; cbn -[grouped_indices for_each calc_fpkm]).
  rewrite Hopen. cbn -[grouped_indices for_each calc_fpkm].
  rewrite Hmle. cbn -[grouped_indices for_each calc_fpkm].
  rewrite Hlhd. cbn -[grouped_indices for_each calc_fpkm].
  repeat (rewrite Hfault; cbn -[grouped_indices for_each calc_fpkm]).
  match goal with
  | |- context [for_each ?g ?body ?s] =>
      rewrite (for_each_appends (queue_fault ext) gene_id g Hqueue s
               : for_each g body s = _)
  end.
  cbn -[grouped_indices].
  eexists. split; [done|]. by repeat split.
Qed.

Lemma mle_stage_queues_bound_units_witness :
  exists groups s',
    estimate_gene_expression_worker faulty_store "mle" 8 NoIndex true
      0.1%float
      {| input_queue := []; output := list_to_map (gene_entries 8);
         op_lock := false; input_queue_lock := false |}
    = (Returned tt, s')
    /\ input_queue s'
       = []
         ++ flat_map (fun indices =>
                        [ ("lb"%string, Task 8 (Indices indices));
                          ("ub"%string, Task 8 (Indices indices)) ])
              groups
    /\ op_lock s' = false /\ input_queue_lock s' = false
    /\ concat groups = seq 0 (snd (0%float, 3%nat))
    /\ Forall (fun g => g <> [] /\ (length g <= 50)%nat) groups.
Proof.
  apply (mle_stage_queues_bound_units faulty_store 8 sample_gene
           (0%float, 3%nat) [0.5; 0.25; 0.25]%float NoIndex 0.1%float []
           (list_to_map (gene_entries 8)) faulty_store_cooperative).
  - vm_compute. reflexivity.
  - vm_compute. reflexivity.
  - vm_compute. by eexists.
  - vm_compute. by eexists.
  - vm_compute. by eexists.
Defined.
